(** * Clara flow engine: node executors, runtime-input overlay, client
    configuration and the execution plan.

    The development embeds, as Rocq functions over an explicit JavaScript
    heap, the TypeScript sources

    - [imageDescriptionOutputNode]'s executor ([executeImageDescriptionOutput]),
    - [AppRunner.runApp]'s construction of [nodesWithInputs] and its
      [updateNodeOutput] callback,
    - [OllamaClient]'s constructor and [getConfig],

    together with the plan builder and the flow executor of the
    [ExecutionEngine] module, which the application imports. *)

From Stdlib Require Import Floats FunInd Recdef.
From stdpp Require Import gmap strings list fin_maps relations pretty.

(** ** JavaScript values, objects and the heap *)

Module JS.

Abbreviation loc := positive.

(** A JavaScript value: the primitives, or a reference to a heap cell
    (a plain object, an array, a [File], ...). *)
Inductive JSValue : Type :=
| JSUndefined
| JSNull
| JSBool (b : bool)
| JSNumber (x : float)
| JSString (s : string)
| JSRef (l : loc).

(** The own enumerable properties of an object. *)
Abbreviation Obj := (gmap string JSValue).

Inductive Cell : Type :=
| CObj (o : Obj)
| CArr (elems : list JSValue).

Abbreviation Heap := (gmap loc Cell).

(** [ToBoolean]: [undefined], [null], [false], [+0], [-0], [NaN] and the
    empty string are falsy, every object is truthy. *)
Definition truthy (v : JSValue) : bool :=
  match v with
  | JSUndefined | JSNull => false
  | JSBool b => b
  | JSNumber x => negb (PrimFloat.eqb x 0%float || PrimFloat.is_nan x)
  | JSString s => negb (String.eqb s "")
  | JSRef _ => true
  end.

(** [a || b] on values (the right operand has no effect here). *)
Definition js_or (a b : JSValue) : JSValue := if truthy a then a else b.

(** The [typeof] operator (functions are not among the modelled values). *)
Definition typeof (v : JSValue) : string :=
  match v with
  | JSUndefined => "undefined"
  | JSNull => "object"
  | JSBool _ => "boolean"
  | JSNumber _ => "number"
  | JSString _ => "string"
  | JSRef _ => "object"
  end.

(** [o[k]] on a plain object, for a key that is not inherited. *)
Definition getProp (o : Obj) (k : string) : JSValue := default JSUndefined (o !! k).

(** The keys every plain object inherits from [Object.prototype]. *)
Definition objectPrototypeKeys : list string :=
  [ "constructor"; "hasOwnProperty"; "isPrototypeOf"; "propertyIsEnumerable";
    "toLocaleString"; "toString"; "valueOf"; "__proto__";
    "__defineGetter__"; "__defineSetter__"; "__lookupGetter__"; "__lookupSetter__" ].

(** [o[k]] on a plain object for a key known only at run time: an own
    property, else the member inherited under [k], else [undefined].
    [builtin k] is the location of the built-in object found under the
    inherited key [k] (a function, and [Object.prototype] itself under
    ["__proto__"]). *)
Definition readProp (builtin : string → loc) (o : Obj) (k : string) : JSValue :=
  match o !! k with
  | Some v => v
  | None => if bool_decide (k ∈ objectPrototypeKeys) then JSRef (builtin k) else JSUndefined
  end.

(** [o[k] = v] on a plain object: an own property is set, except under
    ["__proto__"], where the inherited setter runs instead: it changes the
    object's prototype when [v] is an object or [null] (outside the model,
    [None]) and does nothing for any other value. *)
Definition assignProp (o : Obj) (k : string) (v : JSValue) : option Obj :=
  if String.eqb k "__proto__" then
    match o !! k, v with
    | Some _, _ => Some (<[k := v]> o)
    | None, (JSRef _ | JSNull) => None
    | None, _ => Some o
    end
  else Some (<[k := v]> o).

(** [v !== undefined]. *)
Definition isDefined (v : JSValue) : bool :=
  match v with JSUndefined => false | _ => true end.

(** [v === JSString s]. *)
Definition strictEqString (v : JSValue) (s : string) : bool :=
  match v with JSString t => String.eqb t s | _ => false end.

(** Allocation of a new cell at an unused location. *)
Definition alloc (h : Heap) (c : Cell) : loc * Heap :=
  let l := fresh (dom h) in (l, <[l := c]> h).

(** [v.k] for a named key [k] (neither an array index nor a built-in
    member): a [TypeError] ([None]) on [undefined] and [null], [undefined]
    on the other primitives and on arrays. *)
Definition getField (h : Heap) (v : JSValue) (k : string) : option JSValue :=
  match v with
  | JSUndefined | JSNull => None
  | JSRef l =>
      match h !! l with
      | Some (CObj o) => Some (getProp o k)
      | _ => Some JSUndefined
      end
  | _ => Some JSUndefined
  end.

(** Strings are held as UTF-8 text, and JavaScript indexes a string by
    UTF-16 code unit.  [codeUnits s] lists the code units of [s], each as
    a string of its own: a character of one to three bytes is one unit, a
    character of four bytes is a pair of surrogates (each written as the
    three bytes of its own code), a byte outside a well-formed sequence is
    kept as it is. *)
Definition isContinuation (c : Ascii.ascii) : bool :=
  let n := Ascii.N_of_ascii c in ((128 <=? n) && (n <? 192))%N.

Definition sequenceLength (c : Ascii.ascii) : nat :=
  let n := Ascii.N_of_ascii c in
  if (n <? 192)%N then 1
  else if (n <? 224)%N then 2
  else if (n <? 240)%N then 3
  else if (n <? 248)%N then 4
  else 1.

Definition unitText (u : N) : string :=
  String (Ascii.ascii_of_N (224 + u / 4096))
    (String (Ascii.ascii_of_N (128 + (u / 64) mod 64))
       (String (Ascii.ascii_of_N (128 + u mod 64)) ""))%N.

Definition surrogates (b0 b1 b2 b3 : Ascii.ascii) : list string :=
  let low6 c := (Ascii.N_of_ascii c mod 64)%N in
  let point :=
    ((Ascii.N_of_ascii b0 mod 8) * 262144 + low6 b1 * 4096 + low6 b2 * 64 + low6 b3)%N in
  let offset := (point - 65536)%N in
  [unitText (55296 + offset / 1024); unitText (56320 + offset mod 1024)]%N.

Fixpoint codeUnitsOf (bytes : list Ascii.ascii) : list string :=
  match bytes with
  | [] => []
  | b0 :: rest =>
      match sequenceLength b0, rest with
      | 4, b1 :: b2 :: b3 :: rest' =>
          if isContinuation b1 && isContinuation b2 && isContinuation b3
          then surrogates b0 b1 b2 b3 ++ codeUnitsOf rest'
          else String b0 "" :: codeUnitsOf rest
      | 3, b1 :: b2 :: rest' =>
          if isContinuation b1 && isContinuation b2
          then String b0 (String b1 (String b2 "")) :: codeUnitsOf rest'
          else String b0 "" :: codeUnitsOf rest
      | 2, b1 :: rest' =>
          if isContinuation b1
          then String b0 (String b1 "") :: codeUnitsOf rest'
          else String b0 "" :: codeUnitsOf rest
      | _, _ => String b0 "" :: codeUnitsOf rest
      end
  end.

Definition codeUnits (s : string) : list string :=
  codeUnitsOf (String.list_ascii_of_string s).

(** The properties that [{...v}] copies: none for [undefined], [null],
    booleans and numbers, the own properties of an object, the indexed
    elements of an array, the indexed code units of a string. *)
Definition indexed {A} (f : A → JSValue) (l : list A) : Obj :=
  list_to_map (imap (λ i x, (pretty i, f x)) l).

Definition spreadProps (h : Heap) (v : JSValue) : Obj :=
  match v with
  | JSRef l =>
      match h !! l with
      | Some (CObj o) => o
      | Some (CArr a) => indexed id a
      | None => ∅
      end
  | JSString s => indexed JSString (codeUnits s)
  | _ => ∅
  end.

(** [{...base, ...src}]: later properties win. *)
Definition spreadInto (base src : Obj) : Obj := src ∪ base.

(** An assignment [o.k = v] or a [delete o.k] on the object at a location. *)
Inductive Mutation : Type :=
| SetProp (k : string) (v : JSValue)
| DeleteProp (k : string).

Definition applyMutation (l : loc) (h : Heap) (m : Mutation) : Heap :=
  match h !! l with
  | Some (CObj o) =>
      <[l := CObj (match m with
                   | SetProp k v => <[k := v]> o
                   | DeleteProp k => delete k o
                   end)]> h
  | _ => h
  end.

Definition mutate (l : loc) (h : Heap) (ms : list Mutation) : Heap :=
  foldl (applyMutation l) h ms.

(** Effectful code threads the state its callbacks act on. *)
Definition Eff (S A : Type) : Type := S → A * S.

Definition ret {S A} (a : A) : Eff S A := λ s, (a, s).

Definition bind {S A B} (m : Eff S A) (k : A → Eff S B) : Eff S B :=
  λ s, let '(a, s') := m s in k a s'.

Definition perform {S} (f : S → S) : Eff S unit := λ s, (tt, f s).

End JS.

Import JS.

Notation "'let*' x := m 'in' k" := (bind m (λ x, k))
  (at level 10, x name, m at level 100, k at level 200, only parsing).

(** ** Graph input and the executor registry's types *)

Module Flow.

(** A node of the graph: identifier, type tag, configuration payload. *)
Record FlowNode : Type := mkNode {
  id : string;
  type : string;
  data : Obj
}.

(** A directed connection between two ports. *)
Record Edge : Type := mkEdge {
  source : string;
  sourceHandle : option string;
  target : string;
  targetHandle : option string
}.

#[export] Instance Edge_eq_dec : EqDecision Edge.
Proof. solve_decision. Defined.

(** The caller's update callback [(nodeId, output) => void]. *)
Definition UpdateCallback (S : Type) : Type := string → JSValue → S → S.

(** [NodeExecutionContext]: what an executor receives. *)
Record NodeExecutionContext (S : Type) : Type := mkContext {
  node : FlowNode;
  inputs : Obj;
  updateNodeOutput : option (UpdateCallback S)
}.
Arguments mkContext {S} _ _ _.
Arguments node {S} _.
Arguments inputs {S} _.
Arguments updateNodeOutput {S} _.

(** An executor produces a node result or fails with an error message. *)
Definition Executor (S : Type) : Type :=
  NodeExecutionContext S → Eff S (string + JSValue).

End Flow.

Import Flow.

(** ** The executor of [imageDescriptionOutputNode] *)

Module ImageDescriptionOutput.

Section Executor.

(** [JSON.stringify] is the host's: it returns a string or [undefined],
    or throws (on a circular structure, on a [BigInt]), which is [inl]
    with the error's message.  The executor only passes it a value that
    is not a string. *)
Variable JSON_stringify : JSValue → string + JSValue.

Context {S : Type}.

(** [inputs.text || inputs['text-in'] || inputs.default || ''] *)
Definition resolveInput (inputs : Obj) : JSValue :=
  js_or (js_or (js_or (getProp inputs "text") (getProp inputs "text-in"))
               (getProp inputs "default"))
        (JSString "").

(** [typeof input === 'string' ? input : JSON.stringify(input)] *)
Definition renderOutput (input : JSValue) : string + JSValue :=
  if String.eqb (typeof input) "string" then inr input else JSON_stringify input.

(** The [async] function: its promise is fulfilled with [output]
    ([inr]), or rejected ([inl]) when [JSON.stringify] throws, which
    happens before the callback is reached. *)
Definition executeImageDescriptionOutput (context : NodeExecutionContext S)
  : Eff S (string + JSValue) :=
  let input := resolveInput (inputs context) in
  match renderOutput input with
  | inl error => ret (inl error)
  | inr output =>
      match updateNodeOutput context with
      | Some callback =>
          let* _ := perform (callback (id (node context)) output) in ret (inr output)
      | None => ret (inr output)
      end
  end.

(** The object registered under ['imageDescriptionOutputNode']. *)
Definition execute : Executor S := executeImageDescriptionOutput.

(** The alias chain in the specification's words, over a notion of when a
    key counts as supplied: the value under ["text"], otherwise the one
    under ["text-in"], otherwise the one under ["default"], otherwise the
    empty string. *)
Definition aliasChain (supplied : JSValue → bool) (inputs : Obj) : JSValue :=
  default (JSString "")
    (head (filter (λ v, supplied v = true)
             (omap (λ k, inputs !! k) ["text"; "text-in"; "default"]))).

End Executor.

End ImageDescriptionOutput.

(** ** [OllamaClient]: the constructor and [getConfig] *)

Module OllamaClient.

(** [config?.k] *)
Definition optionalField (h : Heap) (v : JSValue) (k : string) : JSValue :=
  default JSUndefined (getField h v k).

(** [constructor(baseUrl, config?)]: the field initialiser sets
    [abortController] to [null], the body stores a new configuration
    object under [this.config]. *)
Definition constructor (h : Heap) (baseUrl config : JSValue) : loc * Heap :=
  let '(this, h1) := alloc h (CObj {[ "abortController" := JSNull ]}) in
  let cfg : Obj :=
    <[ "apiKey" := js_or (optionalField h1 config "apiKey") (JSString "") ]>
    (<[ "baseUrl" := baseUrl ]>
    (<[ "type" := js_or (optionalField h1 config "type") (JSString "ollama") ]> ∅)) in
  let '(lc, h2) := alloc h1 (CObj cfg) in
  (this, applyMutation this h2 (SetProp "config" (JSRef lc))).

(** [this.config] *)
Definition configOf (h : Heap) (this : loc) : JSValue :=
  default JSUndefined (getField h (JSRef this) "config").

(** [getConfig(): return { ...this.config }] *)
Definition getConfig (h : Heap) (this : loc) : loc * Heap :=
  alloc h (CObj (spreadInto ∅ (spreadProps h (configOf h this)))).

End OllamaClient.

(** ** [AppRunner.runApp]: the runtime-input overlay and the callback *)

Module AppRunner.

(** The key a value denotes in [inputState[...]]; numbers and objects
    (whose conversion to a string is the host's) are outside the model. *)
Definition propertyKey (v : JSValue) : option string :=
  match v with
  | JSString s => Some s
  | JSUndefined => Some "undefined"
  | JSNull => Some "null"
  | JSBool true => Some "true"
  | JSBool false => Some "false"
  | JSNumber _ | JSRef _ => None
  end.

Section Overlay.

(** The built-in objects that [inputState], a plain object, inherits
    (see [readProp]). *)
Variable builtin : string → loc.

(** The callback of [appData.nodes.map]: a node for whose id
    [inputState[node.id]] is not [undefined] is rebuilt as three new
    objects (config, data, node); any other node is returned as it is.
    [None] is a [TypeError] (or an id outside the model).  The three
    objects are allocated innermost first, which only fixes which unused
    locations they get. *)
Definition overlayNode (inputState : Obj) (h : Heap) (node : JSValue)
  : option (JSValue * Heap) :=
  idv ← getField h node "id";
  key ← propertyKey idv;
  let value := readProp builtin inputState key in
  if isDefined value then
    typev ← getField h node "type";
    datav ← getField h node "data";
    configv ← getField h datav "config";
    let textPart : Obj :=
      if strictEqString typev "textInputNode" then {[ "inputText" := value ]} else ∅ in
    let imagePart : Obj :=
      if strictEqString typev "imageInputNode" then {[ "imageData" := value ]} else ∅ in
    let config' :=
      spreadInto (spreadInto (spreadInto ∅ (spreadProps h configv)) textPart) imagePart in
    let '(lc, h1) := alloc h (CObj config') in
    let data' := <[ "config" := JSRef lc ]> (spreadInto ∅ (spreadProps h1 datav)) in
    let '(ld, h2) := alloc h1 (CObj data') in
    let node' := <[ "data" := JSRef ld ]> (spreadInto ∅ (spreadProps h2 node)) in
    let '(ln, h3) := alloc h2 (CObj node') in
    Some (JSRef ln, h3)
  else Some (node, h).

Fixpoint mapNodes (inputState : Obj) (h : Heap) (elems : list JSValue)
  : option (list JSValue * Heap) :=
  match elems with
  | [] => Some ([], h)
  | node :: rest =>
      '(node', h1) ← overlayNode inputState h node;
      '(rest', h2) ← mapNodes inputState h1 rest;
      Some (node' :: rest', h2)
  end.

(** [const nodesWithInputs = appData.nodes.map(...)] *)
Definition nodesWithInputs (h : Heap) (nodes : JSValue) (inputState : Obj)
  : option (JSValue * Heap) :=
  match nodes with
  | JSRef la =>
      match h !! la with
      | Some (CArr elems) =>
          '(elems', h1) ← mapNodes inputState h elems;
          let '(l, h2) := alloc h1 (CArr elems') in
          Some (JSRef l, h2)
      | _ => None
      end
  | _ => None
  end.

End Overlay.

(** [updateNodeOutput]: [setOutputState(prev => ({...prev, [nodeId]: output}))],
    acting on the [outputState] object. *)
Definition updateNodeOutput : UpdateCallback Obj :=
  λ nodeId output prev, spreadInto (spreadInto ∅ prev) {[ nodeId := output ]}.

End AppRunner.

(** ** [ExecutionEngine]: the plan builder and the flow executor *)

Module ExecutionEngine.

(** Modelled from the spec: the [ExecutionEngine] module
    ([generateExecutionPlan], [executeFlow]) is imported by [AppRunner] but
    its file is not among the sources.  Section 4.2 and section 7: the
    structural errors of the plan builder and of the pre-flight check. *)
Inductive StructuralError : Type :=
| CycleDetected (ids : list string)
| DanglingEdge (e : Edge)
| DuplicateNodeId (i : string)
| UnknownNodeType (t : string).

(** Modelled from the spec: the execution plan of section 3, missing with
    [ExecutionEngine]: the waves of node ids, in order. *)
Abbreviation Plan := (list (list string)).

(** *** Plan builder *)

(** Modelled from the spec: the plan builder of section 4.2, missing with
    [ExecutionEngine]: compute each node's in-degree from the edge set. *)
Definition inDegrees (ids : list string) (edges : list Edge) : gmap string nat :=
  foldl (λ m e, alter S (target e) m) (gset_to_gmap 0 (list_to_set ids)) edges.

(** Modelled from the spec: all nodes whose in-degree is currently zero
    form a wave, in the order of the input array. *)
Definition ready (indeg : gmap string nat) (remaining : list string) : list string :=
  filter (λ n, indeg !! n = Some 0) remaining.

(** Modelled from the spec: decrement the in-degree of the dependents of
    the wave's nodes, once per edge leaving the wave. *)
Definition releaseDependents (edges : list Edge) (wave : list string)
    (indeg : gmap string nat) : gmap string nat :=
  foldl (λ m e, if decide (source e ∈ wave) then alter Nat.pred (target e) m else m)
        indeg edges.

(** Modelled from the spec: a wave goes in front of the waves that follow
    it; an error of the later rounds is the result. *)
Definition prepend (wave : list string) (r : StructuralError + Plan)
  : StructuralError + Plan :=
  match r with
  | inr p => inr (wave :: p)
  | inl e => inl e
  end.

Lemma ready_difference_length indeg remaining w ws :
  ready indeg remaining = w :: ws →
  length (list_difference remaining (w :: ws)) < length remaining.
Proof.
  intros Hr.
  assert (Hw : w ∈ remaining).
  { assert (w ∈ ready indeg remaining) as Hin by (rewrite Hr; left).
    unfold ready in Hin. by apply list_elem_of_filter in Hin as [_ ?]. }
  clear Hr. induction remaining as [|a l IH]; [by apply elem_of_nil in Hw|].
  simpl. case_decide as Ha.
  - assert (length (list_difference l (w :: ws)) ≤ length l); [|lia].
    clear. induction l; simpl; [lia|]. case_decide; simpl; lia.
  - apply elem_of_cons in Hw as [->|Hw]; [exfalso; apply Ha; left|].
    simpl. apply IH in Hw. lia.
Qed.

(** Modelled from the spec: repeatedly extract the wave of in-degree-zero
    nodes until no nodes remain; if nodes remain but no wave can be formed,
    report the remaining node ids as the cycle witness set. *)
Function waves (edges : list Edge) (remaining : list string)
    (indeg : gmap string nat) {measure length remaining}
  : StructuralError + Plan :=
  match remaining with
  | [] => inr []
  | _ :: _ =>
      match ready indeg remaining with
      | [] => inl (CycleDetected remaining)
      | w :: ws =>
          prepend (w :: ws)
            (waves edges (list_difference remaining (w :: ws))
                   (releaseDependents edges (w :: ws) indeg))
      end
  end.
Proof. intros. by eapply ready_difference_length. Defined.

(** Modelled from the spec: the structural checks of section 4.2, in the
    order of the input arrays; the first id that occurs again
    ([DuplicateNodeId]). *)
Fixpoint firstDuplicate (ids : list string) : option string :=
  match ids with
  | [] => None
  | i :: rest => if decide (i ∈ rest) then Some i else firstDuplicate rest
  end.

(** Modelled from the spec: the first edge of the input array one of whose
    ends is not a node ([DanglingEdge]). *)
Definition firstDangling (ids : list string) (edges : list Edge) : option Edge :=
  head (filter (λ e, source e ∉ ids ∨ target e ∉ ids) edges).

(** Modelled from the spec: [buildPlan(graph) -> Plan | StructuralError]. *)
Definition buildPlan (nodes : list FlowNode) (edges : list Edge)
  : StructuralError + Plan :=
  let ids := map id nodes in
  match firstDuplicate ids with
  | Some i => inl (DuplicateNodeId i)
  | None =>
      match firstDangling ids edges with
      | Some e => inl (DanglingEdge e)
      | None => waves edges ids (inDegrees ids edges)
      end
  end.

(** Modelled from the spec: the plan builder under the name by which
    [AppRunner] calls it. *)
Definition generateExecutionPlan := buildPlan.

(** Modelled from the spec: the linear order of a plan (section 3, "a
    linear or staged sequence of node ids"). *)
Definition executionOrder (p : Plan) : list string := concat p.

(** The wave a node stands in, and its position in the linear order. *)
Definition waveIndex (p : Plan) (n : string) : option nat :=
  fst <$> list_find (λ w, n ∈ w) p.

Definition position (p : Plan) (n : string) : option nat :=
  fst <$> list_find (λ m, m = n) (executionOrder p).

(** *** Flow executor *)

(** Modelled from the spec: the node states and the run states of section
    4.4, missing with [ExecutionEngine]. *)
Module Node.
Inductive Status : Type :=
| Pending
| Running
| Succeeded (output : JSValue)
| Failed (error : string)
| Skipped.
End Node.

Module Run.
Inductive Status : Type :=
| Initialized
| Running
| Completed
| Failed
| Cancelled.
End Run.

(** Modelled from the spec: the Run State of section 3, per-node status
    with output or error, with the inputs resolved for the nodes that were
    started, the errors attributed to the run in the order they happened,
    and whether the cancellation signal was taken. *)
Record RunState : Type := mkRunState {
  statuses : gmap string Node.Status;
  resolved : gmap string Obj;
  failures : list (string * string);
  cancelRequested : bool
}.

(** Modelled from the spec: the [RunOutcome] of section 6, per-node final
    states and the terminal state, with the primary cause and the
    suppressed errors of section 4.4. *)
Record RunOutcome : Type := mkRunOutcome {
  nodeStates : gmap string Node.Status;
  terminal : Run.Status;
  cause : option (string * string);
  suppressed : list (string * string)
}.

(** Modelled from the spec: section 5, the nodes run as concurrent tasks
    constrained only by the dependency order.  What the scheduler, the
    executors' own work and the caller decide is the order of the events
    of a run: a node's executor is started, a running executor comes to
    its end, the cancellation signal is raised. *)
Inductive Event : Type :=
| Start (n : string)
| Complete (n : string)
| Cancel.

Section Engine.

Context {St : Type}.
Variable registry : gmap string (Executor St).
Variable nodes : list FlowNode.
Variable edges : list Edge.
Variable callback : option (UpdateCallback St).

(** Modelled from the spec: section 4.5 has every successful invocation
    call the caller's callback, as the engine's side effect, and section 2
    hands each executor a result-publishing callback; whether the engine
    itself makes a call when an executor succeeds (rule 2 of section 4.4)
    is this parameter. *)
Variable enginePublishes : bool.

(** Modelled from the spec: the node of an id, the edges into a node, and
    the states a node can be in. *)
Definition findNode (n : string) : option FlowNode :=
  head (filter (λ nd, id nd = n) nodes).

(** Modelled from the spec: the edges into a node (section 4.3). *)
Definition inEdges (n : string) : list Edge :=
  filter (λ e, target e = n) edges.

(** Modelled from the spec: whether a node has reached [Succeeded]. *)
Definition succeeded (st : gmap string Node.Status) (n : string) : bool :=
  match st !! n with
  | Some (Node.Succeeded _) => true
  | _ => false
  end.

(** Modelled from the spec: whether a node is still [Pending]. *)
Definition pending (st : gmap string Node.Status) (n : string) : bool :=
  match st !! n with
  | Some Node.Pending => true
  | _ => false
  end.

(** Modelled from the spec: whether a node is [Running]. *)
Definition running (st : gmap string Node.Status) (n : string) : bool :=
  match st !! n with
  | Some Node.Running => true
  | _ => false
  end.

(** Modelled from the spec: a node is unsettled while it is [Pending] or
    [Running]. *)
Definition unsettled (st : gmap string Node.Status) (n : string) : bool :=
  pending st n || running st n.

(** Modelled from the spec: rule 1 of section 4.4, a node enters [Running]
    only when every node it depends on has reached [Succeeded]. *)
Definition dependenciesSucceeded (st : gmap string Node.Status) (n : string) : bool :=
  forallb (λ e, succeeded st (source e)) (inEdges n).

(** Modelled from the spec: section 3, a port name defaults to
    ["default"]. *)
Definition portName (handle : option string) : string := default "default" handle.

(** Modelled from the spec: section 4.3, the result of each in-edge's source
    goes under the edge's target port; the last edge processed wins. *)
Definition resolveInputs (st : gmap string Node.Status) (n : string) : Obj :=
  foldl (λ inputs e,
           match st !! source e with
           | Some (Node.Succeeded v) => <[portName (targetHandle e) := v]> inputs
           | _ => inputs
           end) ∅ (inEdges n).

(** Modelled from the spec: the lookup of a node's executor in the
    registry (section 4.1). *)
Definition lookupExecutor (n : string) : option (FlowNode * Executor St) :=
  nd ← findNode n; ex ← registry !! type nd; Some (nd, ex).

(** Modelled from the spec: rule 1 of section 4.4 and section 4.3, a
    pending node all of whose dependencies succeeded is started on the
    inputs resolved at that point. *)
Definition start (n : string) (rs : RunState) : option RunState :=
  if pending (statuses rs) n && dependenciesSucceeded (statuses rs) n then
    _ ← lookupExecutor n;
    Some (mkRunState (<[n := Node.Running]> (statuses rs))
                     (<[n := resolveInputs (statuses rs) n]> (resolved rs))
                     (failures rs) (cancelRequested rs))
  else None.

(** Modelled from the spec: rule 3 of section 4.4, whether a node has an
    edge from one of the nodes [marked]. *)
Definition dependsOnAny (marked : list string) (m : string) : bool :=
  existsb (λ e, bool_decide (source e ∈ marked)) (inEdges m).

(** Modelled from the spec: rule 3 of section 4.4, the nodes transitively
    depending on a node, found by walking the plan in order (every node
    stands after the nodes it depends on): a node is reached when it has an
    edge from the node or from one reached before.  The node itself heads
    the result. *)
Definition reachedFrom (order : list string) (n : string) : list string :=
  foldl (λ marked m, if dependsOnAny marked m then marked ++ [m] else marked)
        [n] order.

(** Modelled from the spec: rule 3 of section 4.4, the reached nodes are
    marked [Skipped]. *)
Definition skipAll (ms : list string) (st : gmap string Node.Status)
  : gmap string Node.Status :=
  foldr (λ m acc, <[m := Node.Skipped]> acc) st ms.

(** Modelled from the spec: rule 2 of section 4.4, on success the result
    is recorded and the node becomes [Succeeded]. *)
Definition succeed (n : string) (v : JSValue) (rs : RunState) : RunState :=
  mkRunState (<[n := Node.Succeeded v]> (statuses rs)) (resolved rs)
             (failures rs) (cancelRequested rs).

(** Modelled from the spec: rule 3 of section 4.4, on failure the node
    becomes [Failed], its transitive dependents are marked [Skipped] and
    the error is attributed to the run. *)
Definition fail (order : list string) (n err : string) (rs : RunState) : RunState :=
  mkRunState (<[n := Node.Failed err]> (skipAll (reachedFrom order n) (statuses rs)))
             (resolved rs) (failures rs ++ [(n, err)]) (cancelRequested rs).

(** Modelled from the spec: rule 2 of section 4.4 and section 4.5, the
    engine's own call of the caller's callback, if it makes one. *)
Definition publish (n : string) (v : JSValue) : Eff St unit :=
  match callback with
  | Some cb => if enginePublishes then perform (cb n v) else ret tt
  | None => ret tt
  end.

(** Modelled from the spec: a running executor comes to its end.  It has
    received the node, the inputs resolved when it was started and the
    caller's callback.  An executor's work, which may be suspended inside
    (section 5), is taken as one step here: the run state is the engine's
    alone, so this only fixes the order of the executors' effects on the
    caller's state. *)
Definition complete (order : list string) (n : string) (rs : RunState)
  : option (Eff St RunState) :=
  if running (statuses rs) n then
    '(nd, ex) ← lookupExecutor n;
    Some (let* r := ex (mkContext nd (default ∅ (resolved rs !! n)) callback) in
          match r with
          | inr v => let* _ := publish n v in ret (succeed n v rs)
          | inl err => ret (fail order n err rs)
          end)
  else None.

(** Modelled from the spec: rule 5 of section 4.4, the cancellation signal
    turns every [Pending] or [Running] node to [Skipped] (an aborted
    executor's outcome is not taken any more) and the run to [Cancelled];
    results already there are kept.  Once every node is settled the run
    is over and the signal is not looked at. *)
Definition abort (s : Node.Status) : Node.Status :=
  match s with
  | Node.Pending | Node.Running => Node.Skipped
  | _ => s
  end.

(** Modelled from the spec: rule 5 of section 4.4, the signal is taken
    while some node of the plan is unsettled. *)
Definition cancel (order : list string) (rs : RunState) : option RunState :=
  if existsb (unsettled (statuses rs)) order
  then Some (mkRunState (abort <$> statuses rs) (resolved rs) (failures rs) true)
  else None.

(** Modelled from the spec: one event of a run; [None] when the engine is
    not in a state for it. *)
Definition step (order : list string) (ev : Event) (rs : RunState)
  : option (Eff St RunState) :=
  match ev with
  | Start n => ret <$> start n rs
  | Complete n => complete order n rs
  | Cancel => ret <$> cancel order rs
  end.

(** Modelled from the spec: the events of a run, one after the other. *)
Fixpoint runEvents (order : list string) (events : list Event) (rs : RunState)
    (s : St) : option (RunState * St) :=
  match events with
  | [] => Some (rs, s)
  | ev :: rest =>
      m ← step order ev rs;
      let '(rs', s') := m s in runEvents order rest rs' s'
  end.

(** Modelled from the spec: section 7, an unknown node type is found
    before any executor runs. *)
Definition unknownType : option string :=
  head (filter (λ t, registry !! t = None) (map type nodes)).

(** Modelled from the spec: every node starts [Pending]; the run is over
    when no node is [Pending] or [Running]. *)
Definition initialState (order : list string) : RunState :=
  mkRunState (gset_to_gmap Node.Pending (list_to_set order)) ∅ [] false.

(** Modelled from the spec: the run is over when no node of the plan is
    [Pending] or [Running]. *)
Definition finished (order : list string) (rs : RunState) : bool :=
  negb (existsb (unsettled (statuses rs)) order).

(** Modelled from the spec: rules 3 to 5 of section 4.4 for the terminal
    state: a run that took the cancellation signal ends [Cancelled], a run
    to which an error was attributed ends [Failed], any other run ends
    [Completed]; the first error is the primary cause, later ones are kept
    as suppressed errors. *)
Definition terminalOf (rs : RunState) : Run.Status :=
  if cancelRequested rs then Run.Cancelled
  else match failures rs with
       | [] => Run.Completed
       | _ :: _ => Run.Failed
       end.

(** Modelled from the spec: the outcome reported to the caller. *)
Definition outcomeOf (rs : RunState) : RunOutcome :=
  mkRunOutcome (statuses rs) (terminalOf rs) (head (failures rs))
               (tail (failures rs)).

(** Modelled from the spec: [run(plan, runtimeInputs, onNodeResult)], called
    as [executeFlow(plan, updateNodeOutput)] on the nodes that already carry
    the runtime inputs.  [events] is the run's order of events; the result
    is [None] when the events are not a run of the engine to its end. *)
Definition executeFlow (plan : Plan) (events : list Event) (s : St)
  : option ((StructuralError + RunOutcome) * St) :=
  match unknownType with
  | Some t => Some (inl (UnknownNodeType t), s)
  | None =>
      '(rs, s') ← runEvents (executionOrder plan) events
                    (initialState (executionOrder plan)) s;
      if finished (executionOrder plan) rs then Some (inr (outcomeOf rs), s')
      else None
  end.

(** Modelled from the spec: the run in which the plan is walked in order,
    each node being started, if it is still [Pending] by then, and brought
    to its end before the next one. *)
Fixpoint sequentialEvents (order todo : list string) (rs : RunState) (s : St)
  : list Event :=
  match todo with
  | [] => []
  | n :: rest =>
      match start n rs with
      | Some rs1 =>
          match complete order n rs1 with
          | Some m => Start n :: Complete n :: sequentialEvents order rest (m s).1 (m s).2
          | None => []
          end
      | None => sequentialEvents order rest rs s
      end
  end.

End Engine.

End ExecutionEngine.

(** ** [OllamaClient]: requests, payloads and messages *)

Module ClientRequests.

(** One entry of an object literal: a property or a spread. *)
Inductive LiteralPart : Type :=
| Field (k : string) (v : JSValue)
| Spread (o : Obj).

(** [{ p1, p2, ... }]: the entries are defined in order, later ones win. *)
Definition objectLiteral (parts : list LiteralPart) : Obj :=
  foldl (λ o p, match p with
                | Field k v => <[k := v]> o
                | Spread src => spreadInto o src
                end) ∅ parts.

(** [this.config.type === 'ollama' ? '/api/chat' : '/chat/completions'] *)
Definition chatEndpoint (config : Obj) : string :=
  if strictEqString (getProp config "type") "ollama"
  then "/api/chat" else "/chat/completions".

Definition newline : string := String (Ascii.ascii_of_nat 10) "".

Section Host.

(** The host's conversion of a number and of an object to a string, used
    where a template literal interpolates a value. *)
Variable NumberToString : float → string.
Variable ObjectToString : loc → string.

Definition toTemplate (v : JSValue) : string :=
  match v with
  | JSString s => s
  | JSUndefined => "undefined"
  | JSNull => "null"
  | JSBool true => "true"
  | JSBool false => "false"
  | JSNumber x => NumberToString x
  | JSRef l => ObjectToString l
  end.

(** [request]: [endpoint.startsWith('/api/')], the url and the headers,
    up to the call of [fetch]. *)
Definition isOllamaEndpoint (endpoint : string) : bool :=
  String.prefix "/api/" endpoint.

Definition requestUrl (config : Obj) (endpoint : string) : string :=
  toTemplate (getProp config "baseUrl") +:+ endpoint.

Definition requestHeaders (config : Obj) (endpoint : string) : gmap string string :=
  let headers : gmap string string := <["Content-Type" := "application/json"]> ∅ in
  if truthy (getProp config "apiKey") && negb (isOllamaEndpoint endpoint)
  then <["Authorization" := "Bearer " +:+ toTemplate (getProp config "apiKey")]> headers
  else headers.

(** [listModels]: the endpoint and the headers, up to the call of [fetch]. *)
Definition listModelsEndpoint (config : Obj) : string :=
  if strictEqString (getProp config "type") "ollama" then "/api/tags" else "/models".

Definition listModelsHeaders (config : Obj) : gmap string string :=
  let headers : gmap string string := <["Content-Type" := "application/json"]> ∅ in
  if strictEqString (getProp config "type") "openai" && truthy (getProp config "apiKey")
  then <["Authorization" := "Bearer " +:+ toTemplate (getProp config "apiKey")]> headers
  else headers.

(** [streamChat]: the headers, up to the call of [fetch]. *)
Definition streamChatHeaders (config : Obj) : gmap string string :=
  let headers : gmap string string := <["Content-Type" := "application/json"]> ∅ in
  if truthy (getProp config "apiKey")
     && negb (strictEqString (getProp config "type") "ollama")
  then <["Authorization" := "Bearer " +:+ toTemplate (getProp config "apiKey")]> headers
  else headers.

(** What a rejected promise or a [throw] carries: an [Error] with a
    message, or some other value. *)
Inductive Thrown : Type :=
| ThrownError (message : string)
| ThrownOther.

(** The response of [fetch], as far as the client reads it; [json] is the
    outcome of [response.json()]. *)
Record Response : Type := mkResponse {
  ok : bool;
  status : float;
  statusText : string;
  json : Thrown + JSValue
}.

(** The second argument of [fetch]; [body] is the value that is
    serialized, if any. *)
Record FetchInit : Type := mkFetchInit {
  method : string;
  headers : gmap string string;
  mode : string;
  body : option JSValue
}.

(** [s.includes(sub)] *)
Definition stringIncludes (s sub : string) : bool :=
  match String.index 0 sub s with Some _ => true | None => false end.

Definition connectionError (config : Obj) : string :=
  "Connection error: Unable to connect to " +:+ toTemplate (getProp config "baseUrl")
  +:+ ". " +:+ newline
  +:+ "            Please check if the server is running and the URL is correct.".

(** [request]: the parsed body of the response, or the message of the
    [Error] that is thrown; [fetch] gives the outcome of the call of the
    host's [fetch]. *)
Definition request (fetch : string → FetchInit → Thrown + Response)
    (config : Obj) (endpoint method : string) (body : JSValue) : string + JSValue :=
  let attempt : Thrown + JSValue :=
    match fetch (requestUrl config endpoint)
                (mkFetchInit method (requestHeaders config endpoint) "cors"
                             (if truthy body then Some body else None)) with
    | inl thrown => inl thrown
    | inr response =>
        if negb (ok response)
        then inl (ThrownError ("Request failed: " +:+ NumberToString (status response)
                               +:+ " " +:+ statusText response))
        else json response
    end in
  match attempt with
  | inr value => inr value
  | inl (ThrownError message) =>
      if stringIncludes message "Failed to fetch"
      then inl (connectionError config)
      else inl message
  | inl ThrownOther => inl "An unknown error occurred while connecting to the API server"
  end.

End Host.

(** [sendChat]: the payload handed to [request]. *)
Definition sendChatPayload (config : Obj) (model messages : JSValue)
    (options : Obj) : Obj :=
  if strictEqString (getProp config "type") "ollama"
  then objectLiteral [Field "model" model; Field "messages" messages;
                      Spread options; Field "stream" (JSBool false)]
  else objectLiteral [Field "model" model; Field "messages" messages;
                      Field "stream" (JSBool false); Spread options].

(** [generateWithImages]: the payload of the Ollama branch, and the payload
    of the OpenAI branch over the [messages] array it has built. *)
Definition generateOllamaPayload (model prompt images : JSValue) (options : Obj) : Obj :=
  objectLiteral [Field "model" model; Field "prompt" prompt; Field "images" images;
                 Field "stream" (JSBool false); Spread options].

Definition generateOpenAIPayload (model messages : JSValue) (options : Obj) : Obj :=
  objectLiteral [Field "model" model; Field "messages" messages;
                 Field "max_tokens"
                   (js_or (getProp options "max_tokens") (JSNumber 300%float));
                 Spread options].

(** [Array.isArray(v)] *)
Definition isArray (h : Heap) (v : JSValue) : bool :=
  match v with
  | JSRef l => match h !! l with Some (CArr _) => true | _ => false end
  | _ => false
  end.

(** [generateEmbeddings]: the endpoint and the payload; [[input]] is a new
    array. *)
Definition embeddingsEndpoint (config : Obj) : string :=
  if strictEqString (getProp config "type") "ollama" then "/api/embed" else "/embeddings".

Definition embeddingsPayload (h : Heap) (config : Obj) (model input : JSValue)
    (options : Obj) : Obj * Heap :=
  if strictEqString (getProp config "type") "ollama"
  then (objectLiteral [Field "model" model; Field "input" input; Spread options], h)
  else if isArray h input
  then (objectLiteral [Field "model" model; Field "input" input; Spread options], h)
  else let '(l, h1) := alloc h (CArr [input]) in
       (objectLiteral [Field "model" model; Field "input" (JSRef l); Spread options], h1).

(** Chat messages, as the interface [ChatMessage] declares them. *)
Inductive ChatRole : Type := system | user | assistant | tool.

#[export] Instance ChatRole_eq_dec : EqDecision ChatRole.
Proof. solve_decision. Defined.

Record ChatMessage : Type := mkMessage {
  role : ChatRole;
  content : string;
  images : option (list string);
  tool_calls : option (list JSValue)
}.

(** What [prepareMessages] returns for a message: the message itself, or
    a new object with a role and a list of content parts. *)
Inductive ContentPart : Type :=
| TextPart (text : string)
| ImageUrlPart (url : string).

Inductive PreparedMessage : Type :=
| Unchanged (msg : ChatMessage)
| Multipart (r : ChatRole) (parts : list ContentPart).

(** [img.startsWith('data:') ? img : `data:image/jpeg;base64,${img}`] *)
Definition imageUrl (img : string) : string :=
  if String.prefix "data:" img then img else "data:image/jpeg;base64," +:+ img.

Definition prepareMessage (msg : ChatMessage) : PreparedMessage :=
  match images msg with
  | Some (img :: imgs) =>
      Multipart (role msg)
        (TextPart (content msg) :: map (λ i, ImageUrlPart (imageUrl i)) (img :: imgs))
  | _ => Unchanged msg
  end.

Definition prepareMessages (config : Obj) (messages : list ChatMessage)
  : list PreparedMessage :=
  if negb (strictEqString (getProp config "type") "ollama")
  then map prepareMessage messages
  else map Unchanged messages.

(** [generateWithImages], OpenAI branch: the one user message, every
    image prefixed. *)
Definition visionMessage (prompt : string) (imgs : list string) : PreparedMessage :=
  Multipart user
    (TextPart prompt
     :: map (λ img, ImageUrlPart ("data:image/jpeg;base64," +:+ img)) imgs).

(** [messages.findIndex(p)], [None] for [-1]. *)
Fixpoint findIndex {A} (p : A → bool) (l : list A) : option nat :=
  match l with
  | [] => None
  | x :: rest => if p x then Some 0 else S <$> findIndex p rest
  end.

(** [sendStructuredChat], OpenAI branch: the messages of the payload, the
    schema description appended to the first system message or put in a
    new system message at the beginning. *)
Definition appendSchema (schemaDescription : string) (m : ChatMessage) : ChatMessage :=
  mkMessage (role m) (content m +:+ newline +:+ newline +:+ schemaDescription)
            (images m) (tool_calls m).

Definition structuredMessages (messages : list ChatMessage)
    (schemaDescription : string) : list ChatMessage :=
  match findIndex (λ m, bool_decide (role m = system)) messages with
  | Some i => alter (appendSchema schemaDescription) i messages
  | None => mkMessage system schemaDescription None None :: messages
  end.

(** [sendStructuredChat]: the payload; in the OpenAI branch [messages] is
    then assigned the messages above ([responseFormat] and [newMessages]
    refer to the objects built for them). *)
Definition structuredPayload (config : Obj)
    (model messages format responseFormat newMessages : JSValue)
    (options : Obj) : Obj :=
  if strictEqString (getProp config "type") "ollama"
  then objectLiteral [Field "model" model; Field "messages" messages;
                      Field "format" format; Spread options;
                      Field "stream" (JSBool false)]
  else <["messages" := newMessages]>
         (objectLiteral [Field "model" model; Field "messages" messages;
                         Field "response_format" responseFormat;
                         Field "stream" (JSBool false); Spread options]).

(** [abortStream]: [abort] is the host's [AbortController.prototype.abort],
    called on the controller the field refers to.  [None] is the
    [TypeError] of calling [abort] on a truthy value that has no such
    method. *)
Definition abortStream (abort : loc → Heap → Heap) (h : Heap) (this : loc)
  : option Heap :=
  controller ← getField h (JSRef this) "abortController";
  match controller with
  | JSRef c => Some (applyMutation this (abort c h) (SetProp "abortController" JSNull))
  | v => if truthy v then None else Some h
  end.

(** [v[i]] for an index [i]: a [TypeError] ([None]) on [undefined] and
    [null]. *)
Definition getIndex (h : Heap) (v : JSValue) (i : nat) : option JSValue :=
  match v with
  | JSUndefined | JSNull => None
  | JSRef l =>
      match h !! l with
      | Some (CArr elems) => Some (default JSUndefined (elems !! i))
      | Some (CObj o) => Some (getProp o (pretty i))
      | None => Some JSUndefined
      end
  | JSString s => Some (default JSUndefined (JSString <$> codeUnits s !! i))
  | _ => Some JSUndefined
  end.

(** [sendChat] and [sendStructuredChat], types other than the Ollama one:
    the object returned for a response. *)
Record ChatResult : Type := mkChatResult {
  messageContent : JSValue;
  messageRole : JSValue;
  chatEvalCount : JSValue
}.

Definition chatResult (h : Heap) (response : JSValue) : option ChatResult :=
  choices ← getField h response "choices";
  first ← getIndex h choices 0;
  message ← getField h first "message";
  content ← getField h message "content";
  role ← getField h message "role";
  Some (mkChatResult content role
          (js_or (OllamaClient.optionalField h
                    (OllamaClient.optionalField h response "usage") "total_tokens")
                 (JSNumber 0%float))).

(** [generateWithImages], types other than the Ollama one: the object
    returned for a response. *)
Record VisionResult : Type := mkVisionResult {
  visionResponse : JSValue;
  visionEvalCount : JSValue
}.

Definition visionResult (h : Heap) (response : JSValue) : option VisionResult :=
  choices ← getField h response "choices";
  first ← getIndex h choices 0;
  message ← getField h first "message";
  content ← getField h message "content";
  usage ← getField h response "usage";
  total ← getField h usage "total_tokens";
  Some (mkVisionResult content total).

(** [s.split("\n")] *)
Fixpoint splitLines (s : string) : list string :=
  match s with
  | EmptyString => [""]
  | String c rest =>
      if Ascii.eqb c (Ascii.ascii_of_nat 10) then "" :: splitLines rest
      else match splitLines rest with
           | line :: lines => String c line :: lines
           | [] => [String c ""]
           end
  end.

(** [a === b] *)
Definition strictEq (a b : JSValue) : bool :=
  match a, b with
  | JSUndefined, JSUndefined | JSNull, JSNull => true
  | JSBool x, JSBool y => Bool.eqb x y
  | JSNumber x, JSNumber y => PrimFloat.eqb x y
  | JSString s, JSString t => String.eqb s t
  | JSRef l, JSRef k => Pos.eqb l k
  | _, _ => false
  end.

(** [s.replace(pattern, replacement)] for a string pattern: the first
    occurrence is replaced. *)
Definition replaceFirst (pattern replacement s : string) : string :=
  match String.index 0 pattern s with
  | Some n =>
      String.substring 0 n s +:+ replacement
      +:+ String.substring (n + String.length pattern)
            (String.length s - (n + String.length pattern)) s
  | None => s
  end.

Section Streams.

(** The host's [trim] and [JSON.parse] ([None] when it throws); the
    objects that [JSON.parse] returns are in the heap [h], at locations
    that stand for the objects' contents (see [sameDigest] for their
    identity). *)
Variable trim : string → string.
Variable JSON_parse : string → option JSValue.
Variable h : Heap.

(** Whether [v.slice] is a function: on strings and arrays. *)
Definition hasSlice (v : JSValue) : bool :=
  match v with
  | JSString _ => true
  | JSRef l => match h !! l with Some (CArr _) => true | _ => false end
  | _ => false
  end.

(** [data.digest === currentDigest].  Every call of [JSON.parse] builds
    new objects, so a digest that is an object or an array is never the
    one an earlier line left in [currentDigest], also when the two lines
    have the same text; primitives compare by value. *)
Definition sameDigest (digest currentDigest : JSValue) : bool :=
  match digest with
  | JSRef _ => false
  | _ => strictEq digest currentDigest
  end.

(** [pullModel]: the body of [for (const line of lines)]: the data it
    yields, if any, and the value of [currentDigest] after it.  A
    [TypeError] in the [try] block (reading [digest] on [null], calling
    [slice] on a digest that has none) is swallowed by its [catch], after
    [currentDigest] has been assigned. *)
Definition pullLine (currentDigest : JSValue) (line : string)
  : option JSValue * JSValue :=
  if truthy (JSString (trim line))
  then match JSON_parse line with
       | None => (None, currentDigest)
       | Some data =>
           match getField h data "digest" with
           | None => (None, currentDigest)
           | Some digest =>
               if truthy digest && negb (sameDigest digest currentDigest)
               then (if hasSlice digest then Some data else None, digest)
               else (Some data, currentDigest)
           end
       end
  else (None, currentDigest).

Fixpoint pullLines (currentDigest : JSValue) (lines : list string)
  : list JSValue * JSValue :=
  match lines with
  | [] => ([], currentDigest)
  | line :: rest =>
      let '(yielded, digest) := pullLine currentDigest line in
      let '(yields, final) := pullLines digest rest in
      (option_list yielded ++ yields, final)
  end.

(** [pullModel]: the loop over the chunks that the reader delivers, as
    decoded text; it returns what is yielded, the final buffer and the
    final [currentDigest]. *)
Fixpoint pullLoop (buffer : string) (currentDigest : JSValue) (chunks : list string)
  : list JSValue * string * JSValue :=
  match chunks with
  | [] => ([], buffer, currentDigest)
  | chunk :: rest =>
      let lines := splitLines (buffer +:+ chunk) in
      let buffer' := default "" (last lines) in
      let '(yields1, digest) := pullLines currentDigest (removelast lines) in
      let '(yields2, final, digest') := pullLoop buffer' digest rest in
      (yields1 ++ yields2, final, digest')
  end.

(** [pullModel]: everything it yields for the chunks of a response. *)
Definition pullYields (chunks : list string) : list JSValue :=
  let '(yields, buffer, _) := pullLoop "" (JSString "") chunks in
  yields ++ (if truthy (JSString (trim buffer))
             then option_list (JSON_parse buffer)
             else []).

(** [pullModel]: the checks before the loop, then the loop.  [fetched] is
    the outcome of [fetch]; a response carries the chunks of its body, if
    it has one. *)
Definition pullModel (config : Obj) (NumberToString : float → string)
    (fetched : Thrown + (bool * float * string * option (list string)))
  : Thrown + list JSValue :=
  if negb (strictEqString (getProp config "type") "ollama")
  then inl (ThrownError "Model pulling is only supported with Ollama")
  else match fetched with
       | inl thrown => inl thrown
       | inr (ok, status, statusText, body) =>
           if negb ok
           then inl (ThrownError ("Failed to pull model: " +:+ NumberToString status
                                  +:+ " " +:+ statusText))
           else match body with
                | None => inl (ThrownError "No response body")
                | Some chunks => inr (pullYields chunks)
                end
       end.

(** What [streamChat] yields: the parsed line (Ollama type), or a new
    object with the content of the delta (other types). *)
Inductive StreamItem : Type :=
| Parsed (data : JSValue)
| Delta (content : JSValue).

(** [data.choices[0]?.delta?.content || ''] *)
Definition deltaContent (data : JSValue) : option JSValue :=
  choices ← getField h data "choices";
  first ← getIndex h choices 0;
  Some (js_or (OllamaClient.optionalField h
                 (OllamaClient.optionalField h first "delta") "content")
              (JSString "")).

(** [streamChat]: the body of [for (const line of lines)], with what it
    yields, if anything. *)
Definition streamLine (config : Obj) (line : string) : option StreamItem :=
  if negb (truthy (JSString (trim line))) || String.eqb line "data: [DONE]"
  then None
  else if strictEqString (getProp config "type") "ollama"
  then Parsed <$> JSON_parse line
  else data ← JSON_parse (replaceFirst "data: " "" line);
       content ← deltaContent data;
       Some (Delta content).

(** [streamChat]: everything it yields for the chunks of a response, each
    chunk split on its own. *)
Definition streamYields (config : Obj) (chunks : list string) : list StreamItem :=
  concat (map (λ chunk, omap (streamLine config) (splitLines chunk)) chunks).

End Streams.

End ClientRequests.

(** ** [AppRunner]: the input state and the form *)

Module AppForm.

(** [arr.filter(p)] for a callback that reads a field of the element:
    [None] is the [TypeError] of reading it on [undefined] or [null]. *)
Fixpoint filterNodes (p : JSValue → option bool) (elems : list JSValue)
  : option (list JSValue) :=
  match elems with
  | [] => Some []
  | node :: rest =>
      b ← p node;
      rest' ← filterNodes p rest;
      Some (if b : bool then node :: rest' else rest')
  end.

(** [node.type === 'textInputNode' || node.type === 'imageInputNode'] *)
Definition isInputNode (h : Heap) (node : JSValue) : option bool :=
  t ← getField h node "type";
  Some (strictEqString t "textInputNode" || strictEqString t "imageInputNode").

(** [node.type === 'textOutputNode' || node.type === 'markdownOutputNode'] *)
Definition isOutputNode (h : Heap) (node : JSValue) : option bool :=
  t ← getField h node "type";
  Some (strictEqString t "textOutputNode" || strictEqString t "markdownOutputNode").

(** [arr.includes(v)] compares with SameValueZero. *)
Definition sameValueZero (a b : JSValue) : bool :=
  match a, b with
  | JSUndefined, JSUndefined | JSNull, JSNull => true
  | JSBool x, JSBool y => Bool.eqb x y
  | JSNumber x, JSNumber y =>
      PrimFloat.eqb x y || (PrimFloat.is_nan x && PrimFloat.is_nan y)
  | JSString s, JSString t => String.eqb s t
  | JSRef l, JSRef k => Pos.eqb l k
  | _, _ => false
  end.

Definition includes (l : list JSValue) (v : JSValue) : bool :=
  existsb (sameValueZero v) l.

(** The three arrays of the structure analysis, as their elements. *)
Record Structure : Type := mkStructure {
  inputNodes : list JSValue;
  outputNodes : list JSValue;
  processingNodes : list JSValue
}.

(** The structure analysis of a loaded app, [elems] being the elements of
    [appData.nodes]. *)
Definition analyze (h : Heap) (elems : list JSValue) : option Structure :=
  inputs ← filterNodes (isInputNode h) elems;
  outputs ← filterNodes (isOutputNode h) elems;
  let processing :=
    filter (λ node, negb (includes inputs node) && negb (includes outputs node) = true)
           elems in
  Some (mkStructure inputs outputs processing).

(** [loadApp]: [inputNodes.reduce((acc, node) => { acc[node.id] = ''; return acc }, {})] *)
Fixpoint reduceInputs (h : Heap) (acc : Obj) (nodes : list JSValue) : option Obj :=
  match nodes with
  | [] => Some acc
  | node :: rest =>
      idv ← getField h node "id";
      key ← AppRunner.propertyKey idv;
      acc' ← assignProp acc key (JSString "");
      reduceInputs h acc' rest
  end.

Definition initialInputs (h : Heap) (elems : list JSValue) : option Obj :=
  inputs ← filterNodes (isInputNode h) elems;
  reduceInputs h ∅ inputs.

(** [handleInputChange]: [setInputState(prev => ({...prev, [nodeId]: value}))],
    acting on the [inputState] object. *)
Definition handleInputChange (nodeId : string) (value : JSValue) (prev : Obj) : Obj :=
  spreadInto (spreadInto ∅ prev) {[ nodeId := value ]}.

(** [inputNodes.find(n => n.id === nodeId)]: the first such node, if any. *)
Fixpoint findById (h : Heap) (nodeId : string) (nodes : list JSValue)
  : option (option JSValue) :=
  match nodes with
  | [] => Some None
  | n :: rest =>
      idv ← getField h n "id";
      if strictEqString idv nodeId then Some (Some n) else findById h nodeId rest
  end.

(** [arr.every(p)]: stops at the first element that fails. *)
Fixpoint every {A} (p : A → option bool) (l : list A) : option bool :=
  match l with
  | [] => Some true
  | x :: rest => b ← p x; if b : bool then every p rest else Some false
  end.

Section Form.

(** The host's [String.prototype.trim], and which heap objects are
    instances of [File]. *)
Variable trim : string → string.
Variable isFile : loc → bool.

Definition instanceofFile (v : JSValue) : bool :=
  match v with JSRef l => isFile l | _ => false end.

(** The callback of [Object.entries(inputState).every]. *)
Definition entryComplete (h : Heap) (inputNodes : list JSValue)
    (entry : string * JSValue) : option bool :=
  let '(nodeId, value) := entry in
  found ← findById h nodeId inputNodes;
  match found with
  | None => Some true
  | Some node =>
      t ← getField h node "type";
      if strictEqString t "textInputNode"
      then Some (match value with
                 | JSString s => negb (String.eqb (trim s) "")
                 | _ => false
                 end)
      else if strictEqString t "imageInputNode"
      then Some (instanceofFile value)
      else Some true
  end.

(** [isFormComplete].  The entries are visited in the order of the map;
    the order only matters for which of several failing entries stops the
    traversal. *)
Definition isFormComplete (h : Heap) (inputNodes : list JSValue)
    (inputState : Obj) : option bool :=
  if length inputNodes =? 0 then Some true
  else every (entryComplete h inputNodes) (map_to_list inputState).

End Form.

End AppForm.

(** * Properties *)

(** ** The executor of [imageDescriptionOutputNode] *)

Module ExecutorFacts.

Import ImageDescriptionOutput.

(** The falsy values, one by one. *)
Lemma truthy_false (v : JSValue) :
  truthy v = false ↔
  v = JSUndefined ∨ v = JSNull ∨ v = JSBool false ∨ v = JSString ""
  ∨ ∃ x, v = JSNumber x ∧ (PrimFloat.eqb x 0 = true ∨ PrimFloat.is_nan x = true).
Proof.
  destruct v as [| |b|x|s|l]; simpl.
  - split; [by left|done].
  - split; [by right; left|done].
  - split; [intros ->; by right; right; left|].
    intros [H|[H|[H|[H|(y & H & _)]]]]; by simplify_eq.
  - rewrite negb_false_iff, orb_true_iff. split.
    + intros H. do 4 right. by exists x.
    + intros [H|[H|[H|[H|(y & [= <-] & H)]]]]; done.
  - rewrite negb_false_iff. split.
    + intros ->%String.eqb_eq. by right; right; right; left.
    + intros [H|[H|[H|[H|(y & H & _)]]]]; by simplify_eq.
  - split; [done|].
    intros [H|[H|[H|[H|(y & H & _)]]]]; by simplify_eq.
Qed.

Section Facts.

Variable JSON_stringify : JSValue → string + JSValue.
Context {St : Type}.

Lemma renderOutput_string s :
  renderOutput JSON_stringify (JSString s) = inr (JSString s).
Proof. reflexivity. Qed.

Lemma renderOutput_cases v :
  renderOutput JSON_stringify v =
  match v with JSString _ => inr v | _ => JSON_stringify v end.
Proof. by destruct v. Qed.

(** The [||] chain of the source picks the first truthy value. *)
Lemma resolveInput_aliasChain (inputs : Obj) :
  resolveInput inputs = aliasChain truthy inputs.
Proof.
  unfold resolveInput, aliasChain, getProp, js_or. simpl.
  destruct (inputs !! "text") as [a|], (inputs !! "text-in") as [b|],
    (inputs !! "default") as [c|]; simpl;
    rewrite ?filter_cons, ?filter_nil;
    repeat (case_decide; simplify_eq/=);
    repeat match goal with
    | H : truthy _ ≠ true |- _ => apply not_true_is_false in H
    end;
    repeat first
      [ progress simpl
      | match goal with
        | H : truthy ?x = _ |- context [truthy ?x] => rewrite H
        end ]; done.
Qed.

Lemma execute_value (context : NodeExecutionContext St) (s : St) :
  (executeImageDescriptionOutput JSON_stringify context s).1 =
  renderOutput JSON_stringify (resolveInput (inputs context)).
Proof.
  unfold executeImageDescriptionOutput.
  destruct (renderOutput _ _); [done|].
  by destruct (updateNodeOutput context).
Qed.

(** With a callback in the context, a run that returns is one call of it,
    on the node's id and the returned value. *)
Lemma execute_with_callback (context : NodeExecutionContext St)
    (callback : UpdateCallback St) (s : St) (v : JSValue) :
  updateNodeOutput context = Some callback →
  renderOutput JSON_stringify (resolveInput (inputs context)) = inr v →
  execute JSON_stringify context s = (inr v, callback (id (node context)) v s).
Proof.
  intros Hcb Hv. unfold execute, executeImageDescriptionOutput. by rewrite Hv, Hcb.
Qed.

Lemma execute_without_callback (context : NodeExecutionContext St) (s : St) :
  updateNodeOutput context = None →
  execute JSON_stringify context s =
  (renderOutput JSON_stringify (resolveInput (inputs context)), s).
Proof.
  intros Hcb. unfold execute, executeImageDescriptionOutput. rewrite Hcb.
  by destruct (renderOutput _ _).
Qed.

(** A run in which [JSON.stringify] throws leaves the state as it was:
    the callback is not called. *)
Lemma execute_throws (context : NodeExecutionContext St) (s : St) (error : string) :
  renderOutput JSON_stringify (resolveInput (inputs context)) = inl error →
  execute JSON_stringify context s = (inl error, s).
Proof.
  intros Hv. unfold execute, executeImageDescriptionOutput. by rewrite Hv.
Qed.

End Facts.

(** With the callback of [AppRunner], the returned value ends up under the
    node's id in [outputState], the other entries being kept. *)
Lemma updateNodeOutput_insert (nodeId : string) (output : JSValue) (prev : Obj) :
  AppRunner.updateNodeOutput nodeId output prev = <[nodeId := output]> prev.
Proof.
  unfold AppRunner.updateNodeOutput, spreadInto.
  by rewrite (right_id_L ∅ (∪)), insert_union_singleton_l.
Qed.

Lemma execute_updates_outputState (JSON_stringify : JSValue → string + JSValue)
    (nd : FlowNode) (inputs prev : Obj) (v : JSValue) :
  let r := executeImageDescriptionOutput JSON_stringify
             (mkContext nd inputs (Some AppRunner.updateNodeOutput)) prev in
  r.1 = inr v → r.2 = <[id nd := v]> prev.
Proof.
  unfold executeImageDescriptionOutput. simpl.
  destruct (renderOutput _ _) as [e|w]; [done|]. simpl.
  intros [= ->]. apply updateNodeOutput_insert.
Qed.

(** C3 as stated (a key counts when it is present) fails on the source:
    with an empty string under ["text"] and ["x"] under ["text-in"], the
    chain over present keys yields the empty string, the executor returns
    ["x"]. *)
Lemma alias_chain_presence_counterexample :
  let inputs : Obj := <["text" := JSString ""]> (<["text-in" := JSString "x"]> ∅) in
  let context : NodeExecutionContext unit := mkContext (mkNode "n" "imageDescriptionOutputNode" ∅) inputs None in
  aliasChain (λ _, true) inputs = JSString ""
  ∧ (executeImageDescriptionOutput inr context tt).1 = inr (JSString "x")
  ∧ JSString "x" ≠ JSString "".
Proof. repeat split; [vm_compute; reflexivity..|discriminate]. Qed.

(** C3 (amended): for every inputs map the executor uses the first truthy
    value among the keys ["text"], ["text-in"], ["default"], and the empty
    string when none of them holds a truthy value; the resolution raises
    no error.  The executor returns that value unchanged when it is a
    string; otherwise its result is that of [JSON.stringify] on the value:
    the serialization returned, or the failure with the error it throws,
    in which case the state is left as it was. *)
Theorem alias_chain_first_truthy (JSON_stringify : JSValue → string + JSValue)
    (St : Type) (context : NodeExecutionContext St) (s : St) :
  (executeImageDescriptionOutput JSON_stringify context s).1 =
  match aliasChain truthy (inputs context) with
  | JSString str => inr (JSString str)
  | v => JSON_stringify v
  end
  ∧ ∀ error, (executeImageDescriptionOutput JSON_stringify context s).1 = inl error →
             (executeImageDescriptionOutput JSON_stringify context s).2 = s.
Proof.
  split.
  - rewrite execute_value, resolveInput_aliasChain, renderOutput_cases.
    by destruct (aliasChain truthy (inputs context)).
  - intros error. rewrite execute_value. intros Hv.
    pose proof (execute_throws JSON_stringify context s error Hv) as E.
    unfold execute in E. by rewrite E.
Qed.

(** C9: the alias resolution skips falsy values, not only absent keys:
    when [inputs["text"]] is the empty string, the executor returns the
    non-empty string [str] found under [inputs["text-in"]], and its whole
    behaviour is the one it has when the key ["text"] is absent. *)
Theorem empty_text_falls_through (JSON_stringify : JSValue → string + JSValue)
    (St : Type) (nd : FlowNode) (inputs : Obj)
    (callback : option (UpdateCallback St)) (s : St) :
  inputs !! "text" = Some (JSString "") →
  (∀ str, inputs !! "text-in" = Some (JSString str) → str ≠ "" →
     (executeImageDescriptionOutput JSON_stringify
        (mkContext nd inputs callback) s).1 = inr (JSString str))
  ∧ executeImageDescriptionOutput JSON_stringify (mkContext nd inputs callback) s
    = executeImageDescriptionOutput JSON_stringify
        (mkContext nd (delete "text" inputs) callback) s.
Proof.
  intros Htext. split.
  - intros str Hin Hne.
    assert (Ht : truthy (JSString str) = true).
    { simpl. by destruct (String.eqb_spec str ""). }
    rewrite execute_value. simpl.
    unfold resolveInput, getProp. rewrite Htext, Hin. simpl.
    unfold js_or at 3. simpl. unfold js_or at 2. rewrite Ht.
    unfold js_or. by rewrite Ht.
  - assert (Hdel : resolveInput (delete "text" inputs) = resolveInput inputs).
    { unfold resolveInput, getProp.
      rewrite lookup_delete_eq, !lookup_delete_ne, Htext by done. reflexivity. }
    unfold executeImageDescriptionOutput. simpl. by rewrite Hdel.
Qed.

Lemma empty_text_falls_through_witness :
  let inputs : Obj := <["text" := JSString ""]> (<["text-in" := JSString "a cat"]> ∅) in
  let nd := mkNode "out" "imageDescriptionOutputNode" ∅ in
  (executeImageDescriptionOutput inr
     (mkContext nd inputs (None : option (UpdateCallback unit))) tt).1
  = inr (JSString "a cat")
  ∧ executeImageDescriptionOutput inr (mkContext nd inputs None) tt
    = executeImageDescriptionOutput inr (mkContext nd (delete "text" inputs) None) tt.
Proof.
  destruct (empty_text_falls_through inr unit
              (mkNode "out" "imageDescriptionOutputNode" ∅)
              (<["text" := JSString ""]> (<["text-in" := JSString "a cat"]> ∅))
              None tt) as [Hvalue Hsame]; [reflexivity|].
  split; [|exact Hsame].
  apply Hvalue; [reflexivity|discriminate].
Defined.

End ExecutorFacts.

(** ** Heap allocation and mutation *)

Module HeapFacts.

Lemma alloc_spec (h h' : Heap) (c : Cell) (l : loc) :
  alloc h c = (l, h') → h !! l = None ∧ h' = <[l := c]> h.
Proof.
  unfold alloc. intros [= <- <-]. split; [|done].
  apply not_elem_of_dom, is_fresh.
Qed.

Lemma alloc_extends (h h' : Heap) (c : Cell) (l : loc) :
  alloc h c = (l, h') → h ⊆ h' ∧ h !! l = None ∧ h' !! l = Some c.
Proof.
  intros [Hnone ->]%alloc_spec. split_and!; [|done|].
  - by apply insert_subseteq.
  - apply lookup_insert_eq.
Qed.

Lemma applyMutation_other (r l : loc) (h : Heap) (m : Mutation) :
  l ≠ r → applyMutation r h m !! l = h !! l.
Proof.
  intros Hne. unfold applyMutation.
  destruct (h !! r) as [[o|a]|]; [|done..].
  by rewrite lookup_insert_ne.
Qed.

Lemma mutate_other (r l : loc) (ms : list Mutation) (h : Heap) :
  l ≠ r → mutate r h ms !! l = h !! l.
Proof.
  intros Hne. unfold mutate. revert h.
  induction ms as [|m ms IH]; intros h; [done|].
  simpl. rewrite IH. by apply applyMutation_other.
Qed.

Lemma extends_fresh (h0 h : Heap) (l : loc) :
  h0 ⊆ h → h !! l = None → h0 !! l = None.
Proof.
  intros Hsub Hnone. destruct (h0 !! l) as [c|] eqn:Hl; [|done].
  eapply lookup_weaken in Hl; [|done]. congruence.
Qed.

End HeapFacts.

(** ** [OllamaClient.getConfig] *)

Module ClientFacts.

Import OllamaClient HeapFacts.

(** [this] is a client whose [config] field refers to the object [cfg] at
    location [lc]. *)
Definition isClient (h : Heap) (this lc : loc) (cfg : Obj) : Prop :=
  ∃ o, h !! this = Some (CObj o) ∧ o !! "config" = Some (JSRef lc)
       ∧ h !! lc = Some (CObj cfg).

Lemma isClient_configOf h this lc cfg :
  isClient h this lc cfg → configOf h this = JSRef lc.
Proof.
  intros (o & Hthis & Hcfg & _). unfold configOf, getField, getProp.
  by rewrite Hthis, Hcfg.
Qed.

Lemma getConfig_spec h this lc cfg :
  isClient h this lc cfg →
  ∃ r, getConfig h this = (r, <[r := CObj cfg]> h) ∧ h !! r = None.
Proof.
  intros Hc. pose proof Hc as (o & Hthis & Hcfg & Hlc).
  unfold getConfig. rewrite (isClient_configOf _ _ _ _ Hc). simpl. rewrite Hlc.
  unfold spreadInto. rewrite (right_id_L ∅ (∪)).
  destruct (alloc h (CObj cfg)) as [r h'] eqn:Ha.
  apply alloc_spec in Ha as [Hnone ->]. eauto.
Qed.

Lemma isClient_other_cells h h' this lc cfg :
  h' !! this = h !! this → h' !! lc = h !! lc →
  isClient h this lc cfg → isClient h' this lc cfg.
Proof.
  intros Hthis Hlc (o & ? & ? & ?). exists o. by rewrite Hthis, Hlc.
Qed.

(** The constructor leaves a client. *)
Lemma constructor_isClient h baseUrl config this h' :
  constructor h baseUrl config = (this, h') →
  ∃ lc cfg, isClient h' this lc cfg ∧ cfg !! "baseUrl" = Some baseUrl.
Proof.
  unfold constructor.
  destruct (alloc h _) as [t h1] eqn:H1.
  destruct (alloc h1 _) as [lc h2] eqn:H2.
  intros [= <- <-].
  apply alloc_extends in H1 as (_ & _ & Ht).
  apply alloc_extends in H2 as (Hsub & Hnone & Hlc).
  pose proof (lookup_weaken _ _ _ _ Ht Hsub) as Ht2.
  assert (t ≠ lc) by congruence.
  eexists lc, _. split.
  - unfold applyMutation. rewrite Ht2.
    eexists. rewrite lookup_insert_eq. split; [done|]. split.
    + apply lookup_insert_eq.
    + rewrite lookup_insert_ne by done. exact Hlc.
  - rewrite lookup_insert_ne by done. apply lookup_insert_eq.
Qed.

(** C10: [getConfig] returns a new object holding the configuration's
    properties; whatever assignments and deletions are then made on the
    returned object, the client's stored configuration is unchanged and a
    later [getConfig] returns the same properties again. *)
Theorem getConfig_returns_copy (h : Heap) (this lc : loc) (cfg : Obj)
    (ms : list Mutation) :
  isClient h this lc cfg →
  let '(r, h1) := getConfig h this in
  let h2 := mutate r h1 ms in
  let '(r', h3) := getConfig h2 this in
  h !! r = None ∧ r ≠ lc ∧ r ≠ this
  ∧ h1 !! r = Some (CObj cfg)
  ∧ isClient h2 this lc cfg
  ∧ h2 !! lc = h !! lc
  ∧ h3 !! r' = Some (CObj cfg).
Proof.
  intros Hc. pose proof Hc as (o & Hthis & Hcfg & Hlc).
  destruct (getConfig_spec _ _ _ _ Hc) as (r & -> & Hr). cbv zeta.
  assert (r ≠ lc) by congruence. assert (r ≠ this) by congruence.
  assert (Hc2 : isClient (mutate r (<[r := CObj cfg]> h) ms) this lc cfg).
  { eapply isClient_other_cells; [| |exact Hc].
    - rewrite mutate_other by done. by rewrite lookup_insert_ne.
    - rewrite mutate_other by done. by rewrite lookup_insert_ne. }
  destruct (getConfig_spec _ _ _ _ Hc2) as (r' & -> & Hr').
  split_and!; try done.
  - apply lookup_insert_eq.
  - rewrite mutate_other by done. by rewrite lookup_insert_ne.
  - apply lookup_insert_eq.
Qed.

Lemma getConfig_returns_copy_witness :
  let '(this, h) := constructor ∅ (JSString "http://localhost:11434") JSUndefined in
  let cfg : Obj :=
    <["apiKey" := JSString ""]>
    (<["baseUrl" := JSString "http://localhost:11434"]>
    (<["type" := JSString "ollama"]> ∅)) in
  let ms := [SetProp "baseUrl" (JSString "http://evil"); DeleteProp "type"] in
  let '(r, h1) := getConfig h this in
  let h2 := mutate r h1 ms in
  let '(r', h3) := getConfig h2 this in
  h !! r = None ∧ r ≠ 2%positive ∧ r ≠ this
  ∧ h1 !! r = Some (CObj cfg)
  ∧ isClient h2 this 2%positive cfg
  ∧ h2 !! 2%positive = h !! 2%positive
  ∧ h3 !! r' = Some (CObj cfg).
Proof.
  apply (getConfig_returns_copy
           (constructor ∅ (JSString "http://localhost:11434") JSUndefined).2
           (constructor ∅ (JSString "http://localhost:11434") JSUndefined).1
           2%positive
           (<["apiKey" := JSString ""]>
            (<["baseUrl" := JSString "http://localhost:11434"]>
            (<["type" := JSString "ollama"]> ∅)))
           [SetProp "baseUrl" (JSString "http://evil"); DeleteProp "type"]).
  eexists. split_and!; vm_compute; reflexivity.
Defined.

End ClientFacts.

(** ** [runApp]: the runtime-input overlay *)

Module OverlayFacts.

Import AppRunner HeapFacts.

(** What [o[k]] yields for a key known at run time: the own property,
    else the inherited member, else [undefined]. *)
Inductive reads (builtin : string → loc) (o : Obj) (k : string) : JSValue → Prop :=
| reads_own v : o !! k = Some v → reads builtin o k v
| reads_inherited :
    o !! k = None → k ∈ objectPrototypeKeys → reads builtin o k (JSRef (builtin k))
| reads_absent :
    o !! k = None → k ∉ objectPrototypeKeys → reads builtin o k JSUndefined.

Lemma readProp_reads builtin o k : reads builtin o k (readProp builtin o k).
Proof.
  unfold readProp. destruct (o !! k) as [v|] eqn:Hk; [by constructor|].
  case_bool_decide; by constructor.
Qed.

Lemma reads_functional builtin o k v w :
  reads builtin o k v → reads builtin o k w → v = w.
Proof. intros [] []; congruence. Qed.

Lemma reads_readProp builtin o k v : reads builtin o k v ↔ readProp builtin o k = v.
Proof.
  split.
  - intros H. exact (reads_functional _ _ _ _ _ (readProp_reads builtin o k) H).
  - intros <-. apply readProp_reads.
Qed.

Lemma isDefined_true v : isDefined v = true ↔ v ≠ JSUndefined.
Proof. by destruct v. Qed.

Lemma isDefined_false v : isDefined v = false ↔ v = JSUndefined.
Proof. by destruct v. Qed.

(** The properties a [config] spreads into the new one: those of the
    object it refers to, none when it is absent, [undefined], [null], a
    boolean or a number. *)
Definition configProps (h : Heap) (d : Obj) (base : Obj) : Prop :=
  match d !! "config" with
  | Some (JSRef lc) => h !! lc = Some (CObj base)
  | Some (JSString _) => False
  | _ => base = ∅
  end.

(** A node of the stored app: an object with a string [id] whose [data]
    is an object, the [config] of which is an object if it is one at
    all. *)
Definition wellFormedNode (h : Heap) (node : JSValue) : Prop :=
  ∃ ln o i ld d base,
    node = JSRef ln ∧ h !! ln = Some (CObj o) ∧ o !! "id" = Some (JSString i)
    ∧ o !! "data" = Some (JSRef ld) ∧ h !! ld = Some (CObj d)
    ∧ configProps h d base.

(** The new configuration [cfg] of a node of type [t] for the value [v],
    over the properties [base] of the stored one. *)
Definition merged (t : option JSValue) (v : JSValue) (base cfg : Obj) : Prop :=
  (t = Some (JSString "textInputNode") → cfg = <["inputText" := v]> base)
  ∧ (t = Some (JSString "imageInputNode") → cfg = <["imageData" := v]> base)
  ∧ (t ≠ Some (JSString "textInputNode") → t ≠ Some (JSString "imageInputNode") →
     cfg = base).

Section Overlay.

Variable builtin : string → loc.

(** How an element [node'] of the new array relates to the element [node]
    of the stored one: the same reference when [inputState[node.id]] is
    [undefined], and otherwise a reference to three objects that are new
    with respect to the heap [h] before the overlay: a node with the
    stored node's properties and the new [data], a data object with the
    stored one's properties and the new [config], and the merged
    config. *)
Definition overlaid (inputState : Obj) (h h' : Heap) (node node' : JSValue) : Prop :=
  ∃ ln o i v,
    node = JSRef ln ∧ h !! ln = Some (CObj o) ∧ o !! "id" = Some (JSString i)
    ∧ reads builtin inputState i v
    ∧ ((v = JSUndefined ∧ node' = node)
       ∨ (v ≠ JSUndefined
          ∧ ∃ ln' ld' lc' ld d base cfg,
              node' = JSRef ln'
              ∧ h !! ln' = None ∧ h !! ld' = None ∧ h !! lc' = None
              ∧ o !! "data" = Some (JSRef ld) ∧ h !! ld = Some (CObj d)
              ∧ configProps h d base
              ∧ h' !! ln' = Some (CObj (<["data" := JSRef ld']> o))
              ∧ h' !! ld' = Some (CObj (<["config" := JSRef lc']> d))
              ∧ h' !! lc' = Some (CObj cfg)
              ∧ merged (o !! "type") v base cfg)).

Lemma overlaid_extends inputState h h' h'' node node' :
  h' ⊆ h'' → overlaid inputState h h' node node' →
  overlaid inputState h h'' node node'.
Proof.
  intros Hsub (ln & o & i & v & -> & Hln & Hid & Hv & Hrest).
  exists ln, o, i, v. split_and!; try done.
  destruct Hrest as [?|[Hne Hrest]]; [by left|right]. split; [done|].
  destruct Hrest
    as (ln' & ld' & lc' & ld & d & base & cfg & -> & ? & ? & ? & ? & ? & ? & H1 & H2 & H3 & ?).
  exists ln', ld', lc', ld, d, base, cfg.
  split_and!; try done; by eapply lookup_weaken.
Qed.

Lemma configProps_spread h0 h d base :
  h0 ⊆ h → configProps h0 d base → spreadProps h (getProp d "config") = base.
Proof.
  unfold configProps, getProp. intros Hsub.
  destruct (d !! "config") as [[| |b|x|s|lc]|]; simpl; try done.
  intros Hlc. by rewrite (lookup_weaken _ _ _ _ Hlc Hsub).
Qed.

Lemma merged_spreads (typev : JSValue) (t : option JSValue) (v : JSValue) (base : Obj) :
  typev = default JSUndefined t →
  merged t v base
    (spreadInto
       (spreadInto (spreadInto ∅ base)
          (if strictEqString typev "textInputNode" then {["inputText" := v]} else ∅))
       (if strictEqString typev "imageInputNode" then {["imageData" := v]} else ∅)).
Proof.
  intros ->. unfold merged, spreadInto. rewrite (right_id_L ∅ (∪)). split_and!.
  - intros ->. simpl. by rewrite (left_id_L ∅ (∪)), insert_union_singleton_l.
  - intros ->. simpl. by rewrite (left_id_L ∅ (∪)), insert_union_singleton_l.
  - intros Htext Himage.
    assert (Ht : strictEqString (default JSUndefined t) "textInputNode" = false).
    { destruct t as [[| |b|x|s|l]|]; simpl; try done.
      apply String.eqb_neq. congruence. }
    assert (Hi : strictEqString (default JSUndefined t) "imageInputNode" = false).
    { destruct t as [[| |b|x|s|l]|]; simpl; try done.
      apply String.eqb_neq. congruence. }
    rewrite Ht, Hi. by rewrite !(left_id_L ∅ (∪)).
Qed.

Lemma overlayNode_spec inputState h0 h node :
  h0 ⊆ h → wellFormedNode h0 node →
  ∃ node' h', overlayNode builtin inputState h node = Some (node', h')
              ∧ h ⊆ h' ∧ overlaid inputState h0 h' node node'.
Proof.
  intros Hsub (ln & o & i & ld & d & base & -> & Hln & Hid & Hdata & Hld & Hcfg).
  pose proof (lookup_weaken _ _ _ _ Hln Hsub) as Hln'.
  pose proof (lookup_weaken _ _ _ _ Hld Hsub) as Hld'.
  assert (Gid : getProp o "id" = JSString i) by (unfold getProp; by rewrite Hid).
  assert (Gdata : getProp o "data" = JSRef ld) by (unfold getProp; by rewrite Hdata).
  unfold overlayNode. cbn [getField]. rewrite Hln'. cbn [mbind option_bind].
  rewrite Gid, Gdata. cbn [default propertyKey mbind option_bind getField].
  pose proof (readProp_reads builtin inputState i) as Hreads.
  destruct (isDefined (readProp builtin inputState i)) eqn:Hdef.
  - apply isDefined_true in Hdef.
    rewrite Hld'. cbn [mbind option_bind].
    rewrite (configProps_spread h0 h d base Hsub Hcfg).
    destruct (alloc h _) as [lc h1] eqn:H1.
    destruct (alloc h1 _) as [ld' h2] eqn:H2.
    destruct (alloc h2 _) as [ln' h3] eqn:H3.
    apply alloc_extends in H1 as (S1 & N1 & L1).
    apply alloc_extends in H2 as (S2 & N2 & L2).
    apply alloc_extends in H3 as (S3 & N3 & L3).
    assert (Hs12 : h ⊆ h2) by (by trans h1).
    assert (Hs02 : h0 ⊆ h2) by (by trans h).
    eexists _, _. split; [done|]. split; [by trans h2|].
    exists ln, o, i, (readProp builtin inputState i). split_and!; try done.
    right. split; [done|].
    eexists ln', ld', lc, ld, d, base, _. split_and!; try done.
    + exact (extends_fresh _ _ _ Hs02 N3).
    + refine (extends_fresh _ _ _ _ N2). by trans h.
    + exact (extends_fresh _ _ _ Hsub N1).
    + rewrite L3. do 2 f_equal. unfold spreadInto.
      rewrite (right_id_L ∅ (∪)). simpl.
      by rewrite (lookup_weaken _ _ _ _ Hln Hs02).
    + apply (lookup_weaken _ _ _ _ L2) in S3. rewrite S3. do 2 f_equal.
      unfold spreadInto. rewrite (right_id_L ∅ (∪)). simpl.
      by rewrite (lookup_weaken _ _ _ _ Hld' S1).
    + eapply lookup_weaken; [exact L1|]. by trans h2.
    + by apply merged_spreads.
  - apply isDefined_false in Hdef.
    eexists _, _. split; [done|]. split; [done|].
    exists ln, o, i, (readProp builtin inputState i). split_and!; try done.
    by left.
Qed.

Lemma mapNodes_spec inputState h0 elems :
  ∀ h, h0 ⊆ h → Forall (wellFormedNode h0) elems →
  ∃ elems' h', mapNodes builtin inputState h elems = Some (elems', h')
               ∧ h ⊆ h' ∧ Forall2 (overlaid inputState h0 h') elems elems'.
Proof.
  induction elems as [|node rest IH]; intros h Hsub Hwf.
  - exists [], h. by split_and!.
  - apply Forall_cons in Hwf as [Hnode Hrest].
    destruct (overlayNode_spec inputState h0 h node Hsub Hnode)
      as (node' & h1 & E1 & S1 & O1).
    destruct (IH h1 (transitivity Hsub S1) Hrest) as (rest' & h2 & E2 & S2 & O2).
    exists (node' :: rest'), h2. simpl. rewrite E1. simpl. rewrite E2. simpl.
    split_and!; [done|by trans h1|].
    constructor; [by eapply overlaid_extends|done].
Qed.

End Overlay.

(** C7: on the stored nodes of an app, [nodesWithInputs] is a new array;
    each node for which [inputState[node.id]] is not [undefined] is
    replaced in it by a new node object, with a new [data] object and a
    new [config] object holding the stored config's properties and the
    value under [inputText] (text input nodes) or [imageData] (image input
    nodes); any other node is the stored reference.  Every cell of the
    heap before the overlay, the original array and the original node,
    data and config objects among them, is the same afterwards. *)
Theorem overlay_fresh_snapshot (builtin : string → loc) (h : Heap) (la : loc)
    (elems : list JSValue) (inputState : Obj) :
  h !! la = Some (CArr elems) →
  Forall (wellFormedNode h) elems →
  ∃ la' elems' h',
    nodesWithInputs builtin h (JSRef la) inputState = Some (JSRef la', h')
    ∧ (∀ l c, h !! l = Some c → h' !! l = Some c)
    ∧ h !! la' = None
    ∧ h' !! la' = Some (CArr elems')
    ∧ Forall2 (overlaid builtin inputState h h') elems elems'.
Proof.
  intros Hla Hwf.
  destruct (mapNodes_spec builtin inputState h elems h (reflexivity h) Hwf)
    as (elems' & h1 & E & S1 & O).
  unfold nodesWithInputs. rewrite Hla, E. cbn [mbind option_bind].
  destruct (alloc h1 (CArr elems')) as [la' h2] eqn:Ha.
  apply alloc_extends in Ha as (S2 & N2 & L2).
  exists la', elems', h2. split_and!; [done| | |done|].
  - intros l c Hl. eapply lookup_weaken; [exact Hl|]. by trans h1.
  - exact (extends_fresh _ _ _ S1 N2).
  - eapply Forall2_impl; [exact O|]. intros ??. by apply overlaid_extends.
Qed.

(** An app with a text input node (id ["in"]) and an output node, and the
    user's text ["hello"]. *)
Definition sampleHeap : Heap :=
  <[1%positive := CArr [JSRef 2%positive; JSRef 5%positive]]>
  (<[2%positive := CObj (<["id" := JSString "in"]>
                        (<["type" := JSString "textInputNode"]>
                        (<["data" := JSRef 3%positive]> ∅)))]>
  (<[3%positive := CObj (<["label" := JSString "Prompt"]>
                        (<["config" := JSRef 4%positive]> ∅))]>
  (<[4%positive := CObj (<["inputText" := JSString ""]> ∅)]>
  (<[5%positive := CObj (<["id" := JSString "out"]>
                        (<["type" := JSString "textOutputNode"]>
                        (<["data" := JSRef 6%positive]> ∅)))]>
  (<[6%positive := CObj ∅]> ∅))))).

Definition sampleInputState : Obj := <["in" := JSString "hello"]> ∅.

(** The built-in objects, away from the sample's cells. *)
Definition sampleBuiltin (k : string) : loc := 100%positive.

Lemma sample_wellFormed :
  Forall (wellFormedNode sampleHeap) [JSRef 2%positive; JSRef 5%positive].
Proof.
  repeat constructor.
  - exists 2%positive, (<["id" := JSString "in"]>
                      (<["type" := JSString "textInputNode"]>
                      (<["data" := JSRef 3%positive]> ∅))), "in", 3%positive,
      (<["label" := JSString "Prompt"]> (<["config" := JSRef 4%positive]> ∅)),
      (<["inputText" := JSString ""]> ∅).
    split_and!; reflexivity.
  - exists 5%positive, (<["id" := JSString "out"]>
                      (<["type" := JSString "textOutputNode"]>
                      (<["data" := JSRef 6%positive]> ∅))), "out", 6%positive, ∅, ∅.
    split_and!; reflexivity.
Qed.

Lemma overlay_fresh_snapshot_witness :
  ∃ la' elems' h',
    nodesWithInputs sampleBuiltin sampleHeap (JSRef 1%positive) sampleInputState
      = Some (JSRef la', h')
    ∧ (∀ l c, sampleHeap !! l = Some c → h' !! l = Some c)
    ∧ sampleHeap !! la' = None
    ∧ h' !! la' = Some (CArr elems')
    ∧ Forall2 (overlaid sampleBuiltin sampleInputState sampleHeap h')
        [JSRef 2%positive; JSRef 5%positive] elems'.
Proof.
  apply (overlay_fresh_snapshot sampleBuiltin sampleHeap 1%positive
           [JSRef 2%positive; JSRef 5%positive] sampleInputState).
  - reflexivity.
  - exact sample_wellFormed.
Defined.

(** The run of the sample: the input node is rebuilt at three new
    locations with the user's text, the output node is the stored one. *)
Lemma sample_overlay :
  ∃ h', nodesWithInputs sampleBuiltin sampleHeap (JSRef 1%positive) sampleInputState
        = Some (JSRef 10%positive, h')
        ∧ h' !! 10%positive = Some (CArr [JSRef 9%positive; JSRef 5%positive])
        ∧ h' !! 9%positive
          = Some (CObj (<["id" := JSString "in"]>
                       (<["type" := JSString "textInputNode"]>
                       (<["data" := JSRef 8%positive]> ∅))))
        ∧ h' !! 8%positive
          = Some (CObj (<["label" := JSString "Prompt"]>
                       (<["config" := JSRef 7%positive]> ∅)))
        ∧ h' !! 7%positive = Some (CObj (<["inputText" := JSString "hello"]> ∅)).
Proof. eexists. split_and!; vm_compute; reflexivity. Qed.

(** An input state without own entries still yields the inherited member
    under a key such as ["constructor"], so a node of that id is
    rebuilt. *)
Lemma inherited_key_overlay :
  let h : Heap :=
    <[1%positive := CObj (<["id" := JSString "constructor"]>
                         (<["type" := JSString "textInputNode"]>
                         (<["data" := JSRef 2%positive]> ∅)))]>
    (<[2%positive := CObj ∅]> ∅) in
  ∃ h', overlayNode sampleBuiltin ∅ h (JSRef 1%positive) = Some (JSRef 5%positive, h')
        ∧ h' !! 3%positive
          = Some (CObj (<["inputText" := JSRef 100%positive]> ∅)).
Proof. eexists. split; vm_compute; reflexivity. Qed.

End OverlayFacts.

(** ** The plan builder *)

Module PlanFacts.

Import ExecutionEngine.

(** [b] depends on [a]: some edge leads from [a] to [b]. *)
Definition depends (edges : list Edge) (a b : string) : Prop :=
  ∃ e, e ∈ edges ∧ source e = a ∧ target e = b.

Definition acyclic (edges : list Edge) : Prop :=
  ∀ n, ¬ tc (depends edges) n n.

(** A graph of the data model: node ids are unique and every edge joins
    two of the nodes. *)
Definition wellFormedGraph (nodes : list FlowNode) (edges : list Edge) : Prop :=
  NoDup (map id nodes)
  ∧ ∀ e, e ∈ edges → source e ∈ map id nodes ∧ target e ∈ map id nodes.

(** The number of edges into [t] whose source is still among [remaining]. *)
Definition pendingIn (edges : list Edge) (remaining : list string) (t : string) : nat :=
  length (filter (λ e, target e = t ∧ source e ∈ remaining) edges).

(** The loop invariant of [waves]. *)
Definition counted (edges : list Edge) (remaining : list string)
    (indeg : gmap string nat) : Prop :=
  ∀ t, t ∈ remaining → indeg !! t = Some (pendingIn edges remaining t).

(** *** Counting *)

Lemma length_filter_split {A} (P Q : A → Prop) `{!∀ x, Decision (P x)}
    `{!∀ x, Decision (Q x)} (l : list A) :
  length (filter P l) =
  length (filter (λ x, P x ∧ Q x) l) + length (filter (λ x, P x ∧ ¬ Q x) l).
Proof.
  induction l as [|x l IH]; [done|].
  rewrite !filter_cons.
  destruct (decide (P x)), (decide (Q x));
    repeat (case_decide; try tauto); simpl; lia.
Qed.

Lemma filter_ext_in {A} (P Q : A → Prop) `{!∀ x, Decision (P x)}
    `{!∀ x, Decision (Q x)} (l : list A) :
  (∀ x, x ∈ l → P x ↔ Q x) → filter P l = filter Q l.
Proof.
  induction l as [|x l IH]; intros Hext; [done|].
  rewrite !filter_cons, IH by (intros y Hy; apply Hext; by right).
  apply decide_ext, Hext. left.
Qed.

Lemma length_filter_zero {A} (P : A → Prop) `{!∀ x, Decision (P x)} (l : list A) :
  length (filter P l) = 0 ↔ ∀ x, x ∈ l → ¬ P x.
Proof.
  rewrite length_zero_iff_nil. split.
  - intros Hnil x Hx HP.
    assert (x ∈ filter P l) as Hin by (by apply list_elem_of_filter).
    rewrite Hnil in Hin. by apply elem_of_nil in Hin.
  - intros Hno. induction l as [|x l IH]; [done|].
    rewrite filter_cons. case_decide as HP.
    + exfalso. apply (Hno x); [left|done].
    + apply IH. intros y Hy. apply Hno. by right.
Qed.

Lemma foldl_alter_S_lookup (edges : list Edge) (m : gmap string nat) (t : string) :
  foldl (λ m e, alter S (target e) m) m edges !! t =
  (λ n, n + length (filter (λ e, target e = t) edges)) <$> m !! t.
Proof.
  revert m. induction edges as [|e edges IH]; intros m; simpl.
  - destruct (m !! t); simpl; [f_equal; lia|done].
  - rewrite IH, filter_cons, lookup_alter.
    destruct (decide (target e = t)) as [<-|Hne]; simpl; [|done].
    destruct (m !! target e); simpl; [f_equal; lia|done].
Qed.

Lemma inDegrees_lookup (ids : list string) (edges : list Edge) (t : string) :
  inDegrees ids edges !! t =
  if decide (t ∈ ids) then Some (length (filter (λ e, target e = t) edges)) else None.
Proof.
  unfold inDegrees. rewrite foldl_alter_S_lookup, lookup_gset_to_gmap.
  case_decide as Hin.
  - rewrite option_guard_True by (by apply elem_of_list_to_set). done.
  - rewrite option_guard_False by (by rewrite elem_of_list_to_set). done.
Qed.

Lemma releaseDependents_lookup (edges : list Edge) (wave : list string)
    (m : gmap string nat) (t : string) :
  releaseDependents edges wave m !! t =
  (λ n, n - length (filter (λ e, target e = t ∧ source e ∈ wave) edges)) <$> m !! t.
Proof.
  unfold releaseDependents. revert m.
  induction edges as [|e edges IH]; intros m; simpl.
  - destruct (m !! t); simpl; [f_equal; lia|done].
  - rewrite IH, filter_cons. destruct (decide (source e ∈ wave)) as [Hs|Hs].
    + rewrite lookup_alter.
      destruct (decide (target e = t)) as [<-|Hne].
      * rewrite decide_True by done.
        destruct (m !! target e); simpl; [f_equal; lia|done].
      * rewrite decide_False by tauto. done.
    + rewrite decide_False by tauto. done.
Qed.

(** *** The loop invariant *)

Lemma counted_init (ids : list string) (edges : list Edge) :
  (∀ e, e ∈ edges → source e ∈ ids) →
  counted edges ids (inDegrees ids edges).
Proof.
  intros Hsrc t Ht. rewrite inDegrees_lookup, decide_True by done.
  unfold pendingIn. do 2 f_equal. apply filter_ext_in.
  intros e He. split; [intros; split; auto|by intros [? _]].
Qed.

Lemma ready_spec edges remaining indeg t :
  counted edges remaining indeg →
  t ∈ ready indeg remaining ↔
  t ∈ remaining ∧ ∀ e, e ∈ edges → target e = t → source e ∉ remaining.
Proof.
  intros Hc. unfold ready. rewrite list_elem_of_filter. split.
  - intros [Hz Hin]. split; [done|]. rewrite (Hc _ Hin) in Hz.
    injection Hz as Hz. unfold pendingIn in Hz.
    rewrite length_filter_zero in Hz.
    intros e He Ht Hs. by apply (Hz e He).
  - intros [Hin Hno]. split; [|done]. rewrite (Hc _ Hin). f_equal.
    apply length_filter_zero. intros e He [Ht Hs]. by apply (Hno e).
Qed.

Lemma ready_subset indeg remaining t : t ∈ ready indeg remaining → t ∈ remaining.
Proof. unfold ready. rewrite list_elem_of_filter. tauto. Qed.

Lemma counted_step edges remaining indeg wave :
  (∀ t, t ∈ wave → t ∈ remaining) →
  counted edges remaining indeg →
  counted edges (list_difference remaining wave)
    (releaseDependents edges wave indeg).
Proof.
  intros Hsub Hc t [Ht Hnw]%list_elem_of_difference.
  rewrite releaseDependents_lookup, (Hc _ Ht). simpl. f_equal.
  unfold pendingIn.
  rewrite (length_filter_split (λ e, target e = t ∧ source e ∈ remaining)
             (λ e, source e ∈ wave)).
  rewrite (filter_ext_in
             (λ e, (target e = t ∧ source e ∈ remaining) ∧ source e ∈ wave)
             (λ e, target e = t ∧ source e ∈ wave))
    by (intros e _; split; [tauto|intros [??]; auto]).
  rewrite (filter_ext_in
             (λ e, (target e = t ∧ source e ∈ remaining) ∧ source e ∉ wave)
             (λ e, target e = t ∧ source e ∈ list_difference remaining wave)).
  - lia.
  - intros e _. rewrite list_elem_of_difference. tauto.
Qed.

Lemma list_difference_filter (l k : list string) :
  list_difference l k = filter (λ x, x ∉ k) l.
Proof.
  induction l as [|x l IH]; [done|].
  cbn [list_difference]. rewrite filter_cons, IH.
  destruct (decide_rel elem_of x k) as [Hx|Hx].
  - rewrite decide_False; [done|tauto].
  - by rewrite decide_True.
Qed.

Lemma ready_difference_perm indeg remaining :
  ready indeg remaining ++ list_difference remaining (ready indeg remaining)
  ≡ₚ remaining.
Proof.
  rewrite list_difference_filter. unfold ready.
  rewrite (filter_ext_in (λ x, x ∉ filter (λ n, indeg !! n = Some 0) remaining)
             (λ x, ¬ indeg !! x = Some 0)).
  - apply filter_app_complement.
  - intros x Hx. rewrite list_elem_of_filter. tauto.
Qed.

(** *** Positions *)

Lemma waveIndex_cons (w : list string) (p : Plan) (n : string) :
  waveIndex (w :: p) n = if decide (n ∈ w) then Some 0 else S <$> waveIndex p n.
Proof.
  unfold waveIndex. simpl. case_decide; [done|].
  by destruct (list_find (λ w, n ∈ w) p) as [[??]|].
Qed.

Lemma waveIndex_is_Some (p : Plan) (n : string) :
  n ∈ concat p → is_Some (waveIndex p n).
Proof.
  induction p as [|w p IH]; simpl; [by intros ?%elem_of_nil|].
  rewrite waveIndex_cons. intros [Hw|Hp]%elem_of_app.
  - by rewrite decide_True.
  - case_decide; [done|]. destruct (IH Hp) as [i ->]. done.
Qed.

Lemma waveIndex_elem (p : Plan) (n : string) (i : nat) :
  waveIndex p n = Some i → n ∈ concat p.
Proof.
  revert i. induction p as [|w p IH]; intros i; [done|].
  rewrite waveIndex_cons. simpl. rewrite elem_of_app.
  case_decide; [by left|].
  destruct (waveIndex p n) as [j|] eqn:Hj; [|done]. intros _. right. by eapply IH.
Qed.

Definition indexOf (l : list string) (n : string) : option nat :=
  fst <$> list_find (λ m, m = n) l.

Lemma indexOf_cons (l : list string) (a n : string) :
  indexOf (a :: l) n = if decide (a = n) then Some 0 else S <$> indexOf l n.
Proof.
  unfold indexOf. simpl. case_decide; [done|].
  by destruct (list_find (λ m, m = n) l) as [[??]|].
Qed.

Lemma indexOf_app_l (l1 l2 : list string) (n : string) :
  n ∈ l1 → ∃ k, indexOf (l1 ++ l2) n = Some k ∧ k < length l1.
Proof.
  induction l1 as [|a l1 IH]; [by intros ?%elem_of_nil|].
  intros Hin. simpl. rewrite indexOf_cons.
  destruct (decide (a = n)) as [->|Hne]; [exists 0; split; [done|lia]|].
  apply elem_of_cons in Hin as [->|Hin]; [done|].
  destruct (IH Hin) as (k & -> & Hk). exists (S k). split; [done|lia].
Qed.

Lemma indexOf_app_r (l1 l2 : list string) (n : string) :
  n ∉ l1 → indexOf (l1 ++ l2) n = (λ k, length l1 + k) <$> indexOf l2 n.
Proof.
  induction l1 as [|a l1 IH]; intros Hnin; simpl.
  - by destruct (indexOf l2 n).
  - rewrite indexOf_cons, decide_False by (intros ->; apply Hnin; left).
    rewrite IH by (intros ?; apply Hnin; by right).
    by destruct (indexOf l2 n).
Qed.

Lemma indexOf_is_Some (l : list string) (n : string) :
  n ∈ l → is_Some (indexOf l n).
Proof.
  intros Hin. destruct (indexOf_app_l l [] n Hin) as (k & Hk & _).
  rewrite app_nil_r in Hk. by rewrite Hk.
Qed.

Lemma indexOf_lookup (l : list string) (n : string) (k : nat) :
  indexOf l n = Some k → l !! k = Some n.
Proof.
  unfold indexOf. destruct (list_find (λ m, m = n) l) as [[i x]|] eqn:Hf; [|done].
  intros [= <-]. by apply list_find_Some in Hf as (? & -> & _).
Qed.

Lemma position_indexOf (p : Plan) (n : string) :
  position p n = indexOf (executionOrder p) n.
Proof. reflexivity. Qed.

(** Nodes of an earlier wave come earlier in the linear order. *)
Lemma waveIndex_lt_position (p : Plan) (a b : string) (i j : nat) :
  waveIndex p a = Some i → waveIndex p b = Some j → i < j →
  ∃ pa pb, position p a = Some pa ∧ position p b = Some pb ∧ pa < pb.
Proof.
  rewrite !position_indexOf. unfold executionOrder.
  revert i j. induction p as [|w p IH]; intros i j; [done|].
  rewrite !waveIndex_cons. simpl.
  destruct (decide (b ∈ w)) as [Hb|Hb]; [intros _ [= <-]; lia|].
  destruct (waveIndex p b) as [j'|] eqn:Hj; [|done]. simpl.
  rewrite (indexOf_app_r w (concat p) b Hb).
  destruct (indexOf_is_Some (concat p) b (waveIndex_elem _ _ _ Hj)) as [pb Hpb].
  rewrite Hpb. simpl.
  destruct (decide (a ∈ w)) as [Ha|Ha].
  - intros _ _ _. destruct (indexOf_app_l w (concat p) a Ha) as (pa & -> & Hlt).
    exists pa, (length w + pb). split_and!; [done..|lia].
  - destruct (waveIndex p a) as [i'|] eqn:Hi; [|done]. simpl.
    intros [= <-] [= <-] Hlt.
    destruct (IH i' j' eq_refl eq_refl) as (pa & pb' & Hpa & Hpb' & Hlt'); [lia|].
    rewrite (indexOf_app_r w (concat p) a Ha), Hpa. simpl.
    rewrite Hpb in Hpb'. injection Hpb' as <-.
    exists (length w + pa), (length w + pb). split_and!; [done..|lia].
Qed.

(** *** Induction along the loop *)

Lemma waves_induction (edges : list Edge)
    (P : list string → gmap string nat → StructuralError + Plan → Prop) :
  (∀ indeg, P [] indeg (inr [])) →
  (∀ remaining indeg,
      remaining ≠ [] → ready indeg remaining = [] →
      P remaining indeg (inl (CycleDetected remaining))) →
  (∀ remaining indeg wave,
      ready indeg remaining = wave → wave ≠ [] →
      let remaining' := list_difference remaining wave in
      let indeg' := releaseDependents edges wave indeg in
      P remaining' indeg' (waves edges remaining' indeg') →
      P remaining indeg (prepend wave (waves edges remaining' indeg'))) →
  ∀ remaining indeg, P remaining indeg (waves edges remaining indeg).
Proof.
  intros Hnil Hcycle Hstep remaining.
  remember (length remaining) as k eqn:Hk. revert remaining Hk.
  induction k as [k IH] using lt_wf_ind. intros remaining -> indeg.
  rewrite waves_equation.
  destruct remaining as [|n rest]; [apply Hnil|].
  destruct (ready indeg (n :: rest)) as [|w ws] eqn:Hr; [by apply Hcycle|].
  apply Hstep; [done..|].
  eapply IH; [|done]. by eapply ready_difference_length.
Qed.

Lemma prepend_inr wave r p :
  prepend wave r = inr p → ∃ p', r = inr p' ∧ p = wave :: p'.
Proof. destruct r as [err|p']; simpl; [done|]. intros [= <-]. eauto. Qed.

Lemma prepend_inl wave r err : prepend wave r = inl err → r = inl err.
Proof. destruct r; simpl; [|done]. by intros [= <-]. Qed.

(** A plan lists the remaining nodes, wave by wave, and puts the source of
    every edge in an earlier wave than its target. *)
Lemma waves_sound edges remaining indeg p :
  counted edges remaining indeg →
  waves edges remaining indeg = inr p →
  concat p ≡ₚ remaining
  ∧ ∀ e, e ∈ edges → source e ∈ remaining → target e ∈ remaining →
        ∃ i j, waveIndex p (source e) = Some i
               ∧ waveIndex p (target e) = Some j ∧ i < j.
Proof.
  revert p.
  apply (waves_induction edges (λ remaining indeg r,
    ∀ p, counted edges remaining indeg → r = inr p →
      concat p ≡ₚ remaining
      ∧ ∀ e, e ∈ edges → source e ∈ remaining → target e ∈ remaining →
          ∃ i j, waveIndex p (source e) = Some i
                 ∧ waveIndex p (target e) = Some j ∧ i < j)).
  - intros _ p _ [= <-]. split; [done|]. by intros e _ ?%elem_of_nil.
  - intros; discriminate.
  - clear remaining indeg.
    intros remaining indeg wave Hw Hne remaining' indeg' IH p Hc Hp.
    apply prepend_inr in Hp as (p' & Hp' & ->).
    assert (Hsub : ∀ t, t ∈ wave → t ∈ remaining).
    { intros t. rewrite <- Hw. apply ready_subset. }
    destruct (IH p' (counted_step _ _ _ _ Hsub Hc) Hp') as [Hperm Hord].
    assert (Hsplit : ∀ t, t ∈ remaining → t ∉ wave → t ∈ concat p').
    { intros t ??. rewrite Hperm. by apply list_elem_of_difference. }
    split.
    + simpl. rewrite Hperm. subst remaining' wave. apply ready_difference_perm.
    + intros e He Hs Ht.
      assert (Htw : target e ∉ wave).
      { rewrite <- Hw. intros [_ Hno]%(ready_spec edges); [|done].
        by apply (Hno e). }
      destruct (waveIndex_is_Some p' (target e) (Hsplit _ Ht Htw)) as [j Hj].
      rewrite !waveIndex_cons. rewrite (decide_False (P := target e ∈ wave)) by done.
      rewrite Hj. destruct (decide (source e ∈ wave)) as [Hsw|Hsw].
      * exists 0, (S j). split_and!; [done..|lia].
      * destruct (Hord e He) as (i' & j' & Hi' & Hj' & Hlt).
        { by apply list_elem_of_difference. }
        { by apply list_elem_of_difference. }
        rewrite Hi'. rewrite Hj in Hj'. injection Hj' as <-.
        exists (S i'), (S j). split_and!; [done..|lia].
Qed.

Lemma filter_nonempty_elem {A} (P : A → Prop) `{!∀ x, Decision (P x)} (l : list A) :
  length (filter P l) ≠ 0 → ∃ x, x ∈ l ∧ P x.
Proof.
  destruct (filter P l) as [|x k] eqn:Hf; [done|]. intros _.
  assert (x ∈ filter P l) as [??]%list_elem_of_filter by (rewrite Hf; left).
  eauto.
Qed.

(** When the loop fails, it reports a non-empty set of remaining nodes,
    each of which still has an in-edge from the set. *)
Lemma waves_failure edges remaining indeg err :
  counted edges remaining indeg →
  waves edges remaining indeg = inl err →
  ∃ r, err = CycleDetected r ∧ r ≠ []
       ∧ (∀ t, t ∈ r → t ∈ remaining)
       ∧ ∀ t, t ∈ r → ∃ e, e ∈ edges ∧ target e = t ∧ source e ∈ r.
Proof.
  revert err.
  apply (waves_induction edges (λ remaining indeg res,
    ∀ err, counted edges remaining indeg → res = inl err →
      ∃ r, err = CycleDetected r ∧ r ≠ []
           ∧ (∀ t, t ∈ r → t ∈ remaining)
           ∧ ∀ t, t ∈ r → ∃ e, e ∈ edges ∧ target e = t ∧ source e ∈ r)).
  - intros; discriminate.
  - clear remaining indeg. intros remaining indeg Hne Hr err Hc [= <-].
    exists remaining. split_and!; [done..|].
    intros t Ht.
    assert (Hpos : pendingIn edges remaining t ≠ 0).
    { intros Hz. assert (t ∈ ready indeg remaining) as Hin.
      { unfold ready. apply list_elem_of_filter. split; [|done].
        by rewrite (Hc _ Ht), Hz. }
      rewrite Hr in Hin. by apply elem_of_nil in Hin. }
    apply filter_nonempty_elem in Hpos as (e & He & Hte & Hse). eauto.
  - clear remaining indeg.
    intros remaining indeg wave Hw Hne remaining' indeg' IH err Hc Herr.
    apply prepend_inl in Herr.
    assert (Hsub : ∀ t, t ∈ wave → t ∈ remaining).
    { intros t. rewrite <- Hw. apply ready_subset. }
    destruct (IH err (counted_step _ _ _ _ Hsub Hc) Herr)
      as (r & -> & Hrne & Hin & Hpred).
    exists r. split_and!; [done..| |done].
    intros t Ht. by apply Hin, list_elem_of_difference in Ht as [??].
Qed.

(** *** Cycles *)

Lemma tc_shortcut {A} (R : relation A) (a : A) (x y : A) :
  tc (λ u v, R u v ∨ (R u a ∧ R a v)) x y → tc R x y.
Proof.
  induction 1 as [x y [HR|[H1 H2]]|x y z [HR|[H1 H2]] _ IH].
  - by apply tc_once.
  - eapply tc_l; [exact H1|by apply tc_once].
  - by eapply tc_l.
  - eapply tc_l; [exact H1|]. by eapply tc_l.
Qed.

(** A non-empty finite set in which every element has a predecessor
    contains a cycle. *)
Lemma cycle_of_no_source {A} `{EqDecision A} (k : nat) :
  ∀ (R : relation A) (l : list A),
    length l ≤ k → l ≠ [] →
    (∀ x, x ∈ l → ∃ y, y ∈ l ∧ R y x) →
    ∃ n, tc R n n.
Proof.
  induction k as [|k IH]; intros R l Hlen Hne Hpred.
  - destruct l; [done|simpl in Hlen; lia].
  - destruct l as [|a l0]; [done|].
    destruct (Hpred a) as (y & Hy & Rya); [left|].
    destruct (decide (y = a)) as [->|Hya]; [exists a; by apply tc_once|].
    set (l' := filter (λ x, x ≠ a) (a :: l0)).
    assert (Hl' : ∀ x, x ∈ l' ↔ x ∈ a :: l0 ∧ x ≠ a).
    { intros x. unfold l'. rewrite list_elem_of_filter. tauto. }
    assert (Hy' : y ∈ l') by (by apply Hl').
    destruct (IH (λ u v, R u v ∨ (R u a ∧ R a v)) l') as [n Hn].
    + assert (length l' < length (a :: l0)); [|simpl in *; lia].
      apply (length_filter_lt _ _ a); [left|]. by intros ?.
    + intros Hnil. rewrite Hnil in Hy'. by apply elem_of_nil in Hy'.
    + intros x [Hx Hxa]%Hl'.
      destruct (Hpred x Hx) as (z & Hz & Rzx).
      destruct (decide (z = a)) as [->|Hza].
      * exists y. split; [done|]. by right.
      * exists z. split; [by apply Hl'|]. by left.
    + exists n. by eapply tc_shortcut.
Qed.

Lemma waves_failure_cycle edges remaining indeg err :
  counted edges remaining indeg →
  waves edges remaining indeg = inl err →
  ∃ n, tc (depends edges) n n.
Proof.
  intros Hc Herr.
  destruct (waves_failure _ _ _ _ Hc Herr) as (r & _ & Hne & _ & Hpred).
  apply (cycle_of_no_source (length r) (depends edges) r); [done..|].
  intros t Ht. destruct (Hpred t Ht) as (e & He & Hte & Hse).
  exists (source e). split; [done|]. by exists e.
Qed.

Lemma tc_last_step {A} (R : relation A) (x z : A) :
  tc R x z → ∃ y, rtc R x y ∧ R y z.
Proof.
  induction 1 as [x z HR|x y' z HR _ (y & Hrtc & Hlast)].
  - exists x. split; [apply rtc_refl|done].
  - exists y. split; [by eapply rtc_l|done].
Qed.

(** A node on a cycle has a predecessor on a cycle. *)
Lemma cycle_predecessor (edges : list Edge) (n : string) :
  tc (depends edges) n n →
  ∃ m, depends edges m n ∧ tc (depends edges) m m.
Proof.
  intros (m & Hrtc & Hlast)%tc_last_step. exists m. split; [done|].
  eapply tc_rtc_r; [by apply tc_once|done].
Qed.

(** The nodes on cycles are never released: when all of them are among the
    remaining nodes, the loop ends in [CycleDetected] and reports them. *)
Lemma waves_cyclic edges remaining indeg n :
  counted edges remaining indeg →
  (∀ m, tc (depends edges) m m → m ∈ remaining) →
  tc (depends edges) n n →
  ∃ r, waves edges remaining indeg = inl (CycleDetected r) ∧ n ∈ r.
Proof.
  intros Hc Hall Hn. revert Hc Hall.
  apply (waves_induction edges (λ remaining indeg res,
    counted edges remaining indeg →
    (∀ m, tc (depends edges) m m → m ∈ remaining) →
    ∃ r, res = inl (CycleDetected r) ∧ n ∈ r)).
  - intros _ _ Hall. by apply Hall, elem_of_nil in Hn.
  - clear remaining indeg. intros remaining indeg _ _ _ Hall.
    exists remaining. split; [done|]. by apply Hall.
  - clear remaining indeg.
    intros remaining indeg wave Hw Hne remaining' indeg' IH Hc Hall.
    assert (Hsub : ∀ t, t ∈ wave → t ∈ remaining).
    { intros t. rewrite <- Hw. apply ready_subset. }
    destruct IH as (r & -> & Hr).
    + by apply counted_step.
    + intros m Hm. apply list_elem_of_difference. split; [by apply Hall|].
      rewrite <- Hw. intros [_ Hno]%(ready_spec edges); [|done].
      destruct (cycle_predecessor _ _ Hm) as (m' & (e & He & <- & <-) & Hm').
      apply (Hno e He eq_refl). by apply Hall.
    + by exists r.
Qed.

(** *** The structural checks *)

Lemma firstDuplicate_None (ids : list string) :
  firstDuplicate ids = None ↔ NoDup ids.
Proof.
  induction ids as [|i ids IH]; simpl.
  - split; [constructor|done].
  - rewrite NoDup_cons. case_decide; [|tauto].
    split; [done|]. tauto.
Qed.

Lemma firstDangling_None (ids : list string) (edges : list Edge) :
  firstDangling ids edges = None ↔
  ∀ e, e ∈ edges → source e ∈ ids ∧ target e ∈ ids.
Proof.
  unfold firstDangling. rewrite head_None. split.
  - intros Hnil e He.
    destruct (decide (source e ∈ ids)) as [Hs|Hs],
             (decide (target e ∈ ids)) as [Ht|Ht]; [done|exfalso..];
      eapply (filter_nil_not_elem_of _ _ e Hnil); tauto || done.
  - intros Hall. induction edges as [|e edges IH]; [done|].
    rewrite filter_cons. destruct (Hall e) as [??]; [left|].
    rewrite decide_False by tauto. apply IH. intros ??. apply Hall. by right.
Qed.

Lemma buildPlan_wellFormed nodes edges :
  wellFormedGraph nodes edges →
  buildPlan nodes edges = waves edges (map id nodes) (inDegrees (map id nodes) edges)
  ∧ counted edges (map id nodes) (inDegrees (map id nodes) edges).
Proof.
  intros [Hnd Hedges]. unfold buildPlan.
  rewrite (proj2 (firstDuplicate_None _) Hnd).
  rewrite (proj2 (firstDangling_None _ _) Hedges).
  split; [done|]. apply counted_init. intros e He. by apply Hedges.
Qed.

(** *** Plans of well-formed graphs *)

Lemma buildPlan_sound nodes edges p :
  wellFormedGraph nodes edges →
  buildPlan nodes edges = inr p →
  executionOrder p ≡ₚ map id nodes
  ∧ ∀ e, e ∈ edges →
      (∃ i j, waveIndex p (source e) = Some i
              ∧ waveIndex p (target e) = Some j ∧ i < j)
      ∧ (∃ i j, position p (source e) = Some i
                ∧ position p (target e) = Some j ∧ i < j).
Proof.
  intros Hwf Hp. destruct (buildPlan_wellFormed _ _ Hwf) as [Heq Hc].
  rewrite Heq in Hp. destruct (waves_sound _ _ _ _ Hc Hp) as [Hperm Hord].
  split; [done|]. intros e He. destruct Hwf as [_ Hends].
  destruct (Hends e He) as [Hs Ht].
  destruct (Hord e He Hs Ht) as (i & j & Hi & Hj & Hlt).
  split; [by exists i, j|]. by eapply waveIndex_lt_position.
Qed.

Lemma buildPlan_acyclic_succeeds nodes edges :
  wellFormedGraph nodes edges → acyclic edges →
  ∃ p, buildPlan nodes edges = inr p.
Proof.
  intros Hwf Hac. destruct (buildPlan_wellFormed _ _ Hwf) as [Heq Hc].
  rewrite Heq.
  destruct (waves edges _ _) as [err|p] eqn:Hw; [|by exists p].
  destruct (waves_failure_cycle _ _ _ _ Hc Hw) as [n Hn]. by destruct (Hac n).
Qed.

Lemma buildPlan_cyclic nodes edges n :
  wellFormedGraph nodes edges → tc (depends edges) n n →
  ∃ r, buildPlan nodes edges = inl (CycleDetected r) ∧ n ∈ r
       ∧ ∀ t, t ∈ r → t ∈ map id nodes.
Proof.
  intros Hwf Hn. destruct (buildPlan_wellFormed _ _ Hwf) as [Heq Hc].
  rewrite Heq.
  destruct (waves_cyclic edges (map id nodes) (inDegrees (map id nodes) edges) n Hc)
    as (r & Hr & Hin); [|done|].
  - intros m (m' & (e & He & _ & <-) & _)%cycle_predecessor.
    by apply Hwf.
  - exists r. split_and!; [done..|].
    destruct (waves_failure _ _ _ _ Hc Hr) as (r' & [= <-] & _ & Hsub & _).
    exact Hsub.
Qed.

Lemma buildPlan_inr_acyclic nodes edges p :
  wellFormedGraph nodes edges → buildPlan nodes edges = inr p → acyclic edges.
Proof.
  intros Hwf Hp n Hn.
  destruct (buildPlan_cyclic _ _ _ Hwf Hn) as (r & Hr & _). congruence.
Qed.

Lemma wellFormedGraph_decide nodes edges :
  bool_decide (NoDup (map id nodes)) = true →
  forallb (λ e, bool_decide (source e ∈ map id nodes)
                && bool_decide (target e ∈ map id nodes)) edges = true →
  wellFormedGraph nodes edges.
Proof.
  intros Hnd%bool_decide_eq_true Hall. split; [done|].
  intros e He. rewrite forallb_forall in Hall.
  apply list_elem_of_In, Hall, andb_true_iff in He as [Hs Ht].
  by apply bool_decide_eq_true in Hs, Ht.
Qed.

(** C1: for every acyclic graph (unique node ids, every edge between two
    of the nodes), [buildPlan]/[generateExecutionPlan] succeeds; the plan
    lists exactly the graph's nodes, and the source of every edge stands in
    an earlier wave, and at an earlier position of the linear order, than
    the edge's target. *)
Theorem buildPlan_acyclic_topological (nodes : list FlowNode) (edges : list Edge) :
  wellFormedGraph nodes edges →
  acyclic edges →
  ∃ p, generateExecutionPlan nodes edges = inr p
       ∧ executionOrder p ≡ₚ map id nodes
       ∧ ∀ e, e ∈ edges →
           (∃ i j, waveIndex p (source e) = Some i
                   ∧ waveIndex p (target e) = Some j ∧ i < j)
           ∧ (∃ i j, position p (source e) = Some i
                     ∧ position p (target e) = Some j ∧ i < j).
Proof.
  intros Hwf Hac. unfold generateExecutionPlan.
  destruct (buildPlan_acyclic_succeeds _ _ Hwf Hac) as [p Hp].
  exists p. split; [done|]. by apply buildPlan_sound.
Qed.

(** The graph [A -> B -> C] of the specification's scenario. *)
Definition chainNodes : list FlowNode :=
  [mkNode "A" "textInputNode" ∅; mkNode "B" "uppercase" ∅;
   mkNode "C" "textOutputNode" ∅].

Definition chainEdges : list Edge :=
  [mkEdge "A" None "B" None; mkEdge "B" None "C" None].

Lemma chain_wellFormed : wellFormedGraph chainNodes chainEdges.
Proof. apply wellFormedGraph_decide; vm_compute; reflexivity. Qed.

Lemma chain_plan : buildPlan chainNodes chainEdges = inr [["A"]; ["B"]; ["C"]].
Proof. vm_compute. reflexivity. Qed.

Lemma buildPlan_acyclic_topological_witness :
  ∃ p, generateExecutionPlan chainNodes chainEdges = inr p
       ∧ executionOrder p ≡ₚ map id chainNodes
       ∧ ∀ e, e ∈ chainEdges →
           (∃ i j, waveIndex p (source e) = Some i
                   ∧ waveIndex p (target e) = Some j ∧ i < j)
           ∧ (∃ i j, position p (source e) = Some i
                     ∧ position p (target e) = Some j ∧ i < j).
Proof.
  apply (buildPlan_acyclic_topological chainNodes chainEdges).
  - exact chain_wellFormed.
  - exact (buildPlan_inr_acyclic _ _ _ chain_wellFormed chain_plan).
Defined.

(** C2: for every graph whose dependency relation has a cycle,
    [buildPlan]/[generateExecutionPlan] returns no plan but the error
    [CycleDetected]; the node ids it reports are nodes of the graph and
    include every node that lies on a cycle, so at least one. *)
Theorem buildPlan_cycle_detected (nodes : list FlowNode) (edges : list Edge) :
  wellFormedGraph nodes edges →
  (∃ n, tc (depends edges) n n) →
  ∃ r, generateExecutionPlan nodes edges = inl (CycleDetected r)
       ∧ (∃ n, n ∈ r ∧ tc (depends edges) n n)
       ∧ (∀ n, tc (depends edges) n n → n ∈ r)
       ∧ (∀ n, n ∈ r → n ∈ map id nodes).
Proof.
  intros Hwf [n Hn]. unfold generateExecutionPlan.
  destruct (buildPlan_cyclic _ _ _ Hwf Hn) as (r & Hr & Hin & Hsub).
  exists r. split_and!; [done|by exists n| |done].
  intros m Hm. destruct (buildPlan_cyclic _ _ _ Hwf Hm) as (r' & Hr' & Hin' & _).
  congruence.
Qed.

(** A graph with the cycle [B -> C -> B] behind a node [A] and beside a
    node [D]. *)
Definition loopNodes : list FlowNode :=
  [mkNode "A" "t" ∅; mkNode "B" "t" ∅; mkNode "C" "t" ∅; mkNode "D" "t" ∅].

Definition loopEdges : list Edge :=
  [mkEdge "A" None "B" None; mkEdge "B" None "C" None; mkEdge "C" None "B" None].

Lemma buildPlan_cycle_detected_witness :
  ∃ r, generateExecutionPlan loopNodes loopEdges = inl (CycleDetected r)
       ∧ (∃ n, n ∈ r ∧ tc (depends loopEdges) n n)
       ∧ (∀ n, tc (depends loopEdges) n n → n ∈ r)
       ∧ (∀ n, n ∈ r → n ∈ map id loopNodes).
Proof.
  apply (buildPlan_cycle_detected loopNodes loopEdges).
  - apply wellFormedGraph_decide; vm_compute; reflexivity.
  - exists "B". eapply tc_l; [|apply tc_once].
    + exists (mkEdge "B" None "C" None). split_and!; [|done..].
      apply list_elem_of_In. simpl. tauto.
    + exists (mkEdge "C" None "B" None). split_and!; [|done..].
      apply list_elem_of_In. simpl. tauto.
Defined.

(** *** Reordering the input arrays *)

(** Results that agree up to the order of node ids inside each wave (or
    inside the reported cycle set), and up to which duplicate id or
    dangling edge is reported. *)
Definition planEquivalent (r r' : StructuralError + Plan) : Prop :=
  match r, r' with
  | inr p, inr p' => Forall2 (≡ₚ) p p'
  | inl (CycleDetected a), inl (CycleDetected b) => a ≡ₚ b
  | inl (DanglingEdge _), inl (DanglingEdge _) => True
  | inl (DuplicateNodeId _), inl (DuplicateNodeId _) => True
  | _, _ => False
  end.

Lemma length_filter_perm {A} (P Q : A → Prop) `{!∀ x, Decision (P x)}
    `{!∀ x, Decision (Q x)} (l l' : list A) :
  l ≡ₚ l' → (∀ x, P x ↔ Q x) → length (filter P l) = length (filter Q l').
Proof.
  intros Hperm Hext. rewrite (list_filter_iff P Q l Hext).
  apply Permutation_length. by rewrite Hperm.
Qed.

Lemma inDegrees_perm ids ids' edges edges' :
  ids ≡ₚ ids' → edges ≡ₚ edges' → inDegrees ids edges = inDegrees ids' edges'.
Proof.
  intros Hids Hedges. apply map_eq. intros t. rewrite !inDegrees_lookup.
  rewrite (length_filter_perm (λ e, target e = t) (λ e, target e = t) edges edges')
    by done.
  destruct (decide (t ∈ ids)) as [Hin|Hin].
  - rewrite decide_True; [done|]. by rewrite <- Hids.
  - rewrite decide_False; [done|]. by rewrite <- Hids.
Qed.

Lemma releaseDependents_perm edges edges' wave wave' indeg :
  edges ≡ₚ edges' → wave ≡ₚ wave' →
  releaseDependents edges wave indeg = releaseDependents edges' wave' indeg.
Proof.
  intros Hedges Hwave. apply map_eq. intros t.
  rewrite !releaseDependents_lookup.
  rewrite (length_filter_perm (λ e, target e = t ∧ source e ∈ wave)
             (λ e, target e = t ∧ source e ∈ wave') edges edges'); [done..|].
  intros e. by rewrite Hwave.
Qed.

Lemma list_difference_perm (l l' k k' : list string) :
  l ≡ₚ l' → k ≡ₚ k' → list_difference l k ≡ₚ list_difference l' k'.
Proof.
  intros Hl Hk. rewrite !list_difference_filter.
  rewrite (list_filter_iff (λ x, x ∉ k) (λ x, x ∉ k') l)
    by (intros x; by rewrite Hk).
  by rewrite Hl.
Qed.

Lemma ready_perm indeg remaining remaining' :
  remaining ≡ₚ remaining' → ready indeg remaining ≡ₚ ready indeg remaining'.
Proof. intros Hperm. unfold ready. by rewrite Hperm. Qed.

Lemma planEquivalent_prepend wave wave' r r' :
  wave ≡ₚ wave' → planEquivalent r r' →
  planEquivalent (prepend wave r) (prepend wave' r').
Proof.
  intros Hw. destruct r as [[]|p], r' as [[]|p']; simpl; try done.
  intros Hp. by constructor.
Qed.

Lemma waves_unfold_ready edges remaining indeg w ws :
  ready indeg remaining = w :: ws →
  waves edges remaining indeg =
  prepend (w :: ws)
    (waves edges (list_difference remaining (w :: ws))
       (releaseDependents edges (w :: ws) indeg)).
Proof.
  intros Hr. rewrite waves_equation.
  destruct remaining as [|n rest]; [done|]. by rewrite Hr.
Qed.

Lemma waves_unfold_stuck edges remaining indeg :
  remaining ≠ [] → ready indeg remaining = [] →
  waves edges remaining indeg = inl (CycleDetected remaining).
Proof.
  intros Hne Hr. rewrite waves_equation.
  destruct remaining as [|n rest]; [done|]. by rewrite Hr.
Qed.

Lemma waves_perm edges edges' remaining remaining' indeg :
  edges ≡ₚ edges' → remaining ≡ₚ remaining' →
  planEquivalent (waves edges remaining indeg) (waves edges' remaining' indeg).
Proof.
  intros Hedges. revert remaining'.
  apply (waves_induction edges (λ remaining indeg res,
    ∀ remaining', remaining ≡ₚ remaining' →
      planEquivalent res (waves edges' remaining' indeg))).
  - intros indeg' remaining' <-%Permutation_nil_l.
    rewrite waves_equation. by constructor.
  - clear remaining indeg. intros remaining indeg Hne Hr remaining' Hperm.
    rewrite waves_unfold_stuck; [done| |].
    + intros ->. by apply Permutation_nil_r in Hperm.
    + pose proof (ready_perm indeg _ _ Hperm) as Hp. rewrite Hr in Hp.
      by apply Permutation_nil_l in Hp.
  - clear remaining indeg.
    intros remaining indeg wave Hw Hne remaining1 indeg1 IH remaining' Hperm.
    pose proof (ready_perm indeg _ _ Hperm) as Hwave. rewrite Hw in Hwave.
    destruct (ready indeg remaining') as [|w' ws'] eqn:Hr'.
    { by apply Permutation_nil_r in Hwave. }
    rewrite (waves_unfold_ready _ _ _ _ _ Hr').
    apply planEquivalent_prepend; [done|].
    rewrite <- (releaseDependents_perm edges edges' wave (w' :: ws') indeg Hedges Hwave).
    apply IH. by apply list_difference_perm.
Qed.

Lemma waves_edges_perm edges edges' remaining indeg :
  edges ≡ₚ edges' →
  waves edges remaining indeg = waves edges' remaining indeg.
Proof.
  intros Hedges.
  apply (waves_induction edges (λ remaining indeg res,
    res = waves edges' remaining indeg)).
  - intros indeg'. by rewrite waves_equation.
  - clear remaining indeg. intros remaining indeg Hne Hr.
    by rewrite waves_unfold_stuck.
  - clear remaining indeg. intros remaining indeg wave Hw Hne remaining1 indeg1 IH.
    destruct wave as [|w ws]; [done|].
    rewrite (waves_unfold_ready edges' _ _ _ _ Hw).
    rewrite <- (releaseDependents_perm edges edges' (w :: ws) (w :: ws) indeg)
      by done.
    by rewrite IH.
Qed.

(** Inside a wave the ids keep the order of the input array. *)
Lemma waves_sublist edges remaining indeg p :
  waves edges remaining indeg = inr p →
  Forall (λ w, w `sublist_of` remaining) p.
Proof.
  revert p.
  apply (waves_induction edges (λ remaining indeg res,
    ∀ p, res = inr p → Forall (λ w, w `sublist_of` remaining) p)).
  - by intros _ p [= <-].
  - intros; discriminate.
  - clear remaining indeg.
    intros remaining indeg wave Hw Hne remaining1 indeg1 IH p Hp.
    apply prepend_inr in Hp as (p' & Hp' & ->).
    constructor.
    + rewrite <- Hw. apply sublist_filter.
    + eapply Forall_impl; [by apply IH|]. simpl. intros w Hsub.
      etrans; [exact Hsub|]. subst remaining1.
      rewrite list_difference_filter. apply sublist_filter.
Qed.

Lemma firstDuplicate_perm ids ids' :
  ids ≡ₚ ids' → firstDuplicate ids = None ↔ firstDuplicate ids' = None.
Proof. intros Hperm. rewrite !firstDuplicate_None. by rewrite Hperm. Qed.

Lemma firstDangling_perm ids ids' edges edges' :
  ids ≡ₚ ids' → edges ≡ₚ edges' →
  firstDangling ids edges = None ↔ firstDangling ids' edges' = None.
Proof.
  intros Hids Hedges. rewrite !firstDangling_None.
  split; intros Hall e He.
  - rewrite <- Hids. apply Hall. by rewrite Hedges.
  - rewrite Hids. apply Hall. by rewrite <- Hedges.
Qed.

Lemma buildPlan_perm nodes nodes' edges edges' :
  nodes ≡ₚ nodes' → edges ≡ₚ edges' →
  planEquivalent (buildPlan nodes edges) (buildPlan nodes' edges').
Proof.
  intros Hnodes Hedges.
  assert (Hids : map id nodes ≡ₚ map id nodes') by (by apply Permutation_map).
  unfold buildPlan.
  pose proof (firstDuplicate_perm _ _ Hids) as Hdup.
  pose proof (firstDangling_perm _ _ _ _ Hids Hedges) as Hdang.
  destruct (firstDuplicate (map id nodes)) as [i|],
           (firstDuplicate (map id nodes')) as [i'|]; simpl; try done;
    try (by destruct Hdup as [H1 H2]; (discriminate H1 || discriminate H2)).
  destruct (firstDangling (map id nodes) edges) as [e|],
           (firstDangling (map id nodes') edges') as [e'|]; simpl; try done;
    try (by destruct Hdang as [H1 H2]; (discriminate H1 || discriminate H2)).
  rewrite (inDegrees_perm _ _ _ _ Hids Hedges).
  by apply waves_perm.
Qed.

Lemma buildPlan_edges_perm nodes edges edges' :
  edges ≡ₚ edges' →
  match buildPlan nodes edges with
  | inl (DanglingEdge _) => ∃ e', buildPlan nodes edges' = inl (DanglingEdge e')
  | r => buildPlan nodes edges' = r
  end.
Proof.
  intros Hedges. unfold buildPlan.
  destruct (firstDuplicate (map id nodes)) as [i|]; [done|].
  pose proof (firstDangling_perm (map id nodes) (map id nodes) _ _
                (reflexivity _) Hedges) as Hdang.
  destruct (firstDangling (map id nodes) edges) as [e|],
           (firstDangling (map id nodes) edges') as [e'|];
    try (by destruct Hdang as [H1 H2]; (discriminate H1 || discriminate H2)).
  - by exists e'.
  - rewrite <- (inDegrees_perm (map id nodes) (map id nodes) edges edges') by done.
    rewrite <- (waves_edges_perm edges edges') by done.
    destruct (waves edges _ _) as [[]|]; eauto.
Qed.

(** C8 as stated fails on the plan builder: the arrays [A; B] and [B; A]
    are permutations of each other, and the plans built from them (with
    no edges) differ, the single wave following the input order. *)
Lemma buildPlan_node_order_counterexample :
  let a := mkNode "A" "t" ∅ in
  let b := mkNode "B" "t" ∅ in
  [a; b] ≡ₚ [b; a]
  ∧ generateExecutionPlan [a; b] [] = inr [["A"; "B"]]
  ∧ generateExecutionPlan [b; a] [] = inr [["B"; "A"]]
  ∧ generateExecutionPlan [a; b] [] ≠ generateExecutionPlan [b; a] [].
Proof.
  split_and!; [apply perm_swap|vm_compute; reflexivity..|].
  vm_compute. discriminate.
Qed.

(** C8 (amended): the plan builder is a function of its two arrays; a
    permutation of the edge array leaves its result unchanged (only which
    dangling edge is reported may change); a permutation of the node array
    leaves the sequence of waves unchanged up to the order of the ids
    inside each wave (and inside a reported cycle set), and inside a wave
    the ids stand in the order of the node array. *)
Theorem buildPlan_reordering (nodes nodes' : list FlowNode) (edges edges' : list Edge) :
  nodes ≡ₚ nodes' →
  edges ≡ₚ edges' →
  (∀ r1 r2, r1 = generateExecutionPlan nodes edges →
            r2 = generateExecutionPlan nodes edges → r1 = r2)
  ∧ match generateExecutionPlan nodes edges with
    | inl (DanglingEdge _) =>
        ∃ e', generateExecutionPlan nodes edges' = inl (DanglingEdge e')
    | r => generateExecutionPlan nodes edges' = r
    end
  ∧ planEquivalent (generateExecutionPlan nodes edges)
                   (generateExecutionPlan nodes' edges')
  ∧ ∀ p, generateExecutionPlan nodes edges = inr p →
         Forall (λ w, w `sublist_of` map id nodes) p.
Proof.
  intros Hnodes Hedges. unfold generateExecutionPlan. split_and!.
  - by intros r1 r2 -> ->.
  - by apply buildPlan_edges_perm.
  - by apply buildPlan_perm.
  - intros p. unfold buildPlan.
    destruct (firstDuplicate _); [done|]. destruct (firstDangling _ _); [done|].
    apply waves_sublist.
Qed.

(** The fan-in graph [A -> C], [B -> C], with both arrays reordered. *)
Definition fanInNodes : list FlowNode :=
  [mkNode "A" "ok" ∅; mkNode "B" "bad" ∅; mkNode "C" "ok" ∅].

Definition fanInEdges : list Edge :=
  [mkEdge "A" None "C" None; mkEdge "B" None "C" None].

Lemma buildPlan_reordering_witness :
  let nodes' := [mkNode "B" "bad" ∅; mkNode "A" "ok" ∅; mkNode "C" "ok" ∅] in
  let edges' := [mkEdge "B" None "C" None; mkEdge "A" None "C" None] in
  (∀ r1 r2, r1 = generateExecutionPlan fanInNodes fanInEdges →
            r2 = generateExecutionPlan fanInNodes fanInEdges → r1 = r2)
  ∧ match generateExecutionPlan fanInNodes fanInEdges with
    | inl (DanglingEdge _) =>
        ∃ e', generateExecutionPlan fanInNodes edges' = inl (DanglingEdge e')
    | r => generateExecutionPlan fanInNodes edges' = r
    end
  ∧ planEquivalent (generateExecutionPlan fanInNodes fanInEdges)
                   (generateExecutionPlan nodes' edges')
  ∧ ∀ p, generateExecutionPlan fanInNodes fanInEdges = inr p →
         Forall (λ w, w `sublist_of` map id fanInNodes) p.
Proof.
  apply (buildPlan_reordering fanInNodes
           [mkNode "B" "bad" ∅; mkNode "A" "ok" ∅; mkNode "C" "ok" ∅]
           fanInEdges
           [mkEdge "B" None "C" None; mkEdge "A" None "C" None]);
    apply perm_swap.
Defined.

End PlanFacts.

(** ** The flow executor *)

Module RunFacts.

Import ExecutionEngine PlanFacts.

(** What the executors of a run did, in the order they came to their end:
    the node's id with the result returned or the error thrown. *)
Definition Trace : Type := list (string * (string + JSValue)).

(** The state a result leaves its node in. *)
Definition resultStatus (r : string + JSValue) : Node.Status :=
  match r with
  | inr v => Node.Succeeded v
  | inl err => Node.Failed err
  end.

Definition failureOf (entry : string * (string + JSValue)) : option (string * string) :=
  match entry.2 with
  | inl err => Some (entry.1, err)
  | inr _ => None
  end.

(** The node whose executor an event brings to its end. *)
Definition completion (ev : Event) : option string :=
  match ev with
  | Complete n => Some n
  | _ => None
  end.

(** A node that was started and not aborted, and a node that was pruned. *)
Definition started (st : gmap string Node.Status) (n : string) : Prop :=
  match st !! n with
  | Some Node.Running | Some (Node.Succeeded _) | Some (Node.Failed _) => True
  | _ => False
  end.

Definition pruned (st : gmap string Node.Status) (n : string) : Prop :=
  match st !! n with
  | Some (Node.Failed _) | Some Node.Skipped => True
  | _ => False
  end.

Lemma resultStatus_inj r r' : resultStatus r = resultStatus r' → r = r'.
Proof. destruct r, r'; simpl; congruence. Qed.

Lemma abort_result s r : abort s = resultStatus r ↔ s = resultStatus r.
Proof. destruct s, r; simpl; split; congruence. Qed.

Lemma skipAll_lookup (ms : list string) (st : gmap string Node.Status) (x : string) :
  skipAll ms st !! x = if decide (x ∈ ms) then Some Node.Skipped else st !! x.
Proof.
  unfold skipAll. induction ms as [|m ms IH]; cbn [foldr].
  - by destruct (decide (x ∈ [])) as [?%elem_of_nil|].
  - destruct (decide (m = x)) as [->|Hne].
    + rewrite lookup_insert_eq, decide_True; [done|left].
    + rewrite lookup_insert_ne, IH by done.
      destruct (decide (x ∈ ms)).
      * rewrite decide_True; [done|by right].
      * rewrite decide_False; [done|]. intros [->|?]%elem_of_cons; done.
Qed.

Lemma omap_failureOf_app (tr : Trace) (entry : string * (string + JSValue)) :
  omap failureOf (tr ++ [entry])
  = omap failureOf tr ++ match entry.2 with
                         | inl err => [(entry.1, err)]
                         | inr _ => []
                         end.
Proof.
  rewrite omap_app. f_equal. unfold failureOf. simpl. by destruct (entry.2).
Qed.

Lemma elem_of_omap_failureOf (tr : Trace) (f err : string) :
  (f, err) ∈ omap failureOf tr ↔ (f, inl err) ∈ tr.
Proof.
  rewrite list_elem_of_omap. split.
  - intros ([n r] & Hin & Hf). unfold failureOf in Hf. simpl in Hf.
    destruct r as [e|v]; by simplify_eq.
  - intros Hin. by exists (f, inl err).
Qed.

(** *** The nodes reached from a node *)

Section Reach.

Variable edges : list Edge.

Lemma elem_of_inEdges (e : Edge) (n : string) :
  e ∈ inEdges edges n ↔ e ∈ edges ∧ target e = n.
Proof. unfold inEdges. rewrite list_elem_of_filter. tauto. Qed.

Lemma dependsOnAny_true (marked : list string) (m : string) :
  dependsOnAny edges marked m = true
  ↔ ∃ e, e ∈ edges ∧ target e = m ∧ source e ∈ marked.
Proof.
  unfold dependsOnAny. rewrite existsb_exists. split.
  - intros (e & [He Ht]%list_elem_of_In%elem_of_inEdges & Hs%bool_decide_eq_true).
    by exists e.
  - intros (e & He & Ht & Hs). exists e. split.
    + by apply list_elem_of_In, elem_of_inEdges.
    + by apply bool_decide_eq_true.
Qed.

Definition reach (marked : list string) (l : list string) : list string :=
  foldl (λ marked m, if dependsOnAny edges marked m then marked ++ [m] else marked)
        marked l.

Lemma reachedFrom_reach order n : reachedFrom edges order n = reach [n] order.
Proof. reflexivity. Qed.

Lemma reach_app marked l1 l2 : reach marked (l1 ++ l2) = reach (reach marked l1) l2.
Proof. apply foldl_app. Qed.

Lemma reach_mono l : ∀ marked x, x ∈ marked → x ∈ reach marked l.
Proof.
  induction l as [|m l IH]; intros marked x Hx; [done|].
  simpl. apply IH. destruct (dependsOnAny edges marked m); [|done].
  apply elem_of_app. by left.
Qed.

Lemma reach_elem l : ∀ marked x, x ∈ reach marked l → x ∈ marked ∨ x ∈ l.
Proof.
  induction l as [|m l IH]; intros marked x Hx; [by left|].
  simpl in Hx. apply IH in Hx as [Hx|Hx]; [|right; by right].
  destruct (dependsOnAny edges marked m); [|by left].
  apply elem_of_app in Hx as [Hx|Hx%list_elem_of_singleton]; [by left|].
  right. subst. left.
Qed.

Lemma reach_sound (n : string) l : ∀ marked,
  (∀ y, y ∈ marked → rtc (depends edges) n y) →
  ∀ x, x ∈ reach marked l → rtc (depends edges) n x.
Proof.
  induction l as [|m l IH]; intros marked Hm x Hx; [by apply Hm|].
  simpl in Hx. eapply IH; [|exact Hx]. intros y Hy.
  destruct (dependsOnAny edges marked m) eqn:Hd; [|by apply Hm].
  apply elem_of_app in Hy as [Hy|Hy%list_elem_of_singleton]; [by apply Hm|]. subst y.
  apply dependsOnAny_true in Hd as (e & He & Ht & Hs).
  eapply rtc_r; [by apply Hm|]. by exists e.
Qed.

Lemma reach_edge (e : Edge) (marked l1 l2 : list string) :
  e ∈ edges → NoDup (l1 ++ target e :: l2) → source e ∈ l1 →
  source e ∈ reach marked (l1 ++ target e :: l2) →
  target e ∈ reach marked (l1 ++ target e :: l2).
Proof.
  intros He Hnd Hs Hin. rewrite reach_app in Hin |- *. simpl in Hin |- *.
  apply NoDup_app in Hnd as (_ & Hdisj & _). specialize (Hdisj _ Hs).
  assert (Hs1 : source e ∈ reach marked l1).
  { apply reach_elem in Hin as [Hin|Hin].
    - destruct (dependsOnAny edges (reach marked l1) (target e)); [|done].
      apply elem_of_app in Hin as [Hin|Hin%list_elem_of_singleton]; [done|].
      exfalso. apply Hdisj. rewrite Hin. left.
    - exfalso. apply Hdisj. by right. }
  assert (Hd : dependsOnAny edges (reach marked l1) (target e) = true).
  { apply dependsOnAny_true. by exists e. }
  rewrite Hd. apply reach_mono, elem_of_app. right. by apply list_elem_of_singleton.
Qed.

End Reach.

(** *** The invariant of a run *)

Section Run.

Context {St : Type}.
Variable registry : gmap string (Executor St).
Variable nodes : list FlowNode.
Variable edges : list Edge.
Variable callback : option (UpdateCallback St).
Variable enginePublishes : bool.
Variable order : list string.

(** The caller's state holds a trace to which every executor adds its own
    entry when it is run and which the callback leaves as it is. *)
Variable traceOf : St → Trace.

Hypothesis executors_log : ∀ t ex (ctx : NodeExecutionContext St) s,
  registry !! t = Some ex →
  traceOf (ex ctx s).2 = traceOf s ++ [(id (node ctx), (ex ctx s).1)].

Hypothesis callback_silent : ∀ cb n v s,
  callback = Some cb → traceOf (cb n v s) = traceOf s.

(** The plan's order lists each node once, after the nodes it depends
    on. *)
Hypothesis order_NoDup : NoDup order.
Hypothesis edges_acyclic : acyclic edges.
Hypothesis edges_ordered : ∀ e, e ∈ edges →
  ∃ l1 l2, order = l1 ++ target e :: l2 ∧ source e ∈ l1.

Local Abbreviation lookupExecutor := (lookupExecutor registry nodes).
Local Abbreviation dependenciesSucceeded := (dependenciesSucceeded edges).
Local Abbreviation start := (start registry nodes edges).
Local Abbreviation reachedFrom := (reachedFrom edges).
Local Abbreviation fail := (fail edges order).
Local Abbreviation publish := (publish callback enginePublishes).
Local Abbreviation complete := (complete registry nodes edges callback enginePublishes order).
Local Abbreviation cancel := (cancel order).
Local Abbreviation step := (step registry nodes edges callback enginePublishes order).
Local Abbreviation runEvents :=
  (runEvents registry nodes edges callback enginePublishes order).

Lemma dependenciesSucceeded_true st n :
  dependenciesSucceeded st n = true ↔
  ∀ e, e ∈ edges → target e = n → succeeded st (source e) = true.
Proof.
  unfold ExecutionEngine.dependenciesSucceeded, inEdges.
  rewrite forallb_forall. split.
  - intros Hall e He Ht. apply Hall, list_elem_of_In, list_elem_of_filter. done.
  - intros Hall e [Ht He]%list_elem_of_In%list_elem_of_filter. by apply Hall.
Qed.

Lemma succeeded_true st n :
  succeeded st n = true ↔ ∃ v, st !! n = Some (Node.Succeeded v).
Proof.
  unfold succeeded. destruct (st !! n) as [[]|]; split; try done; eauto.
  all: by intros [? ?].
Qed.

Lemma pending_true st n : pending st n = true ↔ st !! n = Some Node.Pending.
Proof. unfold pending. destruct (st !! n) as [[]|]; split; done. Qed.

Lemma running_true st n : running st n = true ↔ st !! n = Some Node.Running.
Proof. unfold running. destruct (st !! n) as [[]|]; split; done. Qed.

Lemma unsettled_true st n :
  unsettled st n = true ↔ st !! n = Some Node.Pending ∨ st !! n = Some Node.Running.
Proof. unfold unsettled. by rewrite orb_true_iff, pending_true, running_true. Qed.

Lemma lookupExecutor_Some n nd ex :
  lookupExecutor n = Some (nd, ex) →
  id nd = n ∧ nd ∈ nodes ∧ registry !! type nd = Some ex.
Proof.
  unfold ExecutionEngine.lookupExecutor, findNode. intros Hl.
  destruct (head (filter (λ nd, id nd = n) nodes)) as [nd'|] eqn:Hh; [|done].
  simpl in Hl. destruct (registry !! type nd') as [ex'|] eqn:Hr; [|done].
  simpl in Hl. injection Hl as <- <-.
  apply head_Some_elem_of, list_elem_of_filter in Hh as [??]. done.
Qed.

Lemma lookupExecutor_is_Some n :
  unknownType registry nodes = None → n ∈ map id nodes →
  is_Some (lookupExecutor n).
Proof.
  unfold unknownType, ExecutionEngine.lookupExecutor, findNode.
  rewrite head_None. intros Hun Hn.
  apply list_elem_of_In, in_map_iff in Hn as (nd & <- & Hnd%list_elem_of_In).
  destruct (head (filter (λ nd', id nd' = id nd) nodes)) as [nd'|] eqn:Hh.
  - simpl. apply head_Some_elem_of, list_elem_of_filter in Hh as [_ Hin].
    destruct (registry !! type nd') as [ex|] eqn:Hr; [done|].
    exfalso. eapply (filter_nil_not_elem_of _ _ (type nd') Hun); [done|].
    apply list_elem_of_In, in_map, list_elem_of_In, Hin.
  - exfalso. apply head_None in Hh.
    by eapply (filter_nil_not_elem_of _ _ nd Hh).
Qed.

(** What holds of the run state [rs] and of the trace [tr] after the
    events [past]. *)
Record Inv (past : list Event) (rs : RunState) (tr : Trace) : Prop := mkInv {
  inv_dom : ∀ n, is_Some (statuses rs !! n) ↔ n ∈ order;
  inv_started : ∀ e, e ∈ edges → started (statuses rs) (target e) →
    ∃ v, statuses rs !! source e = Some (Node.Succeeded v);
  inv_pruned : ∀ e, e ∈ edges → pruned (statuses rs) (source e) →
    statuses rs !! target e = Some Node.Skipped;
  inv_trace : ∀ n r, (n, r) ∈ tr ↔ statuses rs !! n = Some (resultStatus r);
  inv_once : NoDup tr.*1;
  inv_failures : failures rs = omap failureOf tr;
  inv_skipped : cancelRequested rs = false →
    ∀ n, statuses rs !! n = Some Node.Skipped →
         ∃ f err, (f, inl err) ∈ tr ∧ tc (depends edges) f n;
  inv_cancelled : cancelRequested rs = true →
    ∀ n, unsettled (statuses rs) n = false;
  inv_flag : cancelRequested rs = true ↔ Cancel ∈ past;
  inv_past : ∀ e, e ∈ edges → Start (target e) ∈ past →
    ∃ v, statuses rs !! source e = Some (Node.Succeeded v);
  inv_completions : tr.*1 = omap completion past
}.

Lemma Inv_initial : Inv [] (initialState order) [].
Proof.
  assert (Hlk : ∀ n, statuses (initialState order) !! n
                     = if decide (n ∈ order) then Some Node.Pending else None).
  { intros n. simpl. destruct (decide (n ∈ order)) as [Hin|Hnin].
    - apply lookup_gset_to_gmap_Some. split; [|done]. by apply elem_of_list_to_set.
    - apply lookup_gset_to_gmap_None. by rewrite elem_of_list_to_set. }
  split.
  - intros n. rewrite Hlk. case_decide; [by split; eauto|].
    split; [by intros [? ?]|done].
  - intros e _. unfold started. rewrite Hlk. by case_decide.
  - intros e _. unfold pruned. rewrite Hlk. by case_decide.
  - intros n r. rewrite Hlk. split; [by intros ?%elem_of_nil|].
    case_decide; [|done]. by destruct r.
  - constructor.
  - done.
  - intros _ n. rewrite Hlk. by case_decide.
  - done.
  - simpl. split; [done|by intros ?%elem_of_nil].
  - intros e _ ?%elem_of_nil. done.
  - done.
Qed.

(** Each event keeps the invariant. *)
Lemma Inv_start past rs tr n rs' :
  Inv past rs tr → start n rs = Some rs' → Inv (past ++ [Start n]) rs' tr.
Proof.
  intros HI. unfold ExecutionEngine.start.
  destruct (pending (statuses rs) n) eqn:Hp; [|done].
  destruct (dependenciesSucceeded (statuses rs) n) eqn:Hd; [|done]. simpl.
  destruct (lookupExecutor n) as [p|]; [|done]. simpl. intros [= <-].
  apply pending_true in Hp.
  assert (Hdeps : ∀ e, e ∈ edges → target e = n →
                       ∃ v, statuses rs !! source e = Some (Node.Succeeded v)).
  { intros e He Ht. apply succeeded_true.
    by apply (proj1 (dependenciesSucceeded_true _ _) Hd). }
  assert (Hsrc : ∀ e, e ∈ edges → target e = n → source e ≠ n).
  { intros e He Ht Hs. destruct (Hdeps e He Ht) as [v Hv]. congruence. }
  destruct HI as [Hdom Hst Hpr Htr Honce Hfl Hsk Hca Hflag Hpast Hcomp].
  split; simpl.
  - intros m. rewrite <-Hdom. destruct (decide (n = m)) as [->|Hne].
    + rewrite lookup_insert_eq, Hp. split; eauto.
    + by rewrite lookup_insert_ne.
  - intros e He. unfold started. destruct (decide (target e = n)) as [Ht|Hne].
    + intros _. rewrite lookup_insert_ne by (intros ?; by eapply Hsrc). by apply Hdeps.
    + rewrite lookup_insert_ne by done. intros Hs.
      destruct (Hst e He Hs) as [v Hv]. exists v.
      rewrite lookup_insert_ne; [done|]. congruence.
  - intros e He. unfold pruned. destruct (decide (n = source e)) as [->|Hne].
    + by rewrite lookup_insert_eq.
    + rewrite lookup_insert_ne by done. intros Hs.
      pose proof (Hpr e He Hs) as Ht. rewrite lookup_insert_ne; [done|]. congruence.
  - intros m r. rewrite Htr. destruct (decide (n = m)) as [->|Hne].
    + rewrite lookup_insert_eq, Hp. by destruct r.
    + by rewrite lookup_insert_ne.
  - done.
  - done.
  - intros Hc m. destruct (decide (n = m)) as [->|Hne].
    + by rewrite lookup_insert_eq.
    + rewrite lookup_insert_ne by done. by apply Hsk.
  - intros Hc. specialize (Hca Hc n). apply not_true_iff_false in Hca.
    exfalso. apply Hca, unsettled_true. by left.
  - rewrite Hflag, elem_of_app, list_elem_of_singleton. split; [by left|].
    by intros [?|?].
  - intros e He [Hin|Hin%list_elem_of_singleton]%elem_of_app.
    + destruct (Hpast e He Hin) as [v Hv]. exists v.
      rewrite lookup_insert_ne; [done|]. congruence.
    + injection Hin as Ht. rewrite lookup_insert_ne by (intros ?; by eapply Hsrc).
      by apply Hdeps.
  - by rewrite omap_app, app_nil_r.
Qed.

Lemma Inv_succeed past rs tr n v :
  Inv past rs tr → statuses rs !! n = Some Node.Running →
  Inv (past ++ [Complete n]) (succeed n v rs) (tr ++ [(n, inr v)]).
Proof.
  intros [Hdom Hst Hpr Htr Honce Hfl Hsk Hca Hflag Hpast Hcomp] Hn.
  assert (Hfresh : ∀ r, (n, r) ∉ tr).
  { intros r Hin%Htr. rewrite Hn in Hin. by destruct r. }
  split; simpl.
  - intros m. rewrite <-Hdom. destruct (decide (n = m)) as [->|Hne].
    + rewrite lookup_insert_eq, Hn. split; eauto.
    + by rewrite lookup_insert_ne.
  - intros e He Hs.
    assert (Hs0 : started (statuses rs) (target e)).
    { revert Hs. unfold started. destruct (decide (n = target e)) as [<-|Hne].
      - by rewrite Hn.
      - by rewrite lookup_insert_ne. }
    destruct (Hst e He Hs0) as [w Hw].
    destruct (decide (n = source e)) as [->|Hne].
    + rewrite lookup_insert_eq. eauto.
    + rewrite lookup_insert_ne by done. eauto.
  - intros e He. unfold pruned. destruct (decide (n = source e)) as [->|Hne].
    + by rewrite lookup_insert_eq.
    + rewrite lookup_insert_ne by done. intros Hs.
      pose proof (Hpr e He Hs) as Ht. rewrite lookup_insert_ne; [done|]. congruence.
  - intros m r. rewrite elem_of_app, list_elem_of_singleton.
    destruct (decide (n = m)) as [->|Hne].
    + rewrite lookup_insert_eq. split.
      * intros [Hin|[= ->]]; [by apply Hfresh in Hin|done].
      * intros [= Hr]. right. f_equal.
        apply (resultStatus_inj (inr v) r) in Hr. by subst.
    + rewrite lookup_insert_ne by done. rewrite <-Htr. split; [|by left].
      intros [?|[= ? ?]]; [done|congruence].
  - rewrite fmap_app. apply NoDup_app. split_and!; [done| |apply NoDup_singleton].
    intros x Hx [= ->]%list_elem_of_singleton.
    apply list_elem_of_fmap in Hx as ([m r] & Heq & Hin). simpl in Heq. subst m.
    by apply Hfresh in Hin.
  - by rewrite omap_failureOf_app, app_nil_r.
  - intros Hc m. destruct (decide (n = m)) as [->|Hne].
    + by rewrite lookup_insert_eq.
    + rewrite lookup_insert_ne by done. intros Hm.
      destruct (Hsk Hc m Hm) as (f & err & Hin & Htc).
      exists f, err. split; [|done]. apply elem_of_app. by left.
  - intros Hc. specialize (Hca Hc n). apply not_true_iff_false in Hca.
    exfalso. apply Hca, unsettled_true. by right.
  - rewrite Hflag, elem_of_app, list_elem_of_singleton. split; [by left|].
    by intros [?|?].
  - intros e He [Hin|Hin%list_elem_of_singleton]%elem_of_app; [|done].
    destruct (Hpast e He Hin) as [w Hw].
    destruct (decide (n = source e)) as [->|Hne].
    + rewrite lookup_insert_eq. eauto.
    + rewrite lookup_insert_ne by done. eauto.
  - by rewrite fmap_app, omap_app, Hcomp.
Qed.

(** Nothing that a running node leads to has been started. *)
Lemma running_descendants past rs tr n m :
  Inv past rs tr → statuses rs !! n = Some Node.Running →
  rtc (depends edges) n m →
  (∀ v, statuses rs !! m ≠ Some (Node.Succeeded v))
  ∧ (m ≠ n → ¬ started (statuses rs) m).
Proof.
  intros HI Hn. revert m.
  apply (rtc_ind_r (λ m, (∀ v, statuses rs !! m ≠ Some (Node.Succeeded v))
                         ∧ (m ≠ n → ¬ started (statuses rs) m))).
  - split; [by rewrite Hn|done].
  - intros y z _ (e & He & <- & <-) [Hy _].
    assert (Hns : ¬ started (statuses rs) (target e)).
    { intros Hs. destruct (inv_started _ _ _ HI e He Hs) as [v Hv]. by eapply Hy. }
    split; [|done]. intros v Hv. apply Hns. unfold started. by rewrite Hv.
Qed.

Lemma fail_lookup n err rs m :
  statuses (fail n err rs) !! m
  = if decide (m = n) then Some (Node.Failed err)
    else if decide (m ∈ reachedFrom order n) then Some Node.Skipped
    else statuses rs !! m.
Proof.
  simpl. destruct (decide (m = n)) as [->|Hne].
  - by rewrite lookup_insert_eq.
  - rewrite lookup_insert_ne by done. apply skipAll_lookup.
Qed.

Lemma reachedFrom_closed n e :
  n ∈ order → e ∈ edges → source e ∈ reachedFrom order n →
  target e ∈ reachedFrom order n ∧ target e ≠ n.
Proof.
  intros Hn He Hs. split.
  - destruct (edges_ordered e He) as (l1 & l2 & Ho & Hl1).
    rewrite reachedFrom_reach, Ho in Hs |- *.
    apply reach_edge; [done| |done..]. by rewrite <-Ho.
  - intros Ht. apply (edges_acyclic n).
    eapply tc_rtc_l.
    + apply (reach_sound edges n order [n]); [|exact Hs].
      intros y ->%list_elem_of_singleton. apply rtc_refl.
    + apply tc_once. by exists e.
Qed.

Lemma Inv_fail past rs tr n err :
  Inv past rs tr → statuses rs !! n = Some Node.Running →
  Inv (past ++ [Complete n]) (fail n err rs) (tr ++ [(n, inl err)]).
Proof.
  intros HI Hn. pose proof HI as [Hdom Hst Hpr Htr Honce Hfl Hsk Hca Hflag Hpast Hcomp].
  assert (Hfresh : ∀ r, (n, r) ∉ tr).
  { intros r Hin%Htr. rewrite Hn in Hin. by destruct r. }
  assert (Hno : n ∈ order) by (apply Hdom; by rewrite Hn).
  assert (Hsound : ∀ m, m ∈ reachedFrom order n → rtc (depends edges) n m).
  { apply (reach_sound edges n order [n]).
    intros y ->%list_elem_of_singleton. apply rtc_refl. }
  assert (Hun : ∀ m, m ∈ reachedFrom order n → m ≠ n → ¬ started (statuses rs) m).
  { intros m Hm Hne.
    by apply (running_descendants past rs tr n m HI Hn (Hsound m Hm)). }
  assert (Hkeep : ∀ m v, statuses rs !! m = Some (Node.Succeeded v) →
                         statuses (fail n err rs) !! m = Some (Node.Succeeded v)).
  { intros m v Hm. rewrite fail_lookup.
    destruct (decide (m = n)) as [->|Hne]; [congruence|].
    destruct (decide (m ∈ reachedFrom order n)) as [Hin|]; [|done].
    exfalso. apply (Hun m Hin Hne). unfold started. by rewrite Hm. }
  assert (Hwas : ∀ m, started (statuses (fail n err rs)) m → started (statuses rs) m).
  { intros m. unfold started at 1. rewrite fail_lookup.
    destruct (decide (m = n)) as [->|Hne]; [intros _; unfold started; by rewrite Hn|].
    by destruct (decide (m ∈ reachedFrom order n)). }
  split.
  - intros m. rewrite fail_lookup. destruct (decide (m = n)) as [->|Hne].
    { split; [done|by eauto]. }
    destruct (decide (m ∈ reachedFrom order n)) as [Hin|]; [|apply Hdom].
    split; [intros _|by eauto].
    rewrite reachedFrom_reach in Hin.
    by apply reach_elem in Hin as [->%list_elem_of_singleton|?].
  - intros e He Hs%Hwas. destruct (Hst e He Hs) as [v Hv]. eauto.
  - intros e He. unfold pruned at 1. rewrite fail_lookup.
    assert (Hreached : source e ∈ reachedFrom order n →
                       statuses (fail n err rs) !! target e = Some Node.Skipped).
    { intros Hin. destruct (reachedFrom_closed n e Hno He Hin) as [Ht Hne].
      rewrite fail_lookup, decide_False, decide_True by done. done. }
    destruct (decide (source e = n)) as [Hs|Hne].
    { intros _. apply Hreached. rewrite Hs, reachedFrom_reach.
      apply reach_mono. by apply list_elem_of_singleton. }
    destruct (decide (source e ∈ reachedFrom order n)) as [Hin|Hnin]; [by auto|].
    intros Hs. pose proof (Hpr e He Hs) as Ht. rewrite fail_lookup.
    destruct (decide (target e = n)) as [Htn|_]; [congruence|].
    by destruct (decide (target e ∈ reachedFrom order n)).
  - intros m r. rewrite elem_of_app, list_elem_of_singleton, fail_lookup.
    destruct (decide (m = n)) as [->|Hne].
    + split.
      * intros [Hin|[= ->]]; [by apply Hfresh in Hin|done].
      * intros [= Hr]. right. f_equal.
        apply (resultStatus_inj (inl err) r) in Hr. by subst.
    + destruct (decide (m ∈ reachedFrom order n)) as [Hin|Hnin].
      * split; [|by destruct r].
        intros [Hm%Htr|[= ? ?]]; [|done].
        exfalso. apply (Hun m Hin Hne). unfold started. rewrite Hm. by destruct r.
      * rewrite <-Htr. split; [|by left]. intros [?|[= ? ?]]; [done|congruence].
  - rewrite fmap_app. apply NoDup_app. split_and!; [done| |apply NoDup_singleton].
    intros x Hx [= ->]%list_elem_of_singleton.
    apply list_elem_of_fmap in Hx as ([m r] & Heq & Hin). simpl in Heq. subst m.
    by apply Hfresh in Hin.
  - simpl. by rewrite omap_failureOf_app, Hfl.
  - intros Hc m. rewrite fail_lookup.
    destruct (decide (m = n)) as [->|Hne]; [done|].
    destruct (decide (m ∈ reachedFrom order n)) as [Hin|Hnin].
    + intros _. exists n, err. split.
      * apply elem_of_app. right. by apply list_elem_of_singleton.
      * apply Hsound, rtc_tc in Hin as [?|?]; [congruence|done].
    + intros Hm. destruct (Hsk Hc m Hm) as (f & err' & Hin & Htc).
      exists f, err'. split; [|done]. apply elem_of_app. by left.
  - intros Hc. specialize (Hca Hc n). apply not_true_iff_false in Hca.
    exfalso. apply Hca, unsettled_true. by right.
  - simpl. rewrite Hflag, elem_of_app, list_elem_of_singleton. split; [by left|].
    by intros [?|?].
  - intros e He [Hin|Hin%list_elem_of_singleton]%elem_of_app; [|done].
    destruct (Hpast e He Hin) as [w Hw]. eauto.
  - by rewrite fmap_app, omap_app, Hcomp.
Qed.

Lemma Inv_cancel past rs tr rs' :
  Inv past rs tr → cancel rs = Some rs' → Inv (past ++ [Cancel]) rs' tr.
Proof.
  intros [Hdom Hst Hpr Htr Honce Hfl Hsk Hca Hflag Hpast Hcomp].
  unfold ExecutionEngine.cancel.
  destruct (existsb _ _); [|done]. intros [= <-]. split; simpl.
  - intros m. rewrite lookup_fmap, <-Hdom. by rewrite fmap_is_Some.
  - intros e He Hs.
    assert (Hs0 : started (statuses rs) (target e)).
    { revert Hs. unfold started. rewrite lookup_fmap.
      by destruct (statuses rs !! target e) as [[]|]. }
    destruct (Hst e He Hs0) as [v Hv]. exists v. by rewrite lookup_fmap, Hv.
  - intros e He Hs. rewrite lookup_fmap.
    destruct (statuses rs !! target e) as [[| |v|err|]|] eqn:Ht; simpl; try done.
    + assert (Hs0 : started (statuses rs) (target e)) by (unfold started; by rewrite Ht).
      destruct (Hst e He Hs0) as [w Hw]. revert Hs. unfold pruned.
      by rewrite lookup_fmap, Hw.
    + assert (Hs0 : started (statuses rs) (target e)) by (unfold started; by rewrite Ht).
      destruct (Hst e He Hs0) as [w Hw]. revert Hs. unfold pruned.
      by rewrite lookup_fmap, Hw.
    + exfalso. assert (Hin : target e ∈ order).
      { destruct (edges_ordered e He) as (l1 & l2 & -> & _).
        apply elem_of_app. right. left. }
      apply Hdom in Hin as [? ?]. congruence.
  - intros m r. rewrite Htr, lookup_fmap.
    destruct (statuses rs !! m) as [s0|]; simpl; [|done].
    split.
    + intros [= ->]. f_equal. exact (proj2 (abort_result _ r) eq_refl).
    + intros [= Hs]. f_equal. exact (proj1 (abort_result _ _) Hs).
  - done.
  - done.
  - done.
  - intros _ m. apply not_true_iff_false. rewrite unsettled_true, !lookup_fmap.
    destruct (statuses rs !! m) as [[]|]; simpl; intros [?|?]; done.
  - split; [intros _|done]. apply elem_of_app. right. by apply list_elem_of_singleton.
  - intros e He [Hin|Hin%list_elem_of_singleton]%elem_of_app; [|done].
    destruct (Hpast e He Hin) as [w Hw]. exists w. by rewrite lookup_fmap, Hw.
  - by rewrite omap_app, app_nil_r.
Qed.

Lemma publish_trace n v s : traceOf (publish n v s).2 = traceOf s.
Proof.
  unfold ExecutionEngine.publish. destruct callback as [cb|] eqn:Hcb; [|done].
  destruct enginePublishes; [|done]. simpl. by apply callback_silent.
Qed.

(** The end of a running executor: the executor is run once, on the node
    and on the inputs resolved at its start. *)
Lemma complete_Some n rs m :
  complete n rs = Some m →
  statuses rs !! n = Some Node.Running
  ∧ ∃ nd ex, lookupExecutor n = Some (nd, ex)
      ∧ ∀ s, let r := ex (mkContext nd (default ∅ (resolved rs !! n)) callback) s in
             m s = match r.1 with
                   | inr v => (succeed n v rs, (publish n v r.2).2)
                   | inl err => (fail n err rs, r.2)
                   end.
Proof.
  unfold ExecutionEngine.complete.
  destruct (running (statuses rs) n) eqn:Hr; [|done]. apply running_true in Hr.
  destruct (lookupExecutor n) as [[nd ex]|] eqn:Hl; [|done]. simpl.
  intros [= <-]. split; [done|]. exists nd, ex. split; [done|].
  intros s. simpl. unfold bind.
  destruct (ex _ s) as [[err|v] s1]; simpl; [done|].
  unfold ret. by destruct (publish n v s1) as [[] s2].
Qed.

Lemma Inv_complete past rs s n m :
  Inv past rs (traceOf s) → complete n rs = Some m →
  Inv (past ++ [Complete n]) (m s).1 (traceOf (m s).2).
Proof.
  intros HI (Hn & nd & ex & Hl & Hm)%complete_Some.
  destruct (lookupExecutor_Some _ _ _ Hl) as (Hid & _ & Hreg).
  specialize (Hm s). cbv zeta in Hm. rewrite Hm.
  pose proof (executors_log _ ex
                (mkContext nd (default ∅ (resolved rs !! n)) callback) s Hreg) as Hlog.
  simpl in Hlog. rewrite Hid in Hlog.
  destruct (ex _ s) as [[err|v] s1]; simpl in *.
  - rewrite Hlog. by apply Inv_fail.
  - rewrite publish_trace, Hlog. by apply Inv_succeed.
Qed.

Lemma Inv_step past rs s ev m :
  Inv past rs (traceOf s) → step ev rs = Some m →
  Inv (past ++ [ev]) (m s).1 (traceOf (m s).2).
Proof.
  intros HI. destruct ev as [n|n|]; simpl.
  - destruct (start n rs) as [rs'|] eqn:Hs; [|done]. simpl. intros [= <-].
    by eapply Inv_start.
  - by apply Inv_complete.
  - destruct (cancel rs) as [rs'|] eqn:Hs; [|done]. simpl. intros [= <-].
    by eapply Inv_cancel.
Qed.

Lemma runEvents_Inv events : ∀ past rs s rs' s',
  Inv past rs (traceOf s) →
  runEvents events rs s = Some (rs', s') →
  Inv (past ++ events) rs' (traceOf s').
Proof.
  induction events as [|ev events IH]; intros past rs s rs' s' HI; simpl.
  - intros [= <- <-]. by rewrite app_nil_r.
  - destruct (step ev rs) as [m|] eqn:Hs; [|done]. simpl.
    pose proof (Inv_step past rs s ev m HI Hs) as HI'.
    destruct (m s) as [rs1 s1]. simpl in HI'. intros Hrun.
    rewrite (assoc_L (++) past [ev] events : past ++ ev :: events = (past ++ [ev]) ++ events).
    by eapply IH.
Qed.

(** *** The run that walks the plan in order *)

Local Abbreviation sequentialEvents :=
  (sequentialEvents registry nodes edges callback enginePublishes order).

Lemma NoDup_split_eq {A} (x : A) (l1 l2 k1 k2 : list A) :
  NoDup (l1 ++ x :: l2) → l1 ++ x :: l2 = k1 ++ x :: k2 → l1 = k1.
Proof.
  revert k1. induction l1 as [|a l1 IH]; intros [|b k1] Hnd Heq; simpl in *.
  - done.
  - injection Heq as <- ->. apply NoDup_cons in Hnd as [Hx _].
    exfalso. apply Hx, elem_of_app. right. left.
  - injection Heq as -> <-. apply NoDup_cons in Hnd as [Hx _].
    exfalso. apply Hx, elem_of_app. right. left.
  - injection Heq as <- Heq. apply NoDup_cons in Hnd as [_ Hnd].
    f_equal. by apply IH.
Qed.

Lemma start_statuses n rs rs' :
  start n rs = Some rs' →
  statuses rs !! n = Some Node.Pending
  ∧ statuses rs' = <[n := Node.Running]> (statuses rs)
  ∧ cancelRequested rs' = cancelRequested rs
  ∧ is_Some (lookupExecutor n).
Proof.
  unfold ExecutionEngine.start.
  destruct (pending (statuses rs) n) eqn:Hp; [|done]. apply pending_true in Hp.
  destruct (dependenciesSucceeded (statuses rs) n); [|done]. simpl.
  destruct (lookupExecutor n) as [p|]; [|done]. simpl. intros [= <-]. eauto.
Qed.

Lemma complete_statuses n rs m s :
  complete n rs = Some m →
  (∃ r, statuses (m s).1 !! n = Some (resultStatus r))
  ∧ cancelRequested (m s).1 = cancelRequested rs
  ∧ ∀ x, x ≠ n → statuses (m s).1 !! x = statuses rs !! x
                 ∨ statuses (m s).1 !! x = Some Node.Skipped.
Proof.
  intros (Hn & nd & ex & Hl & Hm)%complete_Some. specialize (Hm s).
  cbv zeta in Hm. rewrite Hm. destruct (ex _ s) as [[err|v] s1]; simpl.
  - split_and!; [exists (inl err); by rewrite lookup_insert_eq|done|].
    intros x Hx. rewrite lookup_insert_ne by done. rewrite skipAll_lookup.
    destruct (decide (x ∈ reachedFrom order n)); auto.
  - split_and!; [exists (inr v); by rewrite lookup_insert_eq|done|].
    intros x Hx. left. by rewrite lookup_insert_ne.
Qed.

(** Walking the plan in order brings the engine to the end of the run,
    whatever the executors do: when a node's turn comes, the nodes it
    depends on are settled, so it is started unless one of them was
    pruned, in which case it has been skipped. *)
Lemma sequential_run (Hexec : ∀ n, n ∈ order → is_Some (lookupExecutor n)) todo :
  ∀ done past rs s,
    order = done ++ todo →
    Inv past rs (traceOf s) →
    cancelRequested rs = false →
    (∀ x, running (statuses rs) x = false) →
    (∀ x, x ∈ done → pending (statuses rs) x = false) →
    ∃ rs' s', runEvents (sequentialEvents todo rs s) rs s = Some (rs', s')
              ∧ finished order rs' = true
              ∧ cancelRequested rs' = false.
Proof.
  induction todo as [|n rest IH]; intros done past rs s Horder HI Hflag Hrun Hdone.
  - rewrite app_nil_r in Horder. subst done. exists rs, s. split_and!; [done| |done].
    unfold finished. apply negb_true_iff, not_true_iff_false.
    intros (x & Hx%list_elem_of_In & Hu)%existsb_exists.
    unfold unsettled in Hu. by rewrite (Hdone x Hx), (Hrun x) in Hu.
  - assert (Horder' : order = (done ++ [n]) ++ rest) by (by rewrite <-app_assoc).
    assert (Hn : n ∈ order).
    { rewrite Horder. apply elem_of_app. right. left. }
    cbn [ExecutionEngine.sequentialEvents].
    destruct (start n rs) as [rs1|] eqn:Hstart.
    + pose proof (Inv_start _ _ _ _ _ HI Hstart) as HI1.
      destruct (start_statuses _ _ _ Hstart) as (Hp & Hst1 & Hflag1 & [[nd ex] Hl]).
      assert (Hc : ∃ m, complete n rs1 = Some m).
      { unfold ExecutionEngine.complete.
        assert (running (statuses rs1) n = true) as ->
          by (apply running_true; by rewrite Hst1, lookup_insert_eq).
        rewrite Hl. simpl. by eexists. }
      destruct Hc as [m Hm]. rewrite Hm.
      pose proof (Inv_complete _ _ s _ _ HI1 Hm) as HI2.
      destruct (complete_statuses n rs1 m s Hm) as ([r Hr] & Hflag2 & Hother).
      assert (Hkeep : ∀ x, x ≠ n → statuses (m s).1 !! x = statuses rs !! x
                                   ∨ statuses (m s).1 !! x = Some Node.Skipped).
      { intros x Hx. destruct (Hother x Hx) as [Heq|?]; [left|by right].
        by rewrite Heq, Hst1, lookup_insert_ne. }
      destruct (IH (done ++ [n]) _ (m s).1 (m s).2 Horder' HI2) as (rs' & s' & Hr' & Hfin & Hc').
      * congruence.
      * intros x. unfold running. destruct (decide (x = n)) as [->|Hx].
        -- rewrite Hr. by destruct r.
        -- specialize (Hrun x). unfold running in Hrun.
           by destruct (Hkeep x Hx) as [-> | ->].
      * intros x Hx. unfold pending. destruct (decide (x = n)) as [->|Hxn].
        -- rewrite Hr. by destruct r.
        -- apply elem_of_app in Hx as [Hx|Hx%list_elem_of_singleton]; [|done].
           specialize (Hdone x Hx). unfold pending in Hdone.
           by destruct (Hkeep x Hxn) as [-> | ->].
      * exists rs', s'. split_and!; [|done..].
        cbn [ExecutionEngine.runEvents ExecutionEngine.step]. rewrite Hstart.
        cbn [fmap option_fmap option_map mbind option_bind ret].
        cbn [ExecutionEngine.runEvents ExecutionEngine.step]. rewrite Hm.
        cbn [mbind option_bind]. by destruct (m s).
    + apply (IH (done ++ [n]) past rs s Horder' HI Hflag Hrun).
      intros x [Hx| ->%list_elem_of_singleton]%elem_of_app; [by apply Hdone|].
      destruct (pending (statuses rs) n) eqn:Hp; [|done]. exfalso.
      apply pending_true in Hp.
      assert (Hdeps : dependenciesSucceeded (statuses rs) n = true).
      { apply dependenciesSucceeded_true. intros e He Ht.
        destruct (edges_ordered e He) as (l1 & l2 & Ho & Hs).
        assert (l1 = done) as ->.
        { rewrite Ht in Ho. eapply (NoDup_split_eq n); [|by rewrite <-Ho, <-Horder].
          by rewrite <-Ho. }
        specialize (Hdone _ Hs). specialize (Hrun (source e)).
        assert (Hso : source e ∈ order) by (rewrite Horder; apply elem_of_app; by left).
        apply (inv_dom _ _ _ HI) in Hso as [st Hst].
        unfold succeeded, pending, running in *. rewrite Hst in Hdone, Hrun |- *.
        destruct st as [| |v|err|]; try done.
        - assert (Hpr : pruned (statuses rs) (source e)) by (unfold pruned; by rewrite Hst).
          pose proof (inv_pruned _ _ _ HI e He Hpr) as Hsk. congruence.
        - assert (Hpr : pruned (statuses rs) (source e)) by (unfold pruned; by rewrite Hst).
          pose proof (inv_pruned _ _ _ HI e He Hpr) as Hsk. congruence. }
      revert Hstart. unfold ExecutionEngine.start.
      assert (pending (statuses rs) n = true) as -> by (by apply pending_true).
      rewrite Hdeps. simpl. by destruct (Hexec n Hn) as [p ->].
Qed.

(** *** The end of a run *)

Section Final.

Variable past : list Event.
Variable rs : RunState.
Variable tr : Trace.
Hypothesis HI : Inv past rs tr.




Hypothesis Hfinished : finished order rs = true.

Lemma final_settled n :
  n ∈ order →
  (∃ r, statuses rs !! n = Some (resultStatus r))
  ∨ statuses rs !! n = Some Node.Skipped.
Proof.
  intros Hn. unfold finished in Hfinished. apply negb_true_iff in Hfinished.
  assert (Hu : unsettled (statuses rs) n = false).
  { destruct (unsettled (statuses rs) n) eqn:Hu; [|done].
    assert (existsb (unsettled (statuses rs)) order = true); [|congruence].
    apply existsb_exists. exists n. split; [by apply list_elem_of_In|done]. }
  apply not_true_iff_false in Hu. rewrite unsettled_true in Hu.
  apply (inv_dom _ _ _ HI) in Hn as [s0 Hs].
  destruct s0 as [| |v|err|].
  - exfalso. apply Hu. by left.
  - exfalso. apply Hu. by right.
  - left. by exists (inr v).
  - left. by exists (inl err).
  - by right.
Qed.

Hypothesis Hnot_cancelled : cancelRequested rs = false.

Lemma final_unaffected_succeeded m :
  m ∈ order →
  (∀ g err, (g, inl err) ∈ tr → g ≠ m ∧ ¬ tc (depends edges) g m) →
  ∃ v, statuses rs !! m = Some (Node.Succeeded v) ∧ (m, inr v) ∈ tr.
Proof.
  intros Hm Hfree. destruct (final_settled m Hm) as [[[err|v] Hr]|Hsk].
  - apply (inv_trace _ _ _ HI) in Hr. by destruct (Hfree m err Hr).
  - exists v. split; [done|]. by apply (inv_trace _ _ _ HI).
  - destruct (inv_skipped _ _ _ HI Hnot_cancelled m Hsk) as (f & err & Hin & Htc).
    by destruct (Hfree f err Hin).
Qed.

Lemma final_completed_iff :
  terminalOf rs = Run.Completed
  ↔ ∀ n, n ∈ order → ∃ v, statuses rs !! n = Some (Node.Succeeded v).
Proof.
  unfold terminalOf. rewrite Hnot_cancelled, (inv_failures _ _ _ HI). split.
  - intros Hc n Hn. destruct (omap failureOf tr) as [|x l] eqn:Hf; [|done].
    destruct (final_unaffected_succeeded n Hn) as (v & Hv & _); [|by eauto].
    intros g err Hin%elem_of_omap_failureOf. rewrite Hf in Hin.
    by apply elem_of_nil in Hin.
  - intros Hall. destruct (omap failureOf tr) as [|[f err] l] eqn:Hf; [done|].
    exfalso. assert (Hin : (f, inl err) ∈ tr).
    { apply elem_of_omap_failureOf. rewrite Hf. left. }
    apply (inv_trace _ _ _ HI) in Hin.
    assert (Hfo : f ∈ order) by (apply (inv_dom _ _ _ HI); by rewrite Hin).
    destruct (Hall f Hfo) as [v Hv]. rewrite Hin in Hv. done.
Qed.

End Final.

Lemma omap_cons_inv {A B} (f : A → option B) (l : list A) (y : B) (ys : list B) :
  omap f l = y :: ys →
  ∃ l1 x l2, l = l1 ++ x :: l2 ∧ Forall (λ a, f a = None) l1
             ∧ f x = Some y ∧ omap f l2 = ys.
Proof.
  induction l as [|a l IH]; [done|]. cbn [omap list_omap].
  destruct (f a) as [b|] eqn:Ha.
  - intros [= -> <-]. by exists [], a, l.
  - intros (l1 & x & l2 & -> & Hl1 & Hx & Hl2)%IH.
    exists (a :: l1), x, l2. split_and!; [done|by constructor|done..].
Qed.

(** The first failure of a run that was not cancelled is its primary
    cause, the later ones are the suppressed errors. *)
Lemma final_failed past rs tr :
  Inv past rs tr → cancelRequested rs = false →
  terminalOf rs ≠ Run.Completed →
  terminalOf rs = Run.Failed
  ∧ ∃ f err tr1 tr2,
      tr = tr1 ++ (f, inl err) :: tr2
      ∧ Forall (λ entry, ∃ v, entry.2 = inr v) tr1
      ∧ head (failures rs) = Some (f, err)
      ∧ statuses rs !! f = Some (Node.Failed err)
      ∧ tail (failures rs) = omap failureOf tr2.
Proof.
  intros HI Hc. unfold terminalOf. rewrite Hc, (inv_failures _ _ _ HI).
  destruct (omap failureOf tr) as [|[f err] l] eqn:Hf; [done|]. intros _.
  split; [done|].
  apply omap_cons_inv in Hf as (tr1 & [g r] & tr2 & -> & H1 & Hx & H2).
  unfold failureOf in Hx. simpl in Hx. destruct r as [err'|v]; [|done].
  injection Hx as -> ->.
  exists f, err, tr1, tr2. split_and!.
  - done.
  - eapply Forall_impl; [exact H1|]. intros [m [e|v]]; [done|]. by eexists.
  - done.
  - apply (proj1 (inv_trace _ _ _ HI f (inl err))). apply elem_of_app. right. left.
  - done.
Qed.

End Run.

(** *** Executors under observation *)

(** The executor [ex] under observation: it runs as it is, on the
    caller's state, and what it returned (or threw) is written to a trace
    kept beside that state.  Neither the engine nor the callback reads or
    writes the trace, so the trace tells which executors were run, in
    which order and with which outcome, whatever the engine records. *)
Definition lowerCallback {St} (tr : Trace) (cb : UpdateCallback (Trace * St))
  : UpdateCallback St :=
  λ n v s, (cb n v (tr, s)).2.

Definition liftCallback {St} (cb : UpdateCallback St) : UpdateCallback (Trace * St) :=
  λ n v ts, (ts.1, cb n v ts.2).

Definition observed {St} (ex : Executor St) : Executor (Trace * St) :=
  λ ctx ts,
    let r := ex (mkContext (node ctx) (inputs ctx)
                   (lowerCallback ts.1 <$> updateNodeOutput ctx)) ts.2 in
    (r.1, (ts.1 ++ [(id (node ctx), r.1)], r.2)).

Lemma observed_log {St} (registry : gmap string (Executor St)) t ex
    (ctx : NodeExecutionContext (Trace * St)) ts :
  (observed <$> registry) !! t = Some ex →
  (ex ctx ts).2.1 = ts.1 ++ [(id (node ctx), (ex ctx ts).1)].
Proof.
  rewrite lookup_fmap. destruct (registry !! t) as [ex0|]; [|done].
  by intros [= <-].
Qed.

Lemma liftCallback_silent {St} (callback : option (UpdateCallback St)) cb n v ts :
  liftCallback <$> callback = Some cb → (cb n v ts).1 = ts.1.
Proof. destruct callback as [cb0|]; [|done]. by intros [= <-]. Qed.

(** *** Runs of a plan *)

(** In the order of a plan every node stands once, after the nodes it
    depends on. *)
Lemma plan_order nodes edges p :
  wellFormedGraph nodes edges →
  buildPlan nodes edges = inr p →
  NoDup (executionOrder p)
  ∧ (∀ n, n ∈ executionOrder p ↔ n ∈ map id nodes)
  ∧ acyclic edges
  ∧ ∀ e, e ∈ edges →
         ∃ l1 l2, executionOrder p = l1 ++ target e :: l2 ∧ source e ∈ l1.
Proof.
  intros Hwf Hp. destruct (buildPlan_sound _ _ _ Hwf Hp) as [Hperm Hord].
  split_and!.
  - rewrite Hperm. apply Hwf.
  - intros n. by rewrite Hperm.
  - by eapply buildPlan_inr_acyclic.
  - intros e He. destruct (Hord e He) as (_ & i & j & Hi & Hj & Hlt).
    rewrite position_indexOf in Hi, Hj.
    apply indexOf_lookup in Hi, Hj.
    exists (take j (executionOrder p)), (drop (S j) (executionOrder p)). split.
    + symmetry. by apply take_drop_middle.
    + apply list_elem_of_lookup. exists i. by rewrite lookup_take_lt.
Qed.

Section Outcome.

Context {St : Type}.
Variable registry : gmap string (Executor St).
Variable nodes : list FlowNode.
Variable edges : list Edge.
Variable callback : option (UpdateCallback St).
Variable enginePublishes : bool.
Variable plan : Plan.
Variable events : list Event.
Variable s0 s : St.
Variable outcome : RunOutcome.
Variable tr : Trace.

Hypothesis Hwf : wellFormedGraph nodes edges.
Hypothesis Hplan : buildPlan nodes edges = inr plan.
Hypothesis Hrun :
  executeFlow (observed <$> registry) nodes edges (liftCallback <$> callback)
    enginePublishes plan events ([], s0) = Some (inr outcome, (tr, s)).

(** A run to its end leaves a state for which the invariant holds. *)
Lemma executeFlow_Inv :
  ∃ rs, outcome = outcomeOf rs
        ∧ finished (executionOrder plan) rs = true
        ∧ Inv edges (executionOrder plan) events rs tr.
Proof.
  revert Hrun. unfold executeFlow.
  destruct (unknownType _ nodes) as [t|]; [done|].
  destruct (runEvents _ _ _ _ _ _ _ _ _) as [[rs [tr' s']]|] eqn:Hr; [|done].
  simpl. destruct (finished _ rs) eqn:Hfin; [|done]. intros [= <- <- <-].
  exists rs. split_and!; [done..|].
  destruct (plan_order _ _ _ Hwf Hplan) as (Hnd & _ & Hac & Hord).
  apply (runEvents_Inv (observed <$> registry) nodes edges
           (liftCallback <$> callback) enginePublishes (executionOrder plan) fst
           (observed_log registry) (λ cb n v ts, liftCallback_silent callback cb n v ts)
           Hnd Hac Hord events [] (initialState (executionOrder plan)) ([], s0)
           rs (tr', s') (Inv_initial edges (executionOrder plan)) Hr).
Qed.

End Outcome.

Lemma unknownType_observed {St} (registry : gmap string (Executor St)) nodes :
  unknownType registry nodes = None →
  unknownType (observed <$> registry) nodes = None.
Proof.
  unfold unknownType. rewrite !head_None. generalize (map type nodes).
  intros l. induction l as [|t l IH]; [done|]. rewrite !filter_cons.
  destruct (decide (registry !! t = None)) as [|Hsome]; [done|].
  rewrite decide_False; [done|]. by rewrite lookup_fmap, fmap_None.
Qed.

(** Every plan whose node types are all registered has a run to its end,
    whatever the executors do: the one that walks the plan in order. *)
Lemma sequential_run_ends {St : Type} (registry : gmap string (Executor St))
    (nodes : list FlowNode) (edges : list Edge)
    (callback : option (UpdateCallback St)) (enginePublishes : bool)
    (plan : Plan) (s0 : St) :
  wellFormedGraph nodes edges →
  buildPlan nodes edges = inr plan →
  unknownType registry nodes = None →
  ∃ outcome ts,
    executeFlow (observed <$> registry) nodes edges (liftCallback <$> callback)
      enginePublishes plan
      (sequentialEvents (observed <$> registry) nodes edges
         (liftCallback <$> callback) enginePublishes (executionOrder plan)
         (executionOrder plan) (initialState (executionOrder plan)) ([], s0))
      ([], s0)
    = Some (inr outcome, ts)
    ∧ terminal outcome ≠ Run.Cancelled.
Proof.
  intros Hwf Hplan Hun%unknownType_observed.
  destruct (plan_order _ _ _ Hwf Hplan) as (Hnd & Hmem & Hac & Hord).
  destruct (sequential_run (observed <$> registry) nodes edges
              (liftCallback <$> callback) enginePublishes (executionOrder plan) fst
              (observed_log registry)
              (λ cb n v ts, liftCallback_silent callback cb n v ts)
              Hnd Hac Hord) with (todo := executionOrder plan) (done := @nil string)
              (past := @nil Event) (rs := initialState (executionOrder plan))
              (s := (@nil (string * (string + JSValue)), s0))
    as (rs & ts & Hrun & Hfin & Hflag).
  - intros n Hn. apply lookupExecutor_is_Some; [done|]. by apply Hmem.
  - done.
  - apply Inv_initial.
  - done.
  - intros x. unfold running. simpl.
    destruct (gset_to_gmap Node.Pending _ !! x) as [st|] eqn:Hx; [|done].
    by apply lookup_gset_to_gmap_Some in Hx as [_ <-].
  - by intros x ?%elem_of_nil.
  - exists (outcomeOf rs), ts. unfold executeFlow.
    destruct (unknownType _ nodes) as [t|] eqn:Hu.
    { discriminate Hun. }
    destruct (runEvents _ _ _ _ _ _ _ _ _) as [[rs1 ts1]|]; [|discriminate Hrun].
    injection Hrun as -> ->. simpl.
    rewrite Hfin. split; [done|]. simpl. unfold terminalOf. rewrite Hflag.
    by destruct (failures rs).
Qed.

(** A graph with a failing node [A], its dependents [C] and [D], and an
    independent node [B]. *)
Definition okExecutor : Executor unit := λ _ s, (inr (JSString "x"), s).

Definition failingExecutor : Executor unit := λ _ s, (inl "boom", s).

Definition sampleRegistry : gmap string (Executor unit) :=
  <["ok" := okExecutor]> (<["bad" := failingExecutor]> ∅).

Definition branchNodes : list FlowNode :=
  [mkNode "A" "bad" ∅; mkNode "B" "ok" ∅; mkNode "C" "ok" ∅; mkNode "D" "ok" ∅].

Definition branchEdges : list Edge :=
  [mkEdge "A" None "C" None; mkEdge "C" None "D" None].

Definition branchPlan : Plan := [["A"; "B"]; ["C"]; ["D"]].

Lemma branch_wellFormed : wellFormedGraph branchNodes branchEdges.
Proof. apply wellFormedGraph_decide; vm_compute; reflexivity. Qed.

Lemma branch_plan : buildPlan branchNodes branchEdges = inr branchPlan.
Proof. vm_compute. reflexivity. Qed.





(** C5 as stated fails on a cancelled run: the signal is raised before
    any node is started; not every node succeeded, and the run ends
    [Cancelled], not [Failed], with no failing node to name. *)
Lemma terminal_state_cancel_counterexample :
  ∃ outcome tr,
    executeFlow (observed <$> sampleRegistry) branchNodes branchEdges None false
      branchPlan [Cancel] ([], tt)
    = Some (inr outcome, (tr, tt))
    ∧ nodeStates outcome !! "A" = Some Node.Skipped
    ∧ terminal outcome ≠ Run.Completed
    ∧ terminal outcome ≠ Run.Failed
    ∧ cause outcome = None.
Proof.
  eexists _, _. split; [vm_compute; reflexivity|]. by split_and!.
Qed.

(** C5 (amended): for every run that is not cancelled, the terminal state
    is [Completed] if and only if every node of the plan reached
    [Succeeded]; otherwise it is [Failed], and the outcome carries as its
    primary cause the id and the error of the node whose executor was the
    first to fail, the later failures being the suppressed errors.  A run
    that is cancelled ends [Cancelled], the results of the executors that
    succeeded being kept.  The run is any order of events that brings the
    engine to its end; which executor failed first is read off the trace
    the executors write themselves. *)
Theorem terminal_state {St : Type} (registry : gmap string (Executor St))
    (nodes : list FlowNode) (edges : list Edge)
    (callback : option (UpdateCallback St)) (enginePublishes : bool)
    (plan : Plan) (events : list Event) (s0 s : St)
    (outcome : RunOutcome) (tr : Trace) :
  wellFormedGraph nodes edges →
  buildPlan nodes edges = inr plan →
  executeFlow (observed <$> registry) nodes edges (liftCallback <$> callback)
    enginePublishes plan events ([], s0) = Some (inr outcome, (tr, s)) →
  (Cancel ∈ events →
     terminal outcome = Run.Cancelled
     ∧ ∀ n v, (n, inr v) ∈ tr → nodeStates outcome !! n = Some (Node.Succeeded v))
  ∧ (Cancel ∉ events →
     (terminal outcome = Run.Completed
      ↔ ∀ n, n ∈ map id nodes →
             ∃ v, nodeStates outcome !! n = Some (Node.Succeeded v))
     ∧ (terminal outcome ≠ Run.Completed →
        terminal outcome = Run.Failed
        ∧ ∃ f err tr1 tr2,
            tr = tr1 ++ (f, inl err) :: tr2
            ∧ Forall (λ entry, ∃ v, entry.2 = inr v) tr1
            ∧ cause outcome = Some (f, err)
            ∧ nodeStates outcome !! f = Some (Node.Failed err)
            ∧ suppressed outcome = omap failureOf tr2)).
Proof.
  intros Hwf Hplan Hrun.
  destruct (executeFlow_Inv registry nodes edges callback enginePublishes plan
              events s0 s outcome tr Hwf Hplan Hrun) as (rs & -> & Hfin & HI).
  destruct (plan_order _ _ _ Hwf Hplan) as (_ & Hmem & _ & _).
  simpl. split.
  - intros Hc%(inv_flag _ _ _ _ _ HI). split.
    + unfold terminalOf. by rewrite Hc.
    + intros n v Hin. by apply (inv_trace _ _ _ _ _ HI n (inr v)).
  - intros Hnc.
    assert (Hflag : cancelRequested rs = false).
    { apply not_true_iff_false. by rewrite (inv_flag _ _ _ _ _ HI). }
    split.
    + rewrite (final_completed_iff edges (executionOrder plan) events rs tr HI Hfin Hflag).
      split; intros Hall n Hn; apply Hall; by apply Hmem.
    + intros Hne. by apply (final_failed edges (executionOrder plan) events rs tr HI Hflag).
Qed.

Lemma terminal_state_witness :
  (∃ outcome tr,
     executeFlow (observed <$> sampleRegistry) branchNodes branchEdges None false
       branchPlan [Start "B"; Start "A"; Complete "A"; Complete "B"] ([], tt)
     = Some (inr outcome, (tr, tt))
     ∧ terminal outcome = Run.Failed
     ∧ cause outcome = Some ("A", "boom")
     ∧ tr = [("A", inl "boom"); ("B", inr (JSString "x"))])
  ∧ (∃ outcome tr,
       executeFlow (observed <$> sampleRegistry) branchNodes branchEdges None false
         branchPlan [Start "B"; Complete "B"; Start "A"; Cancel] ([], tt)
       = Some (inr outcome, (tr, tt))
       ∧ terminal outcome = Run.Cancelled
       ∧ nodeStates outcome !! "B" = Some (Node.Succeeded (JSString "x"))).
Proof.
  split.
  - eexists _, _. split; [vm_compute; reflexivity|].
    destruct (terminal_state sampleRegistry branchNodes branchEdges None false
                branchPlan [Start "B"; Start "A"; Complete "A"; Complete "B"] tt tt
                _ _ branch_wellFormed branch_plan ltac:(vm_compute; reflexivity))
      as [_ Hrun].
    destruct Hrun as [_ Hfailed].
    { intros Hin. repeat (apply elem_of_cons in Hin as [Hin|Hin]; [discriminate Hin|]).
      by apply elem_of_nil in Hin. }
    destruct Hfailed as (Hterminal & f & err & tr1 & tr2 & _ & _ & Hcause & _).
    { vm_compute. discriminate. }
    split_and!; [exact Hterminal|reflexivity|reflexivity].
  - eexists _, _. split; [vm_compute; reflexivity|].
    destruct (terminal_state sampleRegistry branchNodes branchEdges None false
                branchPlan [Start "B"; Complete "B"; Start "A"; Cancel] tt tt
                _ _ branch_wellFormed branch_plan ltac:(vm_compute; reflexivity))
      as [Hcancelled _].
    destruct Hcancelled as [Hterminal Hkept].
    { do 3 right. left. }
    split; [exact Hterminal|]. apply Hkept. left.
Defined.

(** *** Result publication *)

(** Section 4.5 has the callback called for every successful invocation
    and names this the engine's side effect; the executor of
    [imageDescriptionOutputNode] calls the callback it is handed itself.
    On a plan with this one node, a run in which only the executor
    publishes calls the callback once, and a run in which the engine
    publishes as well calls it twice with the same pair; an executor that
    does not publish leaves a successful node unpublished unless the
    engine does it. *)
Definition recordCall : UpdateCallback (list (string * JSValue)) :=
  λ nodeId output log, log ++ [(nodeId, output)].

Definition describeNodes : list FlowNode :=
  [mkNode "out" "imageDescriptionOutputNode" ∅].

Definition describeRegistry : gmap string (Executor (list (string * JSValue))) :=
  <["imageDescriptionOutputNode" := ImageDescriptionOutput.execute inr]> ∅.

Definition silentRegistry : gmap string (Executor (list (string * JSValue))) :=
  <["imageDescriptionOutputNode" := λ _ log, (inr (JSString "x"), log)]> ∅.

Lemma publication_by_executor :
  ∃ outcome,
    executeFlow describeRegistry describeNodes [] (Some recordCall) false [["out"]]
      [Start "out"; Complete "out"] []
    = Some (inr outcome, [("out", JSString "")])
    ∧ nodeStates outcome !! "out" = Some (Node.Succeeded (JSString "")).
Proof. eexists. split; vm_compute; reflexivity. Qed.

Lemma publication_by_engine_and_executor :
  ∃ outcome,
    executeFlow describeRegistry describeNodes [] (Some recordCall) true [["out"]]
      [Start "out"; Complete "out"] []
    = Some (inr outcome, [("out", JSString ""); ("out", JSString "")])
    ∧ nodeStates outcome !! "out" = Some (Node.Succeeded (JSString "")).
Proof. eexists. split; vm_compute; reflexivity. Qed.

Lemma publication_by_silent_executor (enginePublishes : bool) :
  ∃ outcome,
    executeFlow silentRegistry describeNodes [] (Some recordCall) enginePublishes
      [["out"]] [Start "out"; Complete "out"] []
    = Some (inr outcome, if enginePublishes then [("out", JSString "x")] else [])
    ∧ nodeStates outcome !! "out" = Some (Node.Succeeded (JSString "x")).
Proof. destruct enginePublishes; eexists; split; vm_compute; reflexivity. Qed.

End RunFacts.

(** ** The executor of [imageDescriptionOutputNode]: what it reads *)

Module ExecutorInputFacts.

Import ImageDescriptionOutput.

(** The value a key contributes to the alias chain: its value when that
    is truthy, nothing otherwise. *)
Definition effective (inputs : Obj) (k : string) : option JSValue :=
  if truthy (getProp inputs k) then Some (getProp inputs k) else None.

Lemma js_or_effective (inputs : Obj) (k : string) (rest : JSValue) :
  js_or (getProp inputs k) rest = default rest (effective inputs k).
Proof. unfold js_or, effective. by destruct (truthy _). Qed.

Lemma js_or_assoc (a b c : JSValue) : js_or (js_or a b) c = js_or a (js_or b c).
Proof.
  unfold js_or. destruct (truthy a) eqn:Ha; [by rewrite Ha|].
  by destruct (truthy b) eqn:Hb.
Qed.

Lemma resolveInput_effective (inputs : Obj) :
  resolveInput inputs
  = default (default (default (JSString "") (effective inputs "default"))
                     (effective inputs "text-in"))
            (effective inputs "text").
Proof.
  unfold resolveInput. rewrite !js_or_assoc. by rewrite !js_or_effective.
Qed.

Section Facts.

Variable JSON_stringify : JSValue → string + JSValue.
Context {St : Type}.

(** X1: the executor reads the node's id and the truthy values under
    ["text"], ["text-in"] and ["default"], and nothing else: two contexts
    that agree on these have the same return value and make the same
    call of the callback, whatever the node's type and data, the other
    inputs, and the falsy values under the three keys. *)
Theorem executor_reads_three_keys (nd nd' : FlowNode) (inputs inputs' : Obj)
    (callback : option (UpdateCallback St)) (s : St) :
  id nd = id nd' →
  (∀ k, k ∈ ["text"; "text-in"; "default"] → effective inputs k = effective inputs' k) →
  executeImageDescriptionOutput JSON_stringify (mkContext nd inputs callback) s
  = executeImageDescriptionOutput JSON_stringify (mkContext nd' inputs' callback) s.
Proof.
  intros Hid Hkeys.
  assert (Hres : resolveInput inputs = resolveInput inputs').
  { rewrite !resolveInput_effective.
    rewrite (Hkeys "text"), (Hkeys "text-in"), (Hkeys "default"); [done|set_solver..]. }
  unfold executeImageDescriptionOutput. simpl. by rewrite Hres, Hid.
Qed.

(** X2: the value the executor works on is a truthy value or the empty
    string, so [JSON.stringify] is only ever called on a truthy value
    that is not a string; when it returns a string on those (without
    throwing), the executor returns a string. *)
Theorem executor_returns_string (context : NodeExecutionContext St) (s : St) :
  (∀ v, truthy v = true → ∃ str, JSON_stringify v = inr (JSString str)) →
  (truthy (resolveInput (inputs context)) = true
   ∨ resolveInput (inputs context) = JSString "")
  ∧ ∃ str, (executeImageDescriptionOutput JSON_stringify context s).1
           = inr (JSString str).
Proof.
  intros Hjson.
  assert (Hr : truthy (resolveInput (inputs context)) = true
               ∨ resolveInput (inputs context) = JSString "").
  { unfold resolveInput.
    set (x := js_or (js_or (getProp (inputs context) "text")
                           (getProp (inputs context) "text-in"))
                    (getProp (inputs context) "default")).
    unfold js_or. destruct (truthy x) eqn:Ht; auto. }
  split; [done|].
  assert (Hv : (executeImageDescriptionOutput JSON_stringify context s).1
               = renderOutput JSON_stringify (resolveInput (inputs context))).
  { apply ExecutorFacts.execute_value. }
  rewrite Hv. destruct Hr as [Ht| ->]; [|by exists ""].
  destruct (resolveInput (inputs context)) as [| |b|x|str|l] eqn:Hres;
    unfold renderOutput; cbn [typeof String.eqb Ascii.eqb Bool.eqb];
    first [by exists str | by apply Hjson].
Qed.

(** X26: given a callback, the executor calls it exactly once when it
    returns, on the node's id and the value it returns, and not at all
    when [JSON.stringify] throws; without a callback it leaves the state
    as it is. *)
Theorem executor_publishes_once (context : NodeExecutionContext St) (s : St) :
  let r := executeImageDescriptionOutput JSON_stringify context s in
  (∀ callback v, updateNodeOutput context = Some callback → r.1 = inr v →
                 r.2 = callback (id (node context)) v s)
  ∧ (∀ error, r.1 = inl error → r.2 = s)
  ∧ (updateNodeOutput context = None → r.2 = s).
Proof.
  unfold executeImageDescriptionOutput.
  destruct (renderOutput JSON_stringify (resolveInput (inputs context))) as [e|w];
    [by split_and!|].
  destruct (updateNodeOutput context) as [cb|]; simpl; split_and!; try done.
  by intros callback v [= <-] [= <-].
Qed.

End Facts.

Lemma executor_publishes_once_witness :
  (executeImageDescriptionOutput inr
     (mkContext (mkNode "out" "imageDescriptionOutputNode" ∅)
        {[ "text" := JSString "a cat" ]} (Some RunFacts.recordCall)) []).2
  = [("out", JSString "a cat")].
Proof.
  destruct (executor_publishes_once inr
              (mkContext (mkNode "out" "imageDescriptionOutputNode" ∅)
                 {[ "text" := JSString "a cat" ]} (Some RunFacts.recordCall)) [])
    as [Hcall _].
  exact (Hcall RunFacts.recordCall (JSString "a cat") eq_refl eq_refl).
Defined.

Lemma executor_reads_three_keys_witness :
  executeImageDescriptionOutput inr
    (mkContext (mkNode "out" "imageDescriptionOutputNode" ∅)
       {[ "text" := JSString ""; "default" := JSString "a cat" ]}
       (Some AppRunner.updateNodeOutput)) ∅
  = executeImageDescriptionOutput inr
      (mkContext (mkNode "out" "textOutputNode" {[ "label" := JSString "x" ]})
         {[ "default" := JSString "a cat"; "image" := JSNull ]}
         (Some AppRunner.updateNodeOutput)) ∅.
Proof.
  apply (executor_reads_three_keys inr
           (mkNode "out" "imageDescriptionOutputNode" ∅)
           (mkNode "out" "textOutputNode" {[ "label" := JSString "x" ]})
           {[ "text" := JSString ""; "default" := JSString "a cat" ]}
           {[ "default" := JSString "a cat"; "image" := JSNull ]}
           (Some AppRunner.updateNodeOutput) ∅).
  - reflexivity.
  - intros k Hk. repeat (apply elem_of_cons in Hk as [->|Hk]; [reflexivity|]).
    by apply elem_of_nil in Hk.
Defined.

Lemma executor_returns_string_witness :
  let context : NodeExecutionContext unit :=
    mkContext (mkNode "out" "imageDescriptionOutputNode" ∅)
              {[ "text" := JSBool true ]} None in
  (truthy (resolveInput (inputs context)) = true
   ∨ resolveInput (inputs context) = JSString "")
  ∧ ∃ str, (executeImageDescriptionOutput (λ _, inr (JSString "true")) context tt).1
           = inr (JSString str).
Proof.
  apply (executor_returns_string (λ _, inr (JSString "true"))
           (mkContext (mkNode "out" "imageDescriptionOutputNode" ∅)
              {[ "text" := JSBool true ]} None) tt).
  intros v _. by exists "true".
Defined.

End ExecutorInputFacts.

(** ** [OllamaClient]: requests, payloads and messages *)

Module RequestFacts.

Import OllamaClient ClientRequests HeapFacts ClientFacts.

(** *** Object literals *)

Lemma spreadInto_lookup (base src : Obj) k :
  spreadInto base src !! k = match src !! k with Some v => Some v | None => base !! k end.
Proof.
  unfold spreadInto. rewrite lookup_union. destruct (src !! k), (base !! k); done.
Qed.

Lemma objectLiteral_snoc parts p :
  objectLiteral (parts ++ [p])
  = match p with
    | Field k v => <[k := v]> (objectLiteral parts)
    | Spread src => spreadInto (objectLiteral parts) src
    end.
Proof. unfold objectLiteral. by rewrite foldl_app. Qed.

(** *** Payloads *)

Definition isOllama (config : Obj) : bool :=
  strictEqString (getProp config "type") "ollama".

(** X3: the payload of [sendChat].  With the Ollama type [stream] is
    [false] whatever the options say; with any other type an option named
    [stream] replaces the [false].  Apart from that, every option is part
    of the payload, also one named [model] or [messages]. *)
Theorem sendChat_payload (config : Obj) (model messages : JSValue)
    (options : Obj) (k : string) :
  sendChatPayload config model messages options !! k
  = if isOllama config && bool_decide (k = "stream") then Some (JSBool false)
    else match options !! k with
         | Some v => Some v
         | None => objectLiteral [Field "model" model; Field "messages" messages;
                                  Field "stream" (JSBool false)] !! k
         end.
Proof.
  unfold sendChatPayload, isOllama, objectLiteral.
  destruct (strictEqString _ _); cbn [andb foldl].
  - case_bool_decide as Hk.
    + subst k. apply lookup_insert_eq.
    + rewrite lookup_insert_ne by done. rewrite spreadInto_lookup.
      destruct (options !! k); [done|]. by rewrite (lookup_insert_ne _ "stream").
  - rewrite spreadInto_lookup. by destruct (options !! k).
Qed.

(** X4: the payloads of [generateWithImages].  With the Ollama type an
    option named [stream] replaces the [false] (unlike in [sendChat]).
    With any other type [max_tokens] is the option of that name whenever
    the options have one, also a falsy one, and 300 only when they have
    none. *)
Theorem generateWithImages_payload (model prompt imgs messages : JSValue)
    (options : Obj) :
  generateOllamaPayload model prompt imgs options !! "stream"
  = Some (default (JSBool false) (options !! "stream"))
  ∧ generateOpenAIPayload model messages options !! "max_tokens"
    = Some (default (JSNumber 300%float) (options !! "max_tokens")).
Proof.
  unfold generateOllamaPayload, generateOpenAIPayload, objectLiteral.
  cbn [foldl]. rewrite !spreadInto_lookup. split.
  - destruct (options !! "stream"); [done|]. apply lookup_insert_eq.
  - unfold getProp. destruct (options !! "max_tokens"); [done|].
    rewrite lookup_insert_eq. done.
Qed.

(** X5: the payload of [sendStructuredChat].  With the Ollama type
    [stream] is [false] and [format] is the option of that name if there
    is one, else the schema.  With any other type [messages] is the
    message list the method has built, whatever the options say. *)
Theorem sendStructuredChat_payload (config : Obj)
    (model messages format responseFormat newMessages : JSValue) (options : Obj) :
  let payload :=
    structuredPayload config model messages format responseFormat newMessages options in
  if isOllama config
  then payload !! "stream" = Some (JSBool false)
       ∧ payload !! "format" = Some (default format (options !! "format"))
       ∧ payload !! "messages" = Some (default messages (options !! "messages"))
  else payload !! "messages" = Some newMessages
       ∧ payload !! "stream" = Some (default (JSBool false) (options !! "stream"))
       ∧ payload !! "response_format"
         = Some (default responseFormat (options !! "response_format")).
Proof.
  unfold structuredPayload, isOllama, objectLiteral.
  destruct (strictEqString _ _); cbn [foldl]; split_and!.
  - apply lookup_insert_eq.
  - rewrite lookup_insert_ne by done. rewrite spreadInto_lookup.
    destruct (options !! "format"); [done|]. apply lookup_insert_eq.
  - rewrite lookup_insert_ne by done. rewrite spreadInto_lookup.
    destruct (options !! "messages"); [done|].
    rewrite lookup_insert_ne by done. apply lookup_insert_eq.
  - apply lookup_insert_eq.
  - rewrite lookup_insert_ne by done. rewrite spreadInto_lookup.
    destruct (options !! "stream"); [done|]. apply lookup_insert_eq.
  - rewrite lookup_insert_ne by done. rewrite spreadInto_lookup.
    destruct (options !! "response_format"); [done|].
    rewrite lookup_insert_ne by done. apply lookup_insert_eq.
Qed.

(** *** Headers *)

Section Headers.

Variable NumberToString : float → string.
Variable ObjectToString : loc → string.

Local Abbreviation requestHeaders := (requestHeaders NumberToString ObjectToString).
Local Abbreviation streamChatHeaders := (streamChatHeaders NumberToString ObjectToString).
Local Abbreviation listModelsHeaders := (listModelsHeaders NumberToString ObjectToString).

Lemma chatEndpoint_isOllama config :
  isOllamaEndpoint (chatEndpoint config) = isOllama config.
Proof. unfold chatEndpoint, isOllama. by destruct (strictEqString _ _). Qed.

(** X6: [sendChat], which goes through [request], and [streamChat], which
    builds its own headers, send the same headers: the key is sent as a
    bearer token exactly when it is truthy and the type is not the Ollama
    one. *)
Theorem chat_headers_agree (config : Obj) :
  requestHeaders config (chatEndpoint config) = streamChatHeaders config
  ∧ (streamChatHeaders config !! "Authorization"
     = if truthy (getProp config "apiKey") && negb (isOllama config)
       then Some ("Bearer " +:+ toTemplate NumberToString ObjectToString
                                           (getProp config "apiKey"))
       else None).
Proof.
  unfold ClientRequests.requestHeaders, ClientRequests.streamChatHeaders.
  rewrite chatEndpoint_isOllama. unfold isOllama. split; [done|].
  cbv zeta. destruct (_ && _).
  - apply lookup_insert_eq.
  - done.
Qed.

(** X7: with the Ollama type no request carries the key: neither the
    headers of [request] for an endpoint the client uses with that type,
    nor those of [streamChat] or [listModels] have an [Authorization]
    entry. *)
Theorem ollama_sends_no_key (config : Obj) (endpoint : string) :
  isOllama config = true →
  endpoint ∈ [chatEndpoint config; embeddingsEndpoint config; "/api/generate"] →
  requestHeaders config endpoint !! "Authorization" = None
  ∧ streamChatHeaders config !! "Authorization" = None
  ∧ listModelsHeaders config !! "Authorization" = None
  ∧ listModelsEndpoint config = "/api/tags".
Proof.
  unfold isOllama. intros Ho Hin.
  assert (He : isOllamaEndpoint endpoint = true).
  { unfold chatEndpoint, embeddingsEndpoint in Hin. rewrite Ho in Hin.
    set_unfold. by destruct Hin as [->|[->|[->|[]]]]. }
  unfold ClientRequests.requestHeaders, ClientRequests.streamChatHeaders,
    ClientRequests.listModelsHeaders, listModelsEndpoint.
  rewrite He, Ho. rewrite andb_false_r. cbv zeta.
  assert (strictEqString (getProp config "type") "openai" = false) as ->.
  { unfold strictEqString in *. destruct (getProp config "type"); try done.
    apply String.eqb_eq in Ho as ->. done. }
  done.
Qed.

Local Abbreviation request := (request NumberToString ObjectToString).

(** X8: [request] returns a value exactly when [fetch] delivers a
    response that is [ok] and whose body parses, and the value is that
    parsed body.  For a response that is not [ok] it throws; the message
    names the status unless that text itself contains ['Failed to
    fetch']. *)
Theorem request_outcome (fetch : string → FetchInit → Thrown + Response)
    (config : Obj) (endpoint method : string) (body value : JSValue) :
  let fetched :=
    fetch (requestUrl NumberToString ObjectToString config endpoint)
          (mkFetchInit method (requestHeaders config endpoint) "cors"
                       (if truthy body then Some body else None)) in
  (request fetch config endpoint method body = inr value
   ↔ ∃ response, fetched = inr response ∧ ok response = true
                 ∧ json response = inr value)
  ∧ (∀ response, fetched = inr response → ok response = false →
       let message := "Request failed: " +:+ NumberToString (status response)
                      +:+ " " +:+ statusText response in
       request fetch config endpoint method body
       = inl (if stringIncludes message "Failed to fetch"
              then connectionError NumberToString ObjectToString config
              else message)).
Proof.
  cbv zeta. unfold ClientRequests.request. split.
  - destruct (fetch _ _) as [thrown|response].
    + split.
      * destruct thrown as [message|]; [by destruct (stringIncludes _ _)|done].
      * by intros (? & ? & _).
    + destruct (ok response) eqn:Hok; simpl.
      * split.
        -- destruct (json response) as [[message|]|v] eqn:Hjson;
             [by destruct (stringIncludes _ _)|done|].
           intros [= <-]. by exists response.
        -- intros (? & [= <-] & _ & ->). done.
      * split; [by destruct (stringIncludes _ _)|].
        intros (? & [= <-] & ? & _). congruence.
  - intros response -> ->. simpl. by destruct (stringIncludes _ _).
Qed.

End Headers.

Lemma ollama_sends_no_key_witness :
  let config : Obj := {[ "apiKey" := JSString "secret"; "type" := JSString "ollama" ]} in
  requestHeaders (λ _, "") (λ _, "") config "/api/generate" !! "Authorization" = None
  ∧ streamChatHeaders (λ _, "") (λ _, "") config !! "Authorization" = None
  ∧ listModelsHeaders (λ _, "") (λ _, "") config !! "Authorization" = None
  ∧ listModelsEndpoint config = "/api/tags".
Proof.
  apply (ollama_sends_no_key (λ _, "") (λ _, "")
           {[ "apiKey" := JSString "secret"; "type" := JSString "ollama" ]}
           "/api/generate").
  - reflexivity.
  - set_solver.
Defined.

(** *** Messages *)

Lemma length_append (s t : string) :
  String.length (s +:+ t) = String.length s + String.length t.
Proof. induction s as [|c s IH]; simpl; [done|]. by rewrite IH. Qed.

Lemma imageUrl_prefix img : String.prefix "data:" (imageUrl img) = true.
Proof. unfold imageUrl. by destruct (String.prefix "data:" img) eqn:E. Qed.

(** How a prepared message relates to the message it was made from. *)
Definition preparedFrom (config : Obj) (m : ChatMessage) (p : PreparedMessage) : Prop :=
  match p with
  | Unchanged m' =>
      m' = m ∧ (isOllama config = true ∨ images m = None ∨ images m = Some [])
  | Multipart r parts =>
      isOllama config = false ∧ r = role m
      ∧ ∃ imgs urls, images m = Some imgs ∧ imgs ≠ []
          ∧ parts = TextPart (content m) :: (ImageUrlPart <$> urls)
          ∧ Forall2 (λ img url, String.prefix "data:" url = true
                                ∧ (String.prefix "data:" img = true → url = img))
                    imgs urls
  end.

(** X9: [prepareMessages] returns one entry per message, in order.  With
    the Ollama type, and for a message without images, the entry is the
    message itself; otherwise it has the message's role, its text as the
    first part and one image part per image, whose url starts with
    [data:] and is the image itself when that already does. *)
Theorem prepareMessages_entries (config : Obj) (messages : list ChatMessage) :
  Forall2 (preparedFrom config) messages (prepareMessages config messages).
Proof.
  unfold prepareMessages. fold (isOllama config).
  destruct (isOllama config) eqn:Ho; cbn [negb].
  - apply Forall2_fmap_r, Forall_Forall2_diag, Forall_forall. intros m _.
    unfold compose. simpl. auto.
  - apply Forall2_fmap_r, Forall_Forall2_diag, Forall_forall. intros m _.
    unfold compose, prepareMessage.
    destruct (images m) as [[|img imgs]|] eqn:Hi; cbn [preparedFrom]; auto.
    split; [done|]. split; [done|].
    exists (img :: imgs), (imageUrl <$> (img :: imgs)). split_and!; try done.
    + by rewrite <-list_fmap_compose.
    + apply Forall2_fmap_r, Forall_Forall2_diag, Forall_forall. intros i _.
      unfold compose. split; [apply imageUrl_prefix|]. unfold imageUrl. by intros ->.
Qed.

(** X10: the message [generateWithImages] sends for a prompt with images
    is the one [prepareMessages] would send for it exactly when there is
    an image and no image starts with [data:]: [generateWithImages]
    prefixes every image, also one that is a data url already, while
    [prepareMessages] prefixes an image once only. *)
Theorem image_url_prefixing (prompt img : string) (imgs : list string) :
  (visionMessage prompt imgs
   = prepareMessage (mkMessage user prompt (Some imgs) None)
   ↔ imgs ≠ [] ∧ Forall (λ i, String.prefix "data:" i = false) imgs)
  ∧ imageUrl (imageUrl img) = imageUrl img.
Proof.
  split.
  - unfold visionMessage, prepareMessage. cbn [images role content].
    destruct imgs as [|i0 imgs0].
    { split; [intros [=]|]. intros [Hne _]. by destruct Hne. }
    assert (Hne : i0 :: imgs0 ≠ []) by done. revert Hne.
    generalize (i0 :: imgs0). clear i0 imgs0. intros imgs Hne. split.
    + intros [= Heq]. split; [done|]. clear Hne.
      induction imgs as [|i imgs IH]; [done|].
      injection Heq as Hi Hrest. constructor; [|by apply IH].
      unfold imageUrl in Hi. destruct (String.prefix "data:" i); [|done].
      apply (f_equal String.length) in Hi. rewrite length_append in Hi.
      simpl in Hi. lia.
    + intros [_ Hall]. clear Hne.
      apply (f_equal (λ x, Multipart user (TextPart prompt :: x))).
      induction Hall as [|i imgs Hi _ IH]; [done|].
      simpl. rewrite IH. unfold imageUrl. by rewrite Hi.
  - unfold imageUrl at 1. by rewrite imageUrl_prefix.
Qed.

Definition isSystem (m : ChatMessage) : bool := bool_decide (role m = system).

Lemma findIndex_None {A} (p : A → bool) l :
  findIndex p l = None → Forall (λ x, p x = false) l.
Proof.
  induction l as [|x l IH]; simpl; [done|].
  destruct (p x) eqn:E; [done|]. destruct (findIndex p l); [done|]. auto.
Qed.

Lemma findIndex_Some {A} (p : A → bool) l i :
  findIndex p l = Some i →
  ∃ pre x post, l = pre ++ x :: post ∧ length pre = i
                ∧ Forall (λ y, p y = false) pre ∧ p x = true.
Proof.
  revert i. induction l as [|x l IH]; simpl; [done|]. intros i.
  destruct (p x) eqn:E.
  - intros [= <-]. by exists [], x, l.
  - destruct (findIndex p l) as [j|]; [|done]. intros [= <-].
    destruct (IH j eq_refl) as (pre & y & post & -> & Hlen & Hpre & Hy).
    exists (x :: pre), y, post. simpl. split_and!; auto.
Qed.

(** X11: the messages [sendStructuredChat] sends with a type other than
    the Ollama one.  Without a system message, a new system message with
    the schema description is put before the others; otherwise the
    description is appended, after an empty line, to the first system
    message only.  All other messages are unchanged and keep their
    order. *)
Theorem structuredMessages_first_system (messages : list ChatMessage)
    (schemaDescription : string) :
  (Forall (λ m, role m ≠ system) messages
   ∧ structuredMessages messages schemaDescription
     = mkMessage system schemaDescription None None :: messages)
  ∨ (∃ pre m post,
       messages = pre ++ m :: post
       ∧ Forall (λ m, role m ≠ system) pre
       ∧ role m = system
       ∧ structuredMessages messages schemaDescription
         = pre ++ mkMessage system
                    (content m +:+ newline +:+ newline +:+ schemaDescription)
                    (images m) (tool_calls m) :: post).
Proof.
  unfold structuredMessages.
  destruct (findIndex _ messages) as [i|] eqn:Hf.
  - right. apply findIndex_Some in Hf as (pre & m & post & -> & Hlen & Hpre & Hm).
    apply bool_decide_eq_true in Hm.
    exists pre, m, post. split_and!; try done.
    + eapply Forall_impl; [exact Hpre|]. intros y Hy. by apply bool_decide_eq_false in Hy.
    + subst i. rewrite alter_app_r_alt by done. rewrite Nat.sub_diag. simpl.
      unfold appendSchema. by rewrite Hm.
  - left. apply findIndex_None in Hf. split; [|done].
    eapply Forall_impl; [exact Hf|]. intros y Hy. by apply bool_decide_eq_false in Hy.
Qed.

(** X12: the payload of [generateEmbeddings] with a type other than the
    Ollama one, when the options have no [input] of their own: its
    [input] is an array, the given one if [input] is an array and else a
    new array whose only element is [input]; nothing else changes. *)
Theorem embeddings_input_is_array (h : Heap) (config : Obj) (model input : JSValue)
    (options : Obj) :
  isOllama config = false →
  options !! "input" = None →
  ∃ v, (embeddingsPayload h config model input options).1 !! "input" = Some v
       ∧ isArray (embeddingsPayload h config model input options).2 v = true
       ∧ if isArray h input
         then v = input ∧ (embeddingsPayload h config model input options).2 = h
         else ∃ l, v = JSRef l ∧ h !! l = None
                   ∧ (embeddingsPayload h config model input options).2
                     = <[l := CArr [input]]> h.
Proof.
  unfold isOllama, embeddingsPayload, objectLiteral. intros -> Hopt.
  destruct (isArray h input) eqn:Harr; cbn [foldl].
  - exists input. simpl. rewrite spreadInto_lookup, Hopt, lookup_insert_eq. done.
  - destruct (alloc h (CArr [input])) as [l h1] eqn:Ha.
    apply alloc_spec in Ha as [Hnone ->].
    exists (JSRef l). simpl. rewrite spreadInto_lookup, Hopt, !lookup_insert_eq.
    split_and!; try done. by exists l.
Qed.

Lemma embeddings_input_is_array_witness :
  ∃ v, (embeddingsPayload ∅ {[ "type" := JSString "openai" ]}
          (JSString "nomic") (JSString "hello") ∅).1 !! "input" = Some v
       ∧ isArray (embeddingsPayload ∅ {[ "type" := JSString "openai" ]}
                    (JSString "nomic") (JSString "hello") ∅).2 v = true
       ∧ ∃ l, v = JSRef l ∧ (∅ : Heap) !! l = None
              ∧ (embeddingsPayload ∅ {[ "type" := JSString "openai" ]}
                   (JSString "nomic") (JSString "hello") ∅).2
                = <[l := CArr [JSString "hello"]]> ∅.
Proof.
  apply (embeddings_input_is_array ∅ {[ "type" := JSString "openai" ]}
           (JSString "nomic") (JSString "hello") ∅); reflexivity.
Defined.

(** *** Responses *)

(** X13: for a chat-completions response that has [choices[0].message]
    but whose [usage] is [undefined] or [null], [sendChat] returns the
    message with an [eval_count] of 0, while [generateWithImages] throws
    a [TypeError]; when [generateWithImages] returns, both return the
    same content, and [sendChat] the same count unless that is falsy. *)
Theorem response_without_usage (h : Heap) (response : JSValue) (r : ChatResult) :
  chatResult h response = Some r →
  (optionalField h response "usage" = JSUndefined
   ∨ optionalField h response "usage" = JSNull →
   chatEvalCount r = JSNumber 0%float ∧ visionResult h response = None)
  ∧ (∀ v, visionResult h response = Some v →
          visionResponse v = messageContent r
          ∧ chatEvalCount r = js_or (visionEvalCount v) (JSNumber 0%float)).
Proof.
  unfold chatResult, visionResult, optionalField.
  destruct (getField h response "choices") as [choices|]; [|done]. simpl.
  destruct (getIndex h choices 0) as [first|]; [|done]. simpl.
  destruct (getField h first "message") as [message|]; [|done]. simpl.
  destruct (getField h message "content") as [content|]; [|done]. simpl.
  destruct (getField h message "role") as [role|]; [|done]. simpl.
  intros [= <-]. simpl.
  destruct (getField h response "usage") as [usage|] eqn:Hu; simpl.
  - split.
    + by intros [-> | ->].
    + intros v. destruct (getField h usage "total_tokens") as [total|] eqn:Ht;
        [|done]. simpl. by intros [= <-].
  - split; [|done]. by intros _.
Qed.

Lemma response_without_usage_witness :
  let h : Heap :=
    {[ 1%positive := CObj {[ "choices" := JSRef 2%positive ]};
       2%positive := CArr [JSRef 3%positive];
       3%positive := CObj {[ "message" := JSRef 4%positive ]};
       4%positive := CObj {[ "content" := JSString "a cat";
                             "role" := JSString "assistant" ]} ]} in
  let r := mkChatResult (JSString "a cat") (JSString "assistant") (JSNumber 0%float) in
  (optionalField h (JSRef 1%positive) "usage" = JSUndefined
   ∨ optionalField h (JSRef 1%positive) "usage" = JSNull →
   chatEvalCount r = JSNumber 0%float ∧ visionResult h (JSRef 1%positive) = None)
  ∧ (∀ v, visionResult h (JSRef 1%positive) = Some v →
          visionResponse v = messageContent r
          ∧ chatEvalCount r = js_or (visionEvalCount v) (JSNumber 0%float)).
Proof.
  apply (response_without_usage
           {[ 1%positive := CObj {[ "choices" := JSRef 2%positive ]};
              2%positive := CArr [JSRef 3%positive];
              3%positive := CObj {[ "message" := JSRef 4%positive ]};
              4%positive := CObj {[ "content" := JSString "a cat";
                                    "role" := JSString "assistant" ]} ]}
           (JSRef 1%positive)).
  reflexivity.
Defined.

(** *** The client object *)

Lemma optionalField_alloc (h : Heap) v k (o : Obj) :
  o !! k = None →
  optionalField (alloc h (CObj o)).2 v k = optionalField h v k.
Proof.
  intros Hk. destruct (alloc h (CObj o)) as [l h1] eqn:Ha.
  apply alloc_spec in Ha as [Hnone ->]. simpl.
  unfold optionalField, getField. destruct v as [| |b|x|s|r]; try done.
  destruct (decide (r = l)) as [->|Hne].
  - rewrite lookup_insert_eq, Hnone. unfold getProp. by rewrite Hk.
  - by rewrite lookup_insert_ne.
Qed.

(** What the constructor stores for a [baseUrl] and a [config] read in the
    heap [h]. *)
Definition storedConfig (h : Heap) (baseUrl config : JSValue) : Obj :=
  <[ "apiKey" := js_or (optionalField h config "apiKey") (JSString "") ]>
  (<[ "baseUrl" := baseUrl ]>
  (<[ "type" := js_or (optionalField h config "type") (JSString "ollama") ]> ∅)).

Lemma constructor_spec h baseUrl config this h' :
  constructor h baseUrl config = (this, h') →
  ∃ lc, isClient h' this lc (storedConfig h baseUrl config)
        ∧ h !! this = None ∧ h !! lc = None ∧ this ≠ lc
        ∧ h' !! this = Some (CObj (<["config" := JSRef lc]> {[ "abortController" := JSNull ]}))
        ∧ ∀ l, l ≠ this → l ≠ lc → h' !! l = h !! l.
Proof.
  unfold constructor.
  pose proof (optionalField_alloc h config "apiKey"
                {[ "abortController" := JSNull ]} eq_refl) as Hk.
  pose proof (optionalField_alloc h config "type"
                {[ "abortController" := JSNull ]} eq_refl) as Ht.
  destruct (alloc h _) as [t h1] eqn:H1. simpl in Hk, Ht. rewrite Hk, Ht.
  fold (storedConfig h baseUrl config).
  destruct (alloc h1 _) as [lc h2] eqn:H2.
  intros [= <- <-].
  apply alloc_spec in H1 as [Hnt ->].
  apply alloc_spec in H2 as [Hnc ->].
  assert (t ≠ lc) by (intros ->; by rewrite lookup_insert_eq in Hnc).
  rewrite lookup_insert_ne in Hnc by done.
  exists lc. unfold applyMutation.
  rewrite lookup_insert_ne, lookup_insert_eq by done.
  split_and!; try done.
  - eexists. rewrite lookup_insert_eq. split; [done|]. split.
    + apply lookup_insert_eq.
    + rewrite lookup_insert_ne by done. apply lookup_insert_eq.
  - apply lookup_insert_eq.
  - intros l ? ?. by rewrite !lookup_insert_ne.
Qed.

(** X14: a new client's configuration, as [getConfig] returns it, has the
    three properties [apiKey], [baseUrl] and [type] and no other: the
    base url is the constructor's first argument (a [baseUrl] of the
    second one is not read), the key and the type are those of the second
    argument when they are truthy, and the empty string and ['ollama']
    otherwise. *)
Theorem constructor_getConfig (h : Heap) (baseUrl config : JSValue) :
  let '(this, h1) := constructor h baseUrl config in
  let '(r, h2) := getConfig h1 this in
  ∃ cfg, h2 !! r = Some (CObj cfg)
    ∧ dom cfg = {[ "apiKey"; "baseUrl"; "type" ]}
    ∧ cfg !! "baseUrl" = Some baseUrl
    ∧ cfg !! "apiKey"
      = Some (if truthy (optionalField h config "apiKey")
              then optionalField h config "apiKey" else JSString "")
    ∧ cfg !! "type"
      = Some (if truthy (optionalField h config "type")
              then optionalField h config "type" else JSString "ollama").
Proof.
  destruct (constructor h baseUrl config) as [this h1] eqn:Hc.
  apply constructor_spec in Hc as (lc & Hcl & _).
  destruct (getConfig_spec _ _ _ _ Hcl) as (r & -> & _).
  exists (storedConfig h baseUrl config). rewrite lookup_insert_eq.
  split_and!; done.
Qed.

(** X15: the constructor copies what it reads from its [config] argument:
    whatever assignments and deletions are made on that object
    afterwards, [getConfig] returns the same properties as before. *)
Theorem constructor_copies_config (h : Heap) (baseUrl : JSValue) (l : loc)
    (ms : list Mutation) :
  is_Some (h !! l) →
  let '(this, h1) := constructor h baseUrl (JSRef l) in
  let '(r1, g1) := getConfig h1 this in
  let '(r2, g2) := getConfig (mutate l h1 ms) this in
  g1 !! r1 = Some (CObj (storedConfig h baseUrl (JSRef l)))
  ∧ g2 !! r2 = g1 !! r1.
Proof.
  intros Hl.
  destruct (constructor h baseUrl (JSRef l)) as [this h1] eqn:Hc.
  apply constructor_spec in Hc as (lc & Hcl & Hnt & Hnc & Hne & _ & Hframe).
  assert (l ≠ this) by (intros ->; rewrite Hnt in Hl; by destruct Hl).
  assert (l ≠ lc) by (intros ->; rewrite Hnc in Hl; by destruct Hl).
  assert (Hcl2 : isClient (mutate l h1 ms) this lc (storedConfig h baseUrl (JSRef l))).
  { eapply isClient_other_cells; [| |exact Hcl]; by rewrite mutate_other. }
  destruct (getConfig_spec _ _ _ _ Hcl) as (r1 & -> & _).
  destruct (getConfig_spec _ _ _ _ Hcl2) as (r2 & -> & _).
  by rewrite !lookup_insert_eq.
Qed.

Lemma constructor_copies_config_witness :
  let h : Heap := {[ 1%positive := CObj {[ "apiKey" := JSString "k";
                                           "type" := JSString "openai" ]} ]} in
  let ms := [SetProp "apiKey" (JSString "other"); DeleteProp "type"] in
  let '(this, h1) := constructor h (JSString "https://api") (JSRef 1%positive) in
  let '(r1, g1) := getConfig h1 this in
  let '(r2, g2) := getConfig (mutate 1%positive h1 ms) this in
  g1 !! r1 = Some (CObj (storedConfig h (JSString "https://api") (JSRef 1%positive)))
  ∧ g2 !! r2 = g1 !! r1.
Proof.
  apply (constructor_copies_config
           {[ 1%positive := CObj {[ "apiKey" := JSString "k";
                                    "type" := JSString "openai" ]} ]}
           (JSString "https://api") 1%positive
           [SetProp "apiKey" (JSString "other"); DeleteProp "type"]).
  by eexists.
Defined.

Section AbortStream.

(** The host's [abort] acts on the controller it is called on. *)
Variable abort : loc → Heap → Heap.
Hypothesis abort_frame : ∀ c h l, l ≠ c → abort c h !! l = h !! l.

(** X16: when [abortStream] returns, the [abortController] field is
    falsy, so that a second call changes nothing, and the configuration
    is the same as before; on a new client the first call changes nothing
    either. *)
Theorem abortStream_idempotent (h h1 : Heap) (this : loc) (o : Obj) :
  h !! this = Some (CObj o) →
  o !! "abortController" ≠ Some (JSRef this) →
  abortStream abort h this = Some h1 →
  abortStream abort h1 this = Some h1
  ∧ configOf h1 this = configOf h this
  ∧ (∃ v, getField h1 (JSRef this) "abortController" = Some v ∧ truthy v = false)
  ∧ ∀ baseUrl config, abortStream abort (constructor h baseUrl config).2
                                  (constructor h baseUrl config).1
                      = Some (constructor h baseUrl config).2.
Proof.
  intros Hthis Hself Hrun.
  assert (Hcases :
    (h1 = h ∧ truthy (getProp o "abortController") = false)
    ∨ h1 !! this = Some (CObj (<["abortController" := JSNull]> o))).
  { unfold abortStream, getField in Hrun. rewrite Hthis in Hrun.
    cbn [mbind option_bind] in Hrun.
    destruct (getProp o "abortController") as [| |b|x|s|c] eqn:Hc.
    1-5: left;
         match type of Hrun with
         | (if ?t then _ else _) = _ => destruct t eqn:Ht
         end; by simplify_eq.
    right. assert (this ≠ c).
    { intros ->. apply Hself. unfold getProp in Hc.
      by destruct (o !! "abortController"); simplify_eq/=. }
    simplify_eq.
    unfold applyMutation. by rewrite abort_frame, Hthis, lookup_insert_eq. }
  split_and!.
  - destruct Hcases as [[-> Hf]|H1].
    + unfold abortStream, getField. rewrite Hthis. simpl.
      destruct (getProp o "abortController"); try done; simpl in *; by rewrite ?Hf.
    + unfold abortStream, getField. rewrite H1. simpl.
      unfold getProp. by rewrite lookup_insert_eq.
  - destruct Hcases as [[-> _]|H1]; [done|].
    unfold configOf, getField. rewrite H1, Hthis.
    unfold getProp. by rewrite lookup_insert_ne.
  - destruct Hcases as [[-> Hf]|H1].
    + unfold getField. rewrite Hthis. eauto.
    + unfold getField. rewrite H1. unfold getProp. rewrite lookup_insert_eq. eauto.
  - intros baseUrl config.
    destruct (constructor h baseUrl config) as [t h'] eqn:Hc.
    apply constructor_spec in Hc as (lc & _ & _ & _ & _ & Ht & _). simpl.
    unfold abortStream, getField. rewrite Ht. done.
Qed.

End AbortStream.

(** A controller whose [abort] marks it as aborted, and a client that is
    streaming. *)
Definition markAborted (c : loc) (h : Heap) : Heap :=
  <[c := CObj {[ "aborted" := JSBool true ]}]> h.

Definition streamingClient : Heap :=
  {[ 1%positive := CObj {[ "abortController" := JSRef 3%positive;
                           "config" := JSRef 2%positive ]};
     2%positive := CObj {[ "type" := JSString "ollama" ]};
     3%positive := CObj {[ "aborted" := JSBool false ]} ]}.

Lemma abortStream_idempotent_witness :
  let h1 := mutate 1%positive (markAborted 3%positive streamingClient)
                   [SetProp "abortController" JSNull] in
  abortStream markAborted h1 1%positive = Some h1
  ∧ configOf h1 1%positive = configOf streamingClient 1%positive
  ∧ (∃ v, getField h1 (JSRef 1%positive) "abortController" = Some v
          ∧ truthy v = false)
  ∧ ∀ baseUrl config,
      abortStream markAborted (constructor streamingClient baseUrl config).2
                  (constructor streamingClient baseUrl config).1
      = Some (constructor streamingClient baseUrl config).2.
Proof.
  apply (abortStream_idempotent markAborted) with
    (o := {[ "abortController" := JSRef 3%positive; "config" := JSRef 2%positive ]}).
  - intros c h l Hne. unfold markAborted. by rewrite lookup_insert_ne.
  - reflexivity.
  - vm_compute. congruence.
  - reflexivity.
Defined.

End RequestFacts.

(** ** [OllamaClient]: the lines of a streamed response *)

Module StreamFacts.

Import ClientRequests.

(** *** Splitting text into lines *)

Lemma append_cons (c : Ascii.ascii) (s t : string) : String c s +:+ t = String c (s +:+ t).
Proof. reflexivity. Qed.

Lemma append_nil_r (s : string) : s +:+ "" = s.
Proof. induction s as [|c s IH]; [done|]. by rewrite append_cons, IH. Qed.

Lemma append_assoc (a b c : string) : (a +:+ b) +:+ c = a +:+ (b +:+ c).
Proof. induction a as [|x a IH]; [done|]. by rewrite !append_cons, IH. Qed.

(** The lines of a text that are terminated by a newline, and what
    follows the last newline. *)
Definition complete (s : string) : list string := removelast (splitLines s).
Definition remainder (s : string) : string := default "" (last (splitLines s)).

(** The chunks of a response as one text. *)
Definition joinChunks (chunks : list string) : string := foldr String.append "" chunks.

Lemma splitLines_nonempty s : splitLines s ≠ [].
Proof.
  destruct s as [|c s]; simpl; [done|].
  destruct (Ascii.eqb c _); [done|]. by destruct (splitLines s).
Qed.

Lemma splitLines_snoc s : splitLines s = complete s ++ [remainder s].
Proof.
  unfold complete, remainder.
  destruct (splitLines s) as [|l ls] eqn:E using rev_ind.
  - by destruct (splitLines_nonempty s).
  - by rewrite removelast_last, last_snoc.
Qed.

Lemma split_newline s :
  complete (String (Ascii.ascii_of_nat 10) s) = "" :: complete s
  ∧ remainder (String (Ascii.ascii_of_nat 10) s) = remainder s.
Proof.
  unfold complete, remainder. cbn [splitLines]. rewrite Ascii.eqb_refl.
  pose proof (splitLines_nonempty s). by destruct (splitLines s).
Qed.

Lemma split_other c s :
  Ascii.eqb c (Ascii.ascii_of_nat 10) = false →
  complete (String c s)
  = match complete s with [] => [] | l :: ls => String c l :: ls end
  ∧ remainder (String c s)
    = match complete s with [] => String c (remainder s) | _ => remainder s end.
Proof.
  intros Hc. unfold complete, remainder. cbn [splitLines]. rewrite Hc.
  pose proof (splitLines_nonempty s).
  destruct (splitLines s) as [|l [|l' ls]]; done.
Qed.

Lemma split_append a : ∀ b,
  complete (a +:+ b) = complete a ++ complete (remainder a +:+ b)
  ∧ remainder (a +:+ b) = remainder (remainder a +:+ b).
Proof.
  induction a as [|c a IH]; intros b; [done|].
  rewrite append_cons. destruct (IH b) as [IHc IHr].
  destruct (Ascii.eqb c (Ascii.ascii_of_nat 10)) eqn:Hc.
  - apply Ascii.eqb_eq in Hc as ->.
    destruct (split_newline (a +:+ b)) as [-> ->].
    destruct (split_newline a) as [-> ->].
    rewrite IHc, IHr. done.
  - destruct (split_other c (a +:+ b) Hc) as [-> ->].
    destruct (split_other c a Hc) as [-> ->].
    rewrite IHc, IHr.
    destruct (complete a) as [|l ls]; [|done].
    rewrite append_cons. destruct (split_other c (remainder a +:+ b) Hc) as [-> ->].
    done.
Qed.

(** A text without a newline is its own remainder. *)
Definition oneLine (s : string) : Prop := splitLines s = [s].

Lemma oneLine_split s : oneLine s → complete s = [] ∧ remainder s = s.
Proof. unfold oneLine, complete, remainder. by intros ->. Qed.

Lemma splitLines_oneLine s : Forall oneLine (splitLines s).
Proof.
  induction s as [|c s IH]; [by repeat constructor|].
  cbn [splitLines]. destruct (Ascii.eqb c (Ascii.ascii_of_nat 10)) eqn:Hc.
  - by constructor.
  - pose proof (splitLines_nonempty s).
    destruct (splitLines s) as [|l ls]; [done|].
    apply Forall_cons in IH as [Hl Hls]. constructor; [|done].
    unfold oneLine in *. cbn [splitLines]. by rewrite Hc, Hl.
Qed.

Lemma remainder_oneLine s : oneLine (remainder s).
Proof.
  pose proof (splitLines_oneLine s) as Hall. rewrite splitLines_snoc in Hall.
  by apply Forall_app in Hall as [_ [? _]%Forall_cons].
Qed.

Lemma oneLine_cons c s :
  oneLine (String c s) → Ascii.eqb c (Ascii.ascii_of_nat 10) = false ∧ oneLine s.
Proof.
  unfold oneLine. cbn [splitLines]. pose proof (splitLines_nonempty s).
  destruct (Ascii.eqb c _).
  - intros [=].
  - destruct (splitLines s) as [|l [|l' ls]]; [done| |done]. by intros [= ->].
Qed.

Lemma oneLine_intro s : complete s = [] → remainder s = s → oneLine s.
Proof. intros Hc Hr. unfold oneLine. by rewrite splitLines_snoc, Hc, Hr. Qed.

Lemma oneLine_append a b : oneLine a → oneLine b → oneLine (a +:+ b).
Proof.
  intros Ha Hb. induction a as [|c a IH]; [done|].
  apply oneLine_cons in Ha as [Hc Ha]. specialize (IH Ha).
  rewrite append_cons. destruct (split_other c (a +:+ b) Hc) as [Hco Hre].
  destruct (oneLine_split _ IH) as [Hc' Hr']. rewrite Hc', Hr' in *.
  by apply oneLine_intro.
Qed.

Lemma split_terminated s :
  oneLine s → complete (s +:+ newline) = [s] ∧ remainder (s +:+ newline) = "".
Proof.
  intros Hs. induction s as [|c s IH]; [done|].
  apply oneLine_cons in Hs as [Hc Hs]. destruct (IH Hs) as [Hc' Hr'].
  rewrite append_cons. destruct (split_other c (s +:+ newline) Hc) as [-> ->].
  by rewrite Hc', Hr'.
Qed.

(** A chunk that ends where a line ends. *)
Definition aligned (chunk : string) : Prop :=
  chunk = "" ∨ ∃ body, chunk = body +:+ newline.

Lemma aligned_remainder chunk : aligned chunk → remainder chunk = "".
Proof.
  intros [->|[body ->]]; [done|].
  destruct (split_append body newline) as [_ ->].
  by destruct (split_terminated _ (remainder_oneLine body)) as [_ ->].
Qed.

Lemma aligned_append a b :
  aligned a →
  complete (a +:+ b) = complete a ++ complete b ∧ remainder (a +:+ b) = remainder b.
Proof.
  intros Ha%aligned_remainder. destruct (split_append a b) as [-> ->].
  by rewrite Ha.
Qed.

Lemma aligned_join chunks :
  Forall aligned chunks →
  complete (joinChunks chunks) = concat (complete <$> chunks)
  ∧ remainder (joinChunks chunks) = "".
Proof.
  induction 1 as [|chunk rest Hc _ [IHc IHr]]; [done|].
  cbn [joinChunks foldr]. fold (joinChunks rest).
  destruct (aligned_append chunk (joinChunks rest) Hc) as [-> ->].
  by rewrite IHc, IHr.
Qed.

Lemma joinChunks_cons chunk chunks :
  joinChunks (chunk :: chunks) = chunk +:+ joinChunks chunks.
Proof. reflexivity. Qed.

(** *** [pullModel] *)

Section Streams.

Variable trim : string → string.
Variable JSON_parse : string → option JSValue.
Variable h : Heap.

Local Abbreviation pullLine := (pullLine trim JSON_parse h).
Local Abbreviation pullLines := (pullLines trim JSON_parse h).
Local Abbreviation pullLoop := (pullLoop trim JSON_parse h).
Local Abbreviation pullYields := (pullYields trim JSON_parse h).
Local Abbreviation streamLine := (streamLine trim JSON_parse h).
Local Abbreviation streamYields := (streamYields trim JSON_parse h).

Lemma pullLines_app l1 : ∀ l2 d,
  pullLines d (l1 ++ l2)
  = ((pullLines d l1).1 ++ (pullLines (pullLines d l1).2 l2).1,
     (pullLines (pullLines d l1).2 l2).2).
Proof.
  induction l1 as [|line l1 IH]; intros l2 d.
  - simpl. by destruct (pullLines d l2).
  - cbn [app ClientRequests.pullLines].
    destruct (pullLine d line) as [y d1]. rewrite IH.
    destruct (pullLines d1 l1) as [ys d2]. simpl.
    destruct (pullLines d2 l2) as [ys' d3]. simpl. by rewrite app_assoc.
Qed.

Lemma pullLoop_cons buffer d chunk rest :
  pullLoop buffer d (chunk :: rest)
  = let '(y1, d1) := pullLines d (complete (buffer +:+ chunk)) in
    let '(y2, final, d2) := pullLoop (remainder (buffer +:+ chunk)) d1 rest in
    (y1 ++ y2, final, d2).
Proof. reflexivity. Qed.

(** The loop processes the complete lines of the text received so far
    and keeps what follows the last newline. *)
Lemma pullLoop_text chunks : ∀ buffer d,
  oneLine buffer →
  pullLoop buffer d chunks
  = ((pullLines d (complete (buffer +:+ joinChunks chunks))).1,
     remainder (buffer +:+ joinChunks chunks),
     (pullLines d (complete (buffer +:+ joinChunks chunks))).2).
Proof.
  induction chunks as [|chunk rest IH]; intros buffer d Hb.
  - simpl. rewrite append_nil_r. by destruct (oneLine_split _ Hb) as [-> ->].
  - rewrite pullLoop_cons.
    rewrite joinChunks_cons, <-append_assoc.
    destruct (split_append (buffer +:+ chunk) (joinChunks rest)) as [-> ->].
    rewrite pullLines_app.
    destruct (pullLines d (complete (buffer +:+ chunk))) as [y1 d1].
    by rewrite (IH _ _ (remainder_oneLine _)).
Qed.

(** X17: what [pullModel] yields does not depend on how the response is
    cut into chunks: it is what it yields when the whole text arrives as
    one chunk, namely the data of the lines that end in a newline, in
    order, and then that of the text after the last newline. *)
Theorem pullModel_chunking (chunks : list string) :
  pullYields chunks = pullYields [joinChunks chunks]
  ∧ pullYields chunks
    = (pullLines (JSString "") (complete (joinChunks chunks))).1
      ++ (if truthy (JSString (trim (remainder (joinChunks chunks))))
          then option_list (JSON_parse (remainder (joinChunks chunks)))
          else []).
Proof.
  assert (Hone : oneLine "") by done.
  unfold ClientRequests.pullYields.
  rewrite !(pullLoop_text _ _ _ Hone). cbn [joinChunks foldr].
  by rewrite append_nil_r.
Qed.

(** *** [streamChat] *)

Lemma streamLine_empty config : trim "" = "" → streamLine config "" = None.
Proof. intros Ht. unfold ClientRequests.streamLine. by rewrite Ht. Qed.

Lemma omap_concat {A B} (f : A → option B) (ls : list (list A)) :
  omap f (concat ls) = concat ((omap f : list A → list B) <$> ls).
Proof.
  induction ls as [|l ls IH]; [done|]. simpl. by rewrite omap_app, IH.
Qed.

(** X18: when every chunk of the response ends where a line ends,
    [streamChat] yields what it yields for the whole text in one chunk:
    the items of its lines, in order. *)
Theorem streamChat_aligned_chunks (config : Obj) (chunks : list string) :
  trim "" = "" →
  Forall aligned chunks →
  streamYields config chunks = streamYields config [joinChunks chunks]
  ∧ streamYields config chunks
    = omap (streamLine config) (complete (joinChunks chunks)).
Proof.
  intros Htrim Hall. destruct (aligned_join _ Hall) as [Hc Hr].
  assert (Hone : streamYields config [joinChunks chunks]
                 = omap (streamLine config) (complete (joinChunks chunks))).
  { unfold ClientRequests.streamYields. simpl. rewrite app_nil_r.
    rewrite (splitLines_snoc (joinChunks chunks)), Hr, omap_app. simpl.
    rewrite streamLine_empty by done. by rewrite app_nil_r. }
  rewrite Hone.
  enough (streamYields config chunks
          = omap (streamLine config) (complete (joinChunks chunks))) by done.
  rewrite Hc, omap_concat. unfold ClientRequests.streamYields. f_equal.
  rewrite <-list_fmap_compose. apply Forall_fmap_ext.
  eapply Forall_impl; [exact Hall|]. intros chunk Ha. simpl.
  rewrite (splitLines_snoc chunk), (aligned_remainder _ Ha), omap_app. simpl.
  rewrite streamLine_empty by done. by rewrite app_nil_r.
Qed.

(** X19: with the Ollama type, a line that is cut by a chunk boundary is
    lost by [streamChat] when neither part parses on its own, although
    the line is yielded when it arrives in one chunk; [pullModel] yields
    the same for both ways of cutting. *)
Theorem streamChat_split_line_lost (config : Obj) (a b : string) (v : JSValue) :
  strictEqString (getProp config "type") "ollama" = true →
  trim "" = "" →
  oneLine a → oneLine b →
  JSON_parse a = None → JSON_parse b = None →
  trim (a +:+ b) ≠ "" → a +:+ b ≠ "data: [DONE]" →
  JSON_parse (a +:+ b) = Some v →
  streamYields config [a; b +:+ newline] = []
  ∧ streamYields config [a +:+ b +:+ newline] = [Parsed v]
  ∧ pullYields [a; b +:+ newline] = pullYields [a +:+ b +:+ newline].
Proof.
  intros Ho Htrim Ha Hb Hpa Hpb Hab Hdone Hpab.
  assert (Hnone : ∀ line, JSON_parse line = None → streamLine config line = None).
  { intros line Hp. unfold ClientRequests.streamLine. rewrite Ho, Hp.
    by destruct (_ || _). }
  assert (Hsome : streamLine config (a +:+ b) = Some (Parsed v)).
  { unfold ClientRequests.streamLine. rewrite Ho, Hpab.
    destruct (String.eqb_spec (a +:+ b) "data: [DONE]") as [?|_]; [done|].
    simpl. by destruct (String.eqb_spec (trim (a +:+ b)) "") as [?|_]. }
  split_and!.
  - unfold ClientRequests.streamYields. simpl. rewrite app_nil_r.
    rewrite Ha, (splitLines_snoc (b +:+ newline)).
    destruct (split_terminated _ Hb) as [-> ->]. simpl.
    by rewrite (Hnone a), (Hnone b), streamLine_empty.
  - unfold ClientRequests.streamYields. simpl. rewrite app_nil_r.
    rewrite <-append_assoc, (splitLines_snoc ((a +:+ b) +:+ newline)).
    destruct (split_terminated _ (oneLine_append _ _ Ha Hb)) as [-> ->]. simpl.
    by rewrite Hsome, streamLine_empty.
  - assert (Hone : oneLine "") by done.
    unfold ClientRequests.pullYields. rewrite !(pullLoop_text _ _ _ Hone).
    cbn [joinChunks foldr]. by rewrite !append_nil_r.
Qed.

End Streams.

(** Two lines of the same text whose digest is an object: each is parsed
    into objects of its own, so the second digest is new as well, and both
    lines are dropped for want of a [slice]. *)
Lemma object_digest_lines :
  let h : Heap := <[1%positive := CObj {[ "digest" := JSRef 2%positive ]}]>
                  (<[2%positive := CObj ∅]> ∅) in
  pullLines (λ s, s) (λ _, Some (JSRef 1%positive)) h (JSString "") ["x"; "x"]
  = ([], JSRef 2%positive).
Proof. reflexivity. Qed.


(** A parser that knows one line, and a response of two lines. *)
Definition parseBraces (s : string) : option JSValue :=
  if String.eqb s "{}" then Some (JSRef 1%positive) else None.

Definition ollamaConfig : Obj := {[ "type" := JSString "ollama" ]}.

Lemma streamChat_aligned_chunks_witness :
  let chunks := ["{}" +:+ newline; "{}" +:+ newline] in
  streamYields (λ s, s) parseBraces ∅ ollamaConfig chunks
  = streamYields (λ s, s) parseBraces ∅ ollamaConfig [joinChunks chunks]
  ∧ streamYields (λ s, s) parseBraces ∅ ollamaConfig chunks
    = omap (streamLine (λ s, s) parseBraces ∅ ollamaConfig)
           (complete (joinChunks chunks)).
Proof.
  apply (streamChat_aligned_chunks (λ s, s) parseBraces ∅ ollamaConfig
           ["{}" +:+ newline; "{}" +:+ newline]).
  - reflexivity.
  - repeat (constructor; [right; by exists "{}"|]). constructor.
Defined.

Lemma streamChat_split_line_lost_witness :
  streamYields (λ s, s) parseBraces ∅ ollamaConfig ["{"; "}" +:+ newline] = []
  ∧ streamYields (λ s, s) parseBraces ∅ ollamaConfig ["{" +:+ "}" +:+ newline]
    = [Parsed (JSRef 1%positive)]
  ∧ pullYields (λ s, s) parseBraces ∅ ["{"; "}" +:+ newline]
    = pullYields (λ s, s) parseBraces ∅ ["{" +:+ "}" +:+ newline].
Proof.
  apply (streamChat_split_line_lost (λ s, s) parseBraces ∅ ollamaConfig
           "{" "}" (JSRef 1%positive)); try reflexivity; discriminate.
Defined.

End StreamFacts.

(** ** [AppRunner]: the input state and the form *)

Module FormFacts.

Import AppRunner AppForm HeapFacts OverlayFacts.

(** *** The structure analysis *)

Lemma filterNodes_Some p elems l :
  filterNodes p elems = Some l →
  Forall (λ n, is_Some (p n)) elems ∧ l = filter (λ n, p n = Some true) elems.
Proof.
  revert l. induction elems as [|n rest IH]; intros l; simpl.
  - by intros [= <-].
  - destruct (p n) as [b|] eqn:Hp; [|done]. simpl.
    destruct (filterNodes p rest) as [rest'|]; [|done]. simpl. intros [= <-].
    destruct (IH rest' eq_refl) as [Hall ->]. split; [constructor; eauto|].
    rewrite filter_cons. destruct b.
    + by rewrite decide_True by done.
    + by rewrite decide_False by congruence.
Qed.

Lemma filterNodes_None p elems :
  filterNodes p elems = None → Exists (λ n, p n = None) elems.
Proof.
  induction elems as [|n rest IH]; simpl; [done|].
  destruct (p n) as [b|] eqn:Hp; [|by left]. simpl.
  destruct (filterNodes p rest); [done|]. intros _. right. by apply IH.
Qed.

Lemma filterNodes_is_Some p elems :
  Forall (λ n, is_Some (p n)) elems → is_Some (filterNodes p elems).
Proof.
  induction 1 as [|n rest [b Hb] _ [l Hl]]; simpl; [by eexists|].
  rewrite Hb, Hl. by eexists.
Qed.

Definition nullish (v : JSValue) : Prop := v = JSUndefined ∨ v = JSNull.

Lemma getField_None h v k : getField h v k = None ↔ nullish v.
Proof.
  unfold nullish. destruct v as [| |b|x|s|l]; simpl;
    try (split; [done|by intros [|]]); try (split; [auto|done]).
  destruct (h !! l) as [[]|]; (split; [done|by intros [|]]).
Qed.

Lemma typed_is_object h n s :
  (t ← getField h n "type"; Some (strictEqString t s)) = Some true →
  ∃ l o, n = JSRef l ∧ h !! l = Some (CObj o) ∧ getProp o "type" = JSString s.
Proof.
  destruct n as [| |b|x|str|l]; simpl; try done.
  destruct (h !! l) as [[o|a]|] eqn:Hl; simpl; try done.
  intros [= Ht]. exists l, o. split_and!; try done.
  destruct (getProp o "type"); try done. simpl in Ht.
  by apply String.eqb_eq in Ht as ->.
Qed.

Lemma isInputNode_true h n :
  isInputNode h n = Some true ↔
  ∃ l o, n = JSRef l ∧ h !! l = Some (CObj o)
         ∧ (getProp o "type" = JSString "textInputNode"
            ∨ getProp o "type" = JSString "imageInputNode").
Proof.
  unfold isInputNode. split.
  - destruct n as [| |b|x|str|l]; simpl; try done.
    destruct (h !! l) as [[o|a]|] eqn:Hl; simpl; try done.
    intros [= Ht]. exists l, o. split_and!; try done.
    destruct (getProp o "type") as [| |b|x|t|r]; try done. simpl in Ht.
    apply orb_true_iff in Ht as [Ht|Ht]; apply String.eqb_eq in Ht as ->; auto.
  - intros (l & o & -> & Hl & Ht). simpl. rewrite Hl. simpl.
    by destruct Ht as [-> | ->].
Qed.

Lemma isOutputNode_true h n :
  isOutputNode h n = Some true ↔
  ∃ l o, n = JSRef l ∧ h !! l = Some (CObj o)
         ∧ (getProp o "type" = JSString "textOutputNode"
            ∨ getProp o "type" = JSString "markdownOutputNode").
Proof.
  unfold isOutputNode. split.
  - destruct n as [| |b|x|str|l]; simpl; try done.
    destruct (h !! l) as [[o|a]|] eqn:Hl; simpl; try done.
    intros [= Ht]. exists l, o. split_and!; try done.
    destruct (getProp o "type") as [| |b|x|t|r]; try done. simpl in Ht.
    apply orb_true_iff in Ht as [Ht|Ht]; apply String.eqb_eq in Ht as ->; auto.
  - intros (l & o & -> & Hl & Ht). simpl. rewrite Hl. simpl.
    by destruct Ht as [-> | ->].
Qed.

Lemma includes_references (l : list JSValue) (v : JSValue) :
  Forall (λ m, ∃ r, m = JSRef r) l → includes l v = true ↔ v ∈ l.
Proof.
  intros Hrefs. unfold includes. rewrite existsb_exists. split.
  - intros (m & Hin & Heq). apply list_elem_of_In in Hin.
    rewrite Forall_forall in Hrefs. destruct (Hrefs m Hin) as [r ->].
    destruct v; try done. simpl in Heq. by apply Pos.eqb_eq in Heq as ->.
  - intros Hin. exists v. split; [by apply list_elem_of_In|].
    rewrite Forall_forall in Hrefs. destruct (Hrefs v Hin) as [r ->].
    apply Pos.eqb_refl.
Qed.

Lemma filter_agree {A} (P Q : A → Prop) `{!∀ x, Decision (P x)}
    `{!∀ x, Decision (Q x)} (l : list A) :
  (∀ x, x ∈ l → P x ↔ Q x) → filter P l = filter Q l.
Proof.
  induction l as [|x l IH]; intros Hext; [done|].
  rewrite !filter_cons, IH by (intros y Hy; apply Hext; by right).
  apply decide_ext, Hext. left.
Qed.

Lemma filter_three_way {A} (P Q : A → Prop) `{!∀ x, Decision (P x)}
    `{!∀ x, Decision (Q x)} (l : list A) :
  (∀ x, x ∈ l → P x → Q x → False) →
  filter P l ++ filter Q l ++ filter (λ x, ¬ P x ∧ ¬ Q x) l ≡ₚ l.
Proof.
  induction l as [|x l IH]; intros Hdis; [done|].
  rewrite !filter_cons.
  assert (IH' := IH (λ y Hy, Hdis y (list_elem_of_further _ _ _ Hy))).
  destruct (decide (P x)) as [HP|HP], (decide (Q x)) as [HQ|HQ].
  - destruct (Hdis x); [left|done..].
  - rewrite decide_False by tauto. simpl. by rewrite IH'.
  - rewrite decide_False by tauto. simpl.
    rewrite <-Permutation_middle. by rewrite IH'.
  - rewrite decide_True by tauto. simpl.
    rewrite (app_assoc _ _ (x :: _)), <-Permutation_middle, <-app_assoc.
    by rewrite IH'.
Qed.

(** X20: the structure analysis fails only on an element that is
    [undefined] or [null]; otherwise every element of the node array is
    in exactly one of [inputNodes], [outputNodes] and [processingNodes],
    as often as in the array, and the processing nodes are the elements
    whose type is none of the four input and output types. *)
Theorem analyze_partition (h : Heap) (elems : list JSValue) :
  match analyze h elems with
  | Some s =>
      inputNodes s ++ outputNodes s ++ processingNodes s ≡ₚ elems
      ∧ (∀ n, n ∈ inputNodes s ↔ n ∈ elems ∧ isInputNode h n = Some true)
      ∧ (∀ n, n ∈ outputNodes s ↔ n ∈ elems ∧ isOutputNode h n = Some true)
      ∧ (∀ n, n ∈ processingNodes s ↔
              n ∈ elems ∧ isInputNode h n = Some false
              ∧ isOutputNode h n = Some false)
  | None => Exists nullish elems
  end.
Proof.
  unfold analyze.
  destruct (filterNodes (isInputNode h) elems) as [ins|] eqn:Hin; simpl.
  2: { apply filterNodes_None in Hin. eapply Exists_impl; [exact Hin|].
       intros n. unfold isInputNode.
       destruct (getField h n "type") eqn:E; [done|]. intros _.
       by apply getField_None in E. }
  destruct (filterNodes (isOutputNode h) elems) as [outs|] eqn:Hout; simpl.
  2: { apply filterNodes_None in Hout. eapply Exists_impl; [exact Hout|].
       intros n. unfold isOutputNode.
       destruct (getField h n "type") eqn:E; [done|]. intros _.
       by apply getField_None in E. }
  apply filterNodes_Some in Hin as [Hdef ->].
  apply filterNodes_Some in Hout as [Hdef' ->].
  assert (Hrefs : Forall (λ m, ∃ r, m = JSRef r)
                    (filter (λ n, isInputNode h n = Some true) elems)).
  { apply Forall_forall. intros m [Hm _]%list_elem_of_filter.
    apply isInputNode_true in Hm as (l & ? & -> & _). eauto. }
  assert (Hrefs' : Forall (λ m, ∃ r, m = JSRef r)
                     (filter (λ n, isOutputNode h n = Some true) elems)).
  { apply Forall_forall. intros m [Hm _]%list_elem_of_filter.
    apply isOutputNode_true in Hm as (l & ? & -> & _). eauto. }
  assert (Hproc :
    filter (λ node, negb (includes (filter (λ n, isInputNode h n = Some true) elems) node)
                    && negb (includes (filter (λ n, isOutputNode h n = Some true) elems) node)
                    = true) elems
    = filter (λ n, ¬ isInputNode h n = Some true ∧ ¬ isOutputNode h n = Some true) elems).
  { apply filter_agree. intros n Hn.
    rewrite andb_true_iff, !negb_true_iff, <-!not_true_iff_false.
    rewrite (includes_references _ _ Hrefs), (includes_references _ _ Hrefs').
    rewrite !list_elem_of_filter. tauto. }
  rewrite Hproc. split_and!.
  - apply filter_three_way. intros n _ Hi Ho.
    apply isInputNode_true in Hi as (l & o & -> & Hl & Ht).
    apply isOutputNode_true in Ho as (l' & o' & [= <-] & Hl' & Ht').
    rewrite Hl in Hl'. simplify_eq. destruct Ht as [Ht|Ht], Ht' as [Ht'|Ht']; congruence.
  - intros n. rewrite list_elem_of_filter. tauto.
  - intros n. rewrite list_elem_of_filter. tauto.
  - intros n. rewrite list_elem_of_filter.
    rewrite Forall_forall in Hdef, Hdef'. split.
    + intros [[Hi Ho] Hn]. destruct (Hdef n Hn) as [[] Hb], (Hdef' n Hn) as [[] Hb'];
        naive_solver.
    + intros (Hn & Hi & Ho). split; [|done]. split; congruence.
Qed.

(** *** The initial input state *)

Definition inputKey (h : Heap) (n : JSValue) : option string :=
  idv ← getField h n "id"; propertyKey idv.

Lemma reduceInputs_lookup h nodes : ∀ acc m,
  acc !! "__proto__" = None →
  reduceInputs h acc nodes = Some m →
  ∀ k, m !! k = if bool_decide (k ≠ "__proto__"
                                ∧ Exists (λ n, inputKey h n = Some k) nodes)
                then Some (JSString "") else acc !! k.
Proof.
  induction nodes as [|n rest IH]; intros acc m Hacc; cbn [reduceInputs].
  - intros [= <-] k. rewrite bool_decide_eq_false_2; [done|].
    by intros [_ ?%Exists_nil].
  - destruct (getField h n "id") as [idv|] eqn:Hid; [|done]. cbn [mbind option_bind].
    destruct (propertyKey idv) as [key|] eqn:Hkey; [|done]. cbn [mbind option_bind].
    assert (Hn : inputKey h n = Some key) by (unfold inputKey; by rewrite Hid).
    unfold assignProp. destruct (String.eqb_spec key "__proto__") as [->|Hne].
    + rewrite Hacc. cbn [mbind option_bind]. intros Hm k. rewrite (IH _ _ Hacc Hm k).
      apply (f_equal (λ b : bool, if b then Some (JSString "") else acc !! k)).
      apply bool_decide_ext. split.
      * intros [? ?]. split; [done|]. by right.
      * intros [Hk [?|?]%Exists_cons]; [congruence|done].
    + cbn [mbind option_bind]. intros Hm k.
      assert (Hacc' : <[key := JSString ""]> acc !! "__proto__" = None)
        by (by rewrite lookup_insert_ne).
      rewrite (IH _ _ Hacc' Hm k).
      destruct (bool_decide (k ≠ "__proto__" ∧ Exists _ rest)) eqn:Hrest.
      * apply bool_decide_eq_true in Hrest as [? ?].
        rewrite bool_decide_eq_true_2; [done|]. split; [done|]. by right.
      * apply bool_decide_eq_false in Hrest.
        destruct (decide (key = k)) as [->|Hkk].
        -- rewrite lookup_insert_eq. rewrite bool_decide_eq_true_2; [done|].
           split; [done|]. by left.
        -- rewrite lookup_insert_ne by done. rewrite bool_decide_eq_false_2; [done|].
           intros [? [?|?]%Exists_cons]; [congruence|]. by apply Hrest.
Qed.

Lemma initialInputs_input_node (h : Heap) (elems : list JSValue) (m : Obj) n k :
  initialInputs h elems = Some m →
  n ∈ elems → isInputNode h n = Some true → inputKey h n = Some k →
  k ≠ "__proto__" →
  m !! k = Some (JSString "").
Proof.
  unfold initialInputs.
  destruct (filterNodes (isInputNode h) elems) as [ins|] eqn:Hin; [|done]. simpl.
  apply filterNodes_Some in Hin as [_ ->]. intros Hm Hn Hi Hk Hne.
  rewrite (reduceInputs_lookup _ _ _ _ (lookup_empty _) Hm k).
  rewrite bool_decide_eq_true_2; [done|]. split; [done|].
  apply Exists_exists. exists n. split; [|done]. by apply list_elem_of_filter.
Qed.

(** Under the id ["__proto__"] the assignment of [loadApp] stores
    nothing. *)
Lemma initialInputs_proto (h : Heap) (elems : list JSValue) (m : Obj) :
  initialInputs h elems = Some m → m !! "__proto__" = None.
Proof.
  unfold initialInputs.
  destruct (filterNodes (isInputNode h) elems) as [ins|] eqn:Hin; [|done]. simpl.
  intros Hm. rewrite (reduceInputs_lookup _ _ _ _ (lookup_empty _) Hm "__proto__").
  rewrite bool_decide_eq_false_2; [done|]. by intros [? _].
Qed.

(** X21: after [loadApp] the input state has an entry exactly for the
    ids of the text and image input nodes, the id ["__proto__"] apart
    (an assignment under it stores nothing), and every entry is the empty
    string. *)
Theorem initialInputs_entries (h : Heap) (elems : list JSValue) (m : Obj) :
  initialInputs h elems = Some m →
  ∀ k v, m !! k = Some v ↔
         v = JSString "" ∧ k ≠ "__proto__"
         ∧ ∃ n, n ∈ elems ∧ isInputNode h n = Some true ∧ inputKey h n = Some k.
Proof.
  intros Hm k v. split.
  - revert Hm. unfold initialInputs.
    destruct (filterNodes (isInputNode h) elems) as [ins|] eqn:Hin; [|done]. simpl.
    apply filterNodes_Some in Hin as [_ ->]. intros Hm.
    rewrite (reduceInputs_lookup _ _ _ _ (lookup_empty _) Hm k), lookup_empty.
    case_bool_decide as Hex; [|done]. destruct Hex as [Hne Hex].
    apply Exists_exists in Hex as (n & [Hi Hn]%list_elem_of_filter & Hk).
    intros [= <-]. eauto 10.
  - intros (-> & Hne & n & Hn & Hi & Hk). by eapply initialInputs_input_node.
Qed.

Lemma initialInputs_entries_witness :
  ({[ "in" := JSString "" ]} : Obj) !! "in" = Some (JSString "") ↔
  JSString "" = JSString "" ∧ "in" ≠ "__proto__"
  ∧ ∃ n, n ∈ [JSRef 2%positive; JSRef 5%positive]
         ∧ isInputNode sampleHeap n = Some true
         ∧ inputKey sampleHeap n = Some "in".
Proof.
  apply (initialInputs_entries sampleHeap [JSRef 2%positive; JSRef 5%positive]
           {[ "in" := JSString "" ]}).
  reflexivity.
Defined.

(** An app whose only input node has the id ["__proto__"] is loaded with
    an empty input state. *)
Lemma initialInputs_proto_sample :
  let h : Heap :=
    <[1%positive := CObj (<["id" := JSString "__proto__"]>
                         (<["type" := JSString "textInputNode"]> ∅))]> ∅ in
  initialInputs h [JSRef 1%positive] = Some ∅.
Proof. reflexivity. Qed.

(** *** The form *)

(** An input node of the form: an object with a string id and one of the
    two input types. *)
Definition inputNodeAt (h : Heap) (n : JSValue) (i t : string) : Prop :=
  ∃ l o, n = JSRef l ∧ h !! l = Some (CObj o) ∧ o !! "id" = Some (JSString i)
         ∧ getProp o "type" = JSString t
         ∧ (t = "textInputNode" ∨ t = "imageInputNode").

Definition formNodes (h : Heap) (nodes : list JSValue) : Prop :=
  Forall (λ n, ∃ i t, inputNodeAt h n i t) nodes.

Lemma inputNodeAt_functional h n i t i' t' :
  inputNodeAt h n i t → inputNodeAt h n i' t' → i = i' ∧ t = t'.
Proof.
  intros (l & o & -> & Hl & Hi & Ht & _) (l' & o' & [= <-] & Hl' & Hi' & Ht' & _).
  rewrite Hl in Hl'. simplify_eq. split; congruence.
Qed.

Lemma inputNodeAt_inputKey h n i t : inputNodeAt h n i t → inputKey h n = Some i.
Proof.
  intros (l & o & -> & Hl & Hi & _). unfold inputKey. simpl. rewrite Hl. simpl.
  unfold getProp. by rewrite Hi.
Qed.

Lemma findById_formNodes h k nodes :
  formNodes h nodes →
  (findById h k nodes = Some None ∧ ∀ n t, n ∈ nodes → ¬ inputNodeAt h n k t)
  ∨ ∃ n t, findById h k nodes = Some (Some n) ∧ n ∈ nodes ∧ inputNodeAt h n k t.
Proof.
  induction 1 as [|n rest (i & t & Hn) _ IH]; simpl.
  - left. split; [done|]. by intros ?? ?%elem_of_nil.
  - pose proof Hn as (l & o & -> & Hl & Hi & Ht & Hty). simpl. rewrite Hl. simpl.
    assert (Gid : getProp o "id" = JSString i) by (unfold getProp; by rewrite Hi).
    rewrite Gid. simpl.
    destruct (String.eqb_spec i k) as [->|Hne].
    + right. exists (JSRef l), t. split_and!; [done|by left|done].
    + destruct IH as [[-> Hnone]|(n' & t' & -> & Hin & Hn')].
      * left. split; [done|]. intros n' t' [->|Hin]%elem_of_cons Hn'.
        -- by destruct (inputNodeAt_functional _ _ _ _ _ _ Hn Hn').
        -- by eapply Hnone.
      * right. exists n', t'. split_and!; [done|by right|done].
Qed.

Lemma every_total {A} (p : A → option bool) (l : list A) :
  Forall (λ x, is_Some (p x)) l →
  every p l = Some (bool_decide (Forall (λ x, p x = Some true) l)).
Proof.
  induction 1 as [|x l [b Hb] _ IH]; cbn [every].
  - by rewrite bool_decide_eq_true_2.
  - rewrite Hb. cbn [mbind option_bind]. destruct b.
    + rewrite IH. f_equal. apply bool_decide_ext. split.
      * by constructor.
      * by intros [_ ?]%Forall_cons.
    + rewrite bool_decide_eq_false_2; [done|]. intros [? _]%Forall_cons. congruence.
Qed.

Section Form.

Variable trim : string → string.
Variable isFile : loc → bool.

Local Abbreviation entryComplete := (entryComplete trim isFile).
Local Abbreviation isFormComplete := (isFormComplete trim isFile).

(** What the form asks of the value of an input node of type [t]. *)
Definition filled (t : string) (v : JSValue) : Prop :=
  (t = "textInputNode" → ∃ s, v = JSString s ∧ trim s ≠ "")
  ∧ (t = "imageInputNode" → ∃ l, v = JSRef l ∧ isFile l = true).

Lemma entryComplete_formNodes h nodes k v :
  formNodes h nodes →
  (entryComplete h nodes (k, v) = Some true
   ∧ ∀ n t, n ∈ nodes → ¬ inputNodeAt h n k t)
  ∨ ∃ n t b, entryComplete h nodes (k, v) = Some b ∧ n ∈ nodes
             ∧ inputNodeAt h n k t ∧ (b = true ↔ filled t v).
Proof.
  intros Hnodes. unfold AppForm.entryComplete.
  destruct (findById_formNodes h k nodes Hnodes)
    as [[-> Hnone]|(n & t & -> & Hin & Hn)]; simpl.
  - by left.
  - right. pose proof Hn as (l & o & -> & Hl & Hi & Ht & Hty).
    simpl. rewrite Hl. simpl. rewrite Ht. simpl.
    destruct Hty as [-> | ->]; simpl.
    + eexists (JSRef l), "textInputNode", _. split_and!; [done..|].
      unfold filled. destruct v as [| |b|x|s|r]; simpl;
        try (split; [done|by intros [(? & ? & _) _]]).
      destruct (String.eqb_spec (trim s) "") as [He|He]; simpl.
      * split; [done|]. intros [(s' & [= <-] & ?) _]; done.
      * split; [|done]. intros _. split; [eauto|done].
    + eexists (JSRef l), "imageInputNode", _. split_and!; [done..|].
      unfold filled, instanceofFile. destruct v as [| |b|x|s|r]; simpl;
        try (split; [done|by intros [_ (? & ? & _)]]).
      split.
      * intros Hf. split; [done|eauto].
      * by intros [_ (r' & [= <-] & ?)].
Qed.

Lemma isFormComplete_total h nodes (st : Obj) :
  formNodes h nodes →
  isFormComplete h nodes st
  = Some (bool_decide (nodes = []
                       ∨ ∀ k v, st !! k = Some v →
                                entryComplete h nodes (k, v) = Some true)).
Proof.
  intros Hnodes. unfold AppForm.isFormComplete.
  destruct nodes as [|n0 rest]; cbn [length Nat.eqb].
  { rewrite bool_decide_eq_true_2; auto. }
  rewrite every_total.
  - f_equal. apply bool_decide_ext. rewrite Forall_forall. split.
    + intros Hall. right. intros k v Hkv. apply (Hall (k, v)).
      by apply elem_of_map_to_list.
    + intros [?|Hall]; [done|]. intros [k v] Hkv.
      by apply Hall, elem_of_map_to_list.
  - apply Forall_forall. intros [k v] _.
    destruct (entryComplete_formNodes h (n0 :: rest) k v Hnodes)
      as [[-> _]|(? & ? & b & -> & _)]; by eexists.
Qed.

(** X22: on input nodes with distinct ids that all have an entry in the
    input state, [isFormComplete] is [true] exactly when every text input
    node has a string that is not blank and every image input node has a
    [File]. *)
Theorem isFormComplete_all_filled (h : Heap) (nodes : list JSValue) (st : Obj) :
  formNodes h nodes →
  (∀ n n' i t t', n ∈ nodes → n' ∈ nodes →
                  inputNodeAt h n i t → inputNodeAt h n' i t' → n = n') →
  (∀ n i t, n ∈ nodes → inputNodeAt h n i t → is_Some (st !! i)) →
  ∃ b, isFormComplete h nodes st = Some b
       ∧ (b = true ↔
          ∀ n i t, n ∈ nodes → inputNodeAt h n i t → filled t (getProp st i)).
Proof.
  intros Hnodes Huniq Hcov. eexists. split; [by apply isFormComplete_total|].
  rewrite bool_decide_eq_true. split.
  - intros Hall n i t Hin Hn.
    destruct Hall as [->|Hall]; [by apply elem_of_nil in Hin|].
    destruct (Hcov n i t Hin Hn) as [v Hv].
    specialize (Hall i v Hv). unfold getProp. rewrite Hv. simpl.
    destruct (entryComplete_formNodes h nodes i v Hnodes)
      as [[_ Hnone]|(n' & t' & b & Hb & Hin' & Hn' & Hfilled)].
    + by destruct (Hnone n t Hin).
    + assert (n = n') as <- by eauto.
      destruct (inputNodeAt_functional _ _ _ _ _ _ Hn Hn') as [_ <-].
      apply Hfilled. congruence.
  - intros Hall. right. intros k v Hv.
    destruct (entryComplete_formNodes h nodes k v Hnodes)
      as [[-> _]|(n' & t' & b & -> & Hin' & Hn' & Hfilled)]; [done|].
    f_equal. apply Hfilled. specialize (Hall n' k t' Hin' Hn').
    unfold getProp in Hall. by rewrite Hv in Hall.
Qed.

Lemma analyze_inputNodes h elems s :
  analyze h elems = Some s →
  inputNodes s = filter (λ n, isInputNode h n = Some true) elems.
Proof.
  unfold analyze.
  destruct (filterNodes (isInputNode h) elems) as [ins|] eqn:Hin; [|done]. simpl.
  destruct (filterNodes (isOutputNode h) elems) as [outs|]; [|done]. simpl.
  intros [= <-]. simpl. by apply filterNodes_Some in Hin as [_ ->].
Qed.

Lemma inputNodeAt_intro h n i :
  isInputNode h n = Some true → getField h n "id" = Some (JSString i) →
  ∃ t, inputNodeAt h n i t.
Proof.
  intros (l & o & -> & Hl & Ht)%isInputNode_true Hid.
  simpl in Hid. rewrite Hl in Hid. injection Hid as Hid.
  assert (o !! "id" = Some (JSString i)).
  { unfold getProp in Hid. by destruct (o !! "id"); simplify_eq/=. }
  destruct Ht as [Ht|Ht]; eexists; exists l, o; split_and!; eauto.
Qed.

(** X23: right after [loadApp] the form is complete only when every
    input node of the app (there may be none) has the id ["__proto__"],
    for which [loadApp] stores no entry: any other input node has the
    empty string as its value, which is neither a text that is not blank
    nor a [File]. *)
Theorem fresh_form_incomplete (h : Heap) (elems : list JSValue) (s : Structure)
    (m : Obj) :
  trim "" = "" →
  analyze h elems = Some s →
  initialInputs h elems = Some m →
  Forall (λ n, ∃ i, getField h n "id" = Some (JSString i)) (inputNodes s) →
  isFormComplete h (inputNodes s) m
  = Some (bool_decide (Forall (λ n, inputKey h n = Some "__proto__") (inputNodes s))).
Proof.
  intros Htrim Han Hm Hids.
  pose proof (analyze_inputNodes _ _ _ Han) as Hins.
  assert (Hnodes : formNodes h (inputNodes s)).
  { apply Forall_forall. intros n Hn. rewrite Forall_forall in Hids.
    destruct (Hids n Hn) as [i Hi]. exists i.
    rewrite Hins in Hn. apply list_elem_of_filter in Hn as [Hin _].
    by apply inputNodeAt_intro. }
  rewrite isFormComplete_total by done. f_equal. apply bool_decide_ext.
  rewrite Forall_forall. split.
  - intros [Hnil|Hall] n Hn; [rewrite Hnil in Hn; by apply elem_of_nil in Hn|].
    destruct (proj1 (Forall_forall _ _) Hnodes n Hn) as (i & t & Hat).
    pose proof (inputNodeAt_inputKey _ _ _ _ Hat) as Hkey.
    destruct (decide (i = "__proto__")) as [->|Hne]; [done|].
    exfalso.
    assert (Hentry : m !! i = Some (JSString "")).
    { assert (Hin : n ∈ filter (λ n, isInputNode h n = Some true) elems)
        by (by rewrite <-Hins).
      apply list_elem_of_filter in Hin as [? ?].
      by eapply initialInputs_input_node. }
    specialize (Hall i _ Hentry).
    destruct (entryComplete_formNodes h (inputNodes s) i (JSString "") Hnodes)
      as [[_ Hnone]|(n' & t' & b & Hb & Hin' & (l & o & _ & _ & _ & _ & Hty) & Hfilled)].
    + by apply (Hnone n t).
    + assert (b = true) as -> by congruence.
      destruct (proj1 Hfilled eq_refl) as [Htext Himage].
      destruct Hty as [-> | ->].
      * destruct (Htext eq_refl) as (str & [= <-] & Hne'). by apply Hne'.
      * by destruct (Himage eq_refl) as (r & ? & _).
  - intros Hall. right. intros k v Hkv.
    destruct (entryComplete_formNodes h (inputNodes s) k v Hnodes)
      as [[-> _]|(n' & t' & b & _ & Hin' & Hat & _)]; [done|].
    exfalso. specialize (Hall n' Hin').
    rewrite (inputNodeAt_inputKey _ _ _ _ Hat) in Hall. simplify_eq.
    by rewrite (initialInputs_proto _ _ _ Hm) in Hkv.
Qed.

End Form.

(** A form with the text input node of the sample app. *)
Lemma sample_formNodes : formNodes sampleHeap [JSRef 2%positive].
Proof.
  repeat constructor. exists "in", "textInputNode".
  eexists 2%positive, _. split_and!; [done|reflexivity|reflexivity|reflexivity|by left].
Qed.

Lemma isFormComplete_all_filled_witness :
  ∃ b, isFormComplete (λ s, s) (λ _, false) sampleHeap [JSRef 2%positive] sampleInputState
       = Some b
       ∧ (b = true ↔
          ∀ n i t, n ∈ [JSRef 2%positive] → inputNodeAt sampleHeap n i t →
                   filled (λ s, s) (λ _, false) t (getProp sampleInputState i)).
Proof.
  apply (isFormComplete_all_filled (λ s, s) (λ _, false) sampleHeap [JSRef 2%positive]
           sampleInputState).
  - exact sample_formNodes.
  - intros n n' i t t' ->%list_elem_of_singleton ->%list_elem_of_singleton _ _.
    reflexivity.
  - intros n i t ->%list_elem_of_singleton (l & o & [= <-] & Hl & Hi & _).
    vm_compute in Hl. injection Hl as <-. vm_compute in Hi. injection Hi as <-.
    by eexists.
Defined.

Lemma fresh_form_incomplete_witness :
  isFormComplete (λ s, s) (λ _, false) sampleHeap [JSRef 2%positive] {[ "in" := JSString "" ]}
  = Some (bool_decide
            (Forall (λ n, inputKey sampleHeap n = Some "__proto__") [JSRef 2%positive])).
Proof.
  apply (fresh_form_incomplete (λ s, s) (λ _, false) sampleHeap
           [JSRef 2%positive; JSRef 5%positive]
           (mkStructure [JSRef 2%positive] [JSRef 5%positive] [])
           {[ "in" := JSString "" ]}).
  - reflexivity.
  - reflexivity.
  - reflexivity.
  - repeat constructor. by exists "in".
Defined.

(** *** From the form to the run *)

Lemma handleInputChange_insert (nodeId : string) (value : JSValue) (prev : Obj) :
  handleInputChange nodeId value prev = <[nodeId := value]> prev.
Proof.
  unfold handleInputChange, spreadInto.
  by rewrite (right_id_L ∅ (∪)), insert_union_singleton_l.
Qed.

Lemma Forall2_with_left {A B} (P : A → Prop) (R : A → B → Prop) l k :
  Forall P l → Forall2 R l k → Forall2 (λ x y, P x ∧ R x y) l k.
Proof.
  intros HP HR. induction HR as [|x y l k Hxy _ IH]; [constructor|].
  apply Forall_cons in HP as [? ?]. constructor; auto.
Qed.

(** The input state after a series of calls of [handleInputChange]. *)
Definition applyChanges (changes : list (string * JSValue)) (st : Obj) : Obj :=
  foldl (λ acc c, handleInputChange c.1 c.2 acc) st changes.

Section Run.

Variable builtin : string → loc.

Lemma applyChanges_defined changes : ∀ st k,
  Forall (λ c, c.2 ≠ JSUndefined) changes →
  readProp builtin st k ≠ JSUndefined →
  readProp builtin (applyChanges changes st) k ≠ JSUndefined.
Proof.
  induction changes as [|[k' v] rest IH]; intros st k Hall Hk; [done|].
  apply Forall_cons in Hall as [Hv Hrest]. simpl. apply IH; [done|].
  rewrite handleInputChange_insert. unfold readProp.
  destruct (decide (k' = k)) as [->|Hne].
  - by rewrite lookup_insert_eq.
  - by rewrite lookup_insert_ne.
Qed.

(** The element of [nodesWithInputs] for an input node of type [t] whose
    value is [value]: new node, data and config objects, the config
    holding the value. *)
Definition carries (h h' : Heap) (t : string) (value node' : JSValue) : Prop :=
  ∃ ln' on ld' od lc' cfg,
    node' = JSRef ln' ∧ h !! ln' = None
    ∧ h' !! ln' = Some (CObj on) ∧ on !! "data" = Some (JSRef ld')
    ∧ h' !! ld' = Some (CObj od) ∧ od !! "config" = Some (JSRef lc')
    ∧ h' !! lc' = Some (CObj cfg)
    ∧ cfg !! (if String.eqb t "textInputNode" then "inputText" else "imageData")
      = Some value.

(** X24: once the app is loaded, every run overlays every input node:
    whatever calls of [handleInputChange] with defined values came in
    between, [inputState[node.id]] is not [undefined] for an input node,
    and its element of [nodesWithInputs] is a new object whose config
    holds that value under [inputText] or [imageData]: the node's current
    value, which is the empty string if the user has entered nothing (and
    the inherited object for a node of id ["__proto__"]). *)
Theorem input_nodes_always_overlaid (h : Heap) (la : loc) (elems : list JSValue)
    (m : Obj) (changes : list (string * JSValue)) :
  h !! la = Some (CArr elems) →
  Forall (wellFormedNode h) elems →
  initialInputs h elems = Some m →
  Forall (λ c, c.2 ≠ JSUndefined) changes →
  let st := applyChanges changes m in
  ∃ la' elems' h',
    nodesWithInputs builtin h (JSRef la) st = Some (JSRef la', h')
    ∧ h' !! la' = Some (CArr elems')
    ∧ Forall2 (λ n n', ∀ i t, inputNodeAt h n i t →
                              ∃ v, reads builtin st i v ∧ v ≠ JSUndefined
                                   ∧ carries h h' t v n'
                                   ∧ (changes = [] → i ≠ "__proto__" → v = JSString ""))
              elems elems'.
Proof.
  intros Hla Hwf Hm Hch st.
  destruct (mapNodes_spec builtin st h elems h (reflexivity h) Hwf)
    as (elems' & h1 & E & S1 & O).
  unfold nodesWithInputs. rewrite Hla, E. cbn [mbind option_bind].
  destruct (alloc h1 (CArr elems')) as [la' h2] eqn:Ha.
  apply alloc_extends in Ha as (S2 & N2 & L2).
  exists la', elems', h2. split_and!; [done..|].
  assert (Hinit : ∀ n i t, n ∈ elems → inputNodeAt h n i t → i ≠ "__proto__" →
                           m !! i = Some (JSString "")).
  { intros n i t Hn Hat Hne.
    eapply initialInputs_input_node; [done..| |by eapply inputNodeAt_inputKey|done].
    destruct Hat as (l & o & -> & Hl & _ & Ht & Hty).
    apply isInputNode_true. exists l, o. split_and!; [done..|].
    destruct Hty as [-> | ->]; auto. }
  assert (Hdef : Forall (λ n, ∀ i t, inputNodeAt h n i t →
                                    readProp builtin st i ≠ JSUndefined
                                    ∧ (changes = [] → i ≠ "__proto__" →
                                       readProp builtin st i = JSString "")) elems).
  { apply Forall_forall. intros n Hn i t Hat. split.
    - apply applyChanges_defined; [done|]. unfold readProp.
      destruct (decide (i = "__proto__")) as [->|Hne].
      + by rewrite (initialInputs_proto _ _ _ Hm).
      + by rewrite (Hinit n i t Hn Hat Hne).
    - intros Hnil Hne. unfold st. rewrite Hnil. simpl. unfold readProp.
      by rewrite (Hinit n i t Hn Hat Hne). }
  eapply Forall2_impl; [exact (Forall2_with_left _ _ _ _ Hdef O)|].
  intros n n' [Hn Hov] i t Hat. destruct (Hn i t Hat) as [Hne Hempty].
  exists (readProp builtin st i).
  split; [apply readProp_reads|]. split; [done|]. split; [|done].
  destruct Hov as (ln & o & i' & v & -> & Hln & Hid & Hv & Hrest).
  destruct Hat as (l & o' & [= <-] & Hl & Hi & Ht & Hty).
  rewrite Hln in Hl. injection Hl as <-.
  assert (i' = i) as -> by congruence.
  apply reads_readProp in Hv. subst v.
  destruct Hrest as [[? _]|[_ Hrest]]; [done|].
  destruct Hrest
    as (ln' & ld' & lc' & ld & d & base & cfg & -> & N1 & _ & _ & _ & _ & _ & C1 & C2 & C3 & Hmerged).
  eexists ln', _, ld', _, lc', cfg.
  split_and!; [done|done| | | | | |].
  - eapply lookup_weaken; [exact C1|done].
  - apply lookup_insert_eq.
  - eapply lookup_weaken; [exact C2|done].
  - apply lookup_insert_eq.
  - eapply lookup_weaken; [exact C3|done].
  - destruct Hmerged as (Htext & Himage & _).
    assert (Htype : o !! "type" = Some (JSString t)).
    { unfold getProp in Ht. destruct (o !! "type"); by simplify_eq/=. }
    destruct Hty as [-> | ->]; simpl.
    + rewrite (Htext Htype). apply lookup_insert_eq.
    + rewrite (Himage Htype). apply lookup_insert_eq.
Qed.



End Run.

Lemma input_nodes_always_overlaid_witness :
  let st := applyChanges [("in", JSString "hello")] {[ "in" := JSString "" ]} in
  ∃ la' elems' h',
    nodesWithInputs sampleBuiltin sampleHeap (JSRef 1%positive) st = Some (JSRef la', h')
    ∧ h' !! la' = Some (CArr elems')
    ∧ Forall2 (λ n n', ∀ i t, inputNodeAt sampleHeap n i t →
                              ∃ v, reads sampleBuiltin st i v ∧ v ≠ JSUndefined
                                   ∧ carries sampleHeap h' t v n'
                                   ∧ ([("in", JSString "hello")] = [] →
                                      i ≠ "__proto__" → v = JSString ""))
              [JSRef 2%positive; JSRef 5%positive] elems'.
Proof.
  apply (input_nodes_always_overlaid sampleBuiltin sampleHeap 1%positive
           [JSRef 2%positive; JSRef 5%positive] {[ "in" := JSString "" ]}
           [("in", JSString "hello")]).
  - reflexivity.
  - exact sample_wellFormed.
  - reflexivity.
  - by repeat constructor.
Defined.


(** A node of id ["constructor"] without [data]: the run fails although
    the input state has no entry of its own for it. *)
Lemma inherited_key_without_data :
  let h : Heap := <[7%positive := CArr [JSRef 8%positive]]>
                  (<[8%positive := CObj {[ "id" := JSString "constructor" ]}]> ∅) in
  nodesWithInputs sampleBuiltin h (JSRef 7%positive) ∅ = None.
Proof. reflexivity. Qed.

End FormFacts.
